(** * UNHCR job scraper: eligibility classifier and feed reconciliation

    A shallow embedding of [scraper.py] and the proofs of its specification.

    Texts.  A Python [str] is embedded as a list of characters ([text]).
    The embedding is of the code on ASCII texts ([ascii_text]: every code
    below 128).  There the tables of the Unicode database that the code
    consults ([unicodedata.normalize], [str.upper], the classes behind [\s],
    [\w], [\d] and [re.IGNORECASE]) are the ones written here, and NFKD is
    the identity.  The character type also has the codes 128 to 255: the
    definitions carry these characters through unchanged and put them in no
    class, which is not what Python does with them (U+00A0 is white space,
    U+00D8 is a letter), so a statement that goes through these tables says
    something of the code for ASCII texts only.

    Regular expressions.  The patterns of the source are kept as syntax
    ([regex]) and run by a backtracking matcher that lists the successful
    ways to match at a position in the priority order of Python's [re]
    engine (leftmost alternative first, greedy repetition first); [re_search]
    and [re_sub] are built on it the way [Pattern.search] and [Pattern.sub]
    are. *)

From Stdlib Require Import Ascii String List Bool Arith NArith ZArith Lia.
Import ListNotations.

Local Open Scope list_scope.

(** ** Characters and texts *)

Definition text := list ascii.

Definition txt (s : string) : text := list_ascii_of_string s.

Definition code (c : ascii) : N := N_of_ascii c.

Definition in_range (lo hi : N) (c : ascii) : bool :=
  ((lo <=? code c) && (code c <=? hi))%N.

(** The characters of ASCII, and the texts made of them. *)
Definition is_ascii (c : ascii) : bool := (code c <? 128)%N.

Definition ascii_text (t : list ascii) : bool := forallb is_ascii t.

(** [\d] *)
Definition is_digit (c : ascii) : bool := in_range 48 57 c.

Definition is_upper_letter (c : ascii) : bool := in_range 65 90 c.
Definition is_lower_letter (c : ascii) : bool := in_range 97 122 c.

(** [\w]: letters, digits and the underscore. *)
Definition is_word (c : ascii) : bool :=
  is_digit c || is_upper_letter c || is_lower_letter c || (code c =? 95)%N.

(** [\s] and [str.isspace]: TAB, LF, VT, FF, CR, the four separators
    FS, GS, RS, US and the space. *)
Definition is_space (c : ascii) : bool := in_range 9 13 c || in_range 28 32 c.

Definition to_upper (c : ascii) : ascii :=
  if is_lower_letter c then ascii_of_N (code c - 32) else c.

Definition to_lower (c : ascii) : ascii :=
  if is_upper_letter c then ascii_of_N (code c + 32) else c.

(** [str.upper] *)
Definition upper (t : text) : text := map to_upper t.

Definition text_eqb (a b : text) : bool :=
  if list_eq_dec ascii_dec a b then true else false.

Fixpoint starts_with (p t : text) : bool :=
  match p, t with
  | [], _ => true
  | _ :: _, [] => false
  | a :: p', b :: t' => Ascii.eqb a b && starts_with p' t'
  end.

(** [p in t] on strings: [p] occurs as a contiguous part of [t]. *)
Fixpoint contains (p t : text) : bool :=
  starts_with p t ||
  match t with
  | [] => false
  | _ :: t' => contains p t'
  end.

Fixpoint lstrip (t : text) : text :=
  match t with
  | c :: t' => if is_space c then lstrip t' else t
  | [] => []
  end.

Fixpoint rstrip (t : text) : text :=
  match t with
  | c :: t' =>
      match rstrip t' with
      | [] => if is_space c then [] else [c]
      | r => c :: r
      end
  | [] => []
  end.

(** [str.strip()] *)
Definition strip (t : text) : text := rstrip (lstrip t).

(** [sep.join(parts)] *)
Fixpoint join (sep : text) (parts : list text) : text :=
  match parts with
  | [] => []
  | [p] => p
  | p :: rest => p ++ sep ++ join sep rest
  end.

(** ** Regular expressions *)

Inductive atom : Type :=
| Lit (c : ascii)             (* a literal character *)
| Range (lo hi : ascii)       (* [lo-hi] *)
| Digit                       (* \d *)
| Space                       (* \s *)
| Codes (l : list N).         (* a class given by its code points *)

Inductive regex : Type :=
| Eps
| Bnd                                         (* \b *)
| Chr (a : atom)
| Rep (a : atom) (lo : nat) (hi : option nat) (* a{lo,hi}, greedy; hi = None: unbounded *)
| Seq (r1 r2 : regex)
| Alt (r1 r2 : regex)
| Grp (n : nat) (r : regex).                  (* capturing group number n *)

(** A position in the subject: whether the character before it is a word
    character (all that [\b] looks at behind the position; [false] at the
    start of the text), the text from it on, and the groups captured so
    far. *)
Record mpos : Type := MPos {
  m_wb : bool;
  m_rest : text;
  m_caps : list (nat * text)
}.

Definition accepts (ic : bool) (a : atom) (c : ascii) : bool :=
  match a with
  | Lit l => if ic then Ascii.eqb (to_lower c) (to_lower l) else Ascii.eqb c l
  | Range lo hi =>
      in_range (code lo) (code hi) c ||
      (ic && (in_range (code lo) (code hi) (to_lower c) ||
              in_range (code lo) (code hi) (to_upper c)))
  | Digit => is_digit c
  | Space => is_space c
  | Codes l => existsb (N.eqb (code c)) l
  end.

Definition word_after (t : text) : bool :=
  match t with c :: _ => is_word c | [] => false end.

Definition at_boundary (p : mpos) : bool :=
  xorb (m_wb p) (word_after (m_rest p)).

Definition bounded (hi : option nat) : bool :=
  match hi with Some 0 => false | _ => true end.

Definition dec_hi (hi : option nat) : option nat :=
  match hi with Some n => Some (pred n) | None => None end.

(** Greedy repetition of one atom: the longest run first, then the shorter
    ones down to [lo] characters. *)
Fixpoint rep (ic : bool) (a : atom) (lo : nat) (hi : option nat)
    (wb : bool) (t : text) (caps : list (nat * text)) : list mpos :=
  let here := if Nat.eqb lo 0 then [MPos wb t caps] else [] in
  match t with
  | c :: t' =>
      if accepts ic a c && bounded hi
      then rep ic a (pred lo) (dec_hi hi) (is_word c) t' caps ++ here
      else here
  | [] => here
  end.

Definition consumed (p q : mpos) : text :=
  firstn (length (m_rest p) - length (m_rest q)) (m_rest p).

Definition capture (n : nat) (p q : mpos) : mpos :=
  MPos (m_wb q) (m_rest q) ((n, consumed p q) :: m_caps q).

(** All the ways [r] matches at [p], in the order the engine tries them. *)
Fixpoint run (ic : bool) (r : regex) (p : mpos) : list mpos :=
  match r with
  | Eps => [p]
  | Bnd => if at_boundary p then [p] else []
  | Chr a =>
      match m_rest p with
      | c :: t' => if accepts ic a c then [MPos (is_word c) t' (m_caps p)] else []
      | [] => []
      end
  | Rep a lo hi => rep ic a lo hi (m_wb p) (m_rest p) (m_caps p)
  | Seq r1 r2 => flat_map (run ic r2) (run ic r1 p)
  | Alt r1 r2 => run ic r1 p ++ run ic r2 p
  | Grp n r' => map (capture n p) (run ic r' p)
  end.

(** The match found at a position: the first way. *)
Definition match_at (ic : bool) (r : regex) (wb : bool) (t : text)
  : option mpos :=
  hd_error (run ic r (MPos wb t [])).

(** [Pattern.search]: the leftmost position with a match. *)
Fixpoint search_from (ic : bool) (r : regex) (wb : bool) (t : text)
  : option mpos :=
  match match_at ic r wb t with
  | Some q => Some q
  | None =>
      match t with
      | c :: t' => search_from ic r (is_word c) t'
      | [] => None
      end
  end.

Definition re_search (ic : bool) (r : regex) (t : text) : bool :=
  match search_from ic r false t with Some _ => true | None => false end.

(** [m.group(n)] *)
Fixpoint group (n : nat) (caps : list (nat * text)) : text :=
  match caps with
  | [] => []
  | (k, g) :: rest => if Nat.eqb k n then g else group n rest
  end.

(** [Pattern.sub]: scan from the left; at a match emit the replacement and
    resume behind the matched text ([skip] counts the characters of the
    match still to pass over); elsewhere copy the character.  An empty match
    is replaced and the scan moves on by one character. *)
Fixpoint sub_from (ic : bool) (r : regex) (repl : list (nat * text) -> text)
    (skip : nat) (wb : bool) (t : text) : text :=
  match skip with
  | S k =>
      match t with
      | c :: t' => sub_from ic r repl k (is_word c) t'
      | [] => []
      end
  | 0 =>
      match match_at ic r wb t with
      | Some q =>
          repl (m_caps q) ++
          match t with
          | c :: t' =>
              match length t - length (m_rest q) with
              | S k => sub_from ic r repl k (is_word c) t'
              | 0 => c :: sub_from ic r repl 0 (is_word c) t'
              end
          | [] => []
          end
      | None =>
          match t with
          | c :: t' => c :: sub_from ic r repl 0 (is_word c) t'
          | [] => []
          end
      end
  end.

Definition re_sub (ic : bool) (r : regex) (repl : list (nat * text) -> text)
    (t : text) : text :=
  sub_from ic r repl 0 false t.

(** The literal string [s] as a pattern. *)
Fixpoint str_re (s : text) : regex :=
  match s with
  | [] => Eps
  | [c] => Chr (Lit c)
  | c :: s' => Seq (Chr (Lit c)) (str_re s')
  end.

Definition str (s : string) : regex := str_re (txt s).

Fixpoint alt_re (rs : list regex) : regex :=
  match rs with
  | [] => Alt Eps Eps
  | [r] => r
  | r :: rs' => Alt r (alt_re rs')
  end.

Fixpoint seq_re (rs : list regex) : regex :=
  match rs with
  | [] => Eps
  | [r] => r
  | r :: rs' => Seq r (seq_re rs')
  end.

(** ** Grade and level patterns *)

(** [\b(P|D|G|SB|LSC|NO)(\d+)\b], IGNORECASE *)
Definition GRADE_NORMALIZE_RE : regex :=
  seq_re [Bnd;
       Grp 1 (alt_re [str "P"; str "D"; str "G"; str "SB"; str "LSC"; str "NO"]);
       Grp 2 (Rep Digit 1 None);
       Bnd].

Definition INCLUDED_GRADES : list text :=
  [txt "P-1"; txt "P-2"; txt "P-3"; txt "P-4"; txt "P-5"; txt "D-1"; txt "D-2"].

Definition EXCLUDED_GRADE_PATTERNS : list regex :=
  [ seq_re [Bnd; str "G-"; Chr (Range "1" "7"); Bnd];
    seq_re [Bnd; str "NO"; Chr (Range "A" "D"); Bnd];
    seq_re [Bnd; str "NOA"; Bnd];
    seq_re [Bnd; str "NOB"; Bnd];
    seq_re [Bnd; str "NOC"; Bnd];
    seq_re [Bnd; str "NOD"; Bnd];
    seq_re [Bnd; str "SB-"; Chr (Range "1" "4"); Bnd];
    seq_re [Bnd; str "LSC-"; Rep Digit 1 (Some 2); Bnd] ].

(** [\bCONSULTAN], IGNORECASE *)
Definition CONSULTANT_RE : regex := seq_re [Bnd; str "CONSULTAN"].

(** [\b(INTERN|FELLOWSHIP)\b], IGNORECASE *)
Definition INTERN_FELLOWSHIP_RE : regex :=
  seq_re [Bnd; Grp 1 (alt_re [str "INTERN"; str "FELLOWSHIP"]); Bnd].

(** The class of line 82: U+2010..U+2015, U+2212, U+FE58, U+FE63, U+FF0D. *)
Definition UNICODE_DASH_RE : regex :=
  Chr (Codes [8208; 8209; 8210; 8211; 8212; 8213; 8722; 65112; 65123; 65293]%N).

(** [\s+] *)
Definition WHITESPACE_RE : regex := Rep Space 1 None.

(** [unicodedata.normalize("NFKD", t)], on the repertoire of the embedding. *)
Definition nfkd (t : text) : text := t.

Definition normalize_text (t : text) : text :=
  let t := nfkd t in
  let t := re_sub false UNICODE_DASH_RE (fun _ => txt "-") t in
  let t := re_sub true GRADE_NORMALIZE_RE
             (fun m => upper (group 1 m) ++ txt "-" ++ group 2 m) t in
  let t := upper t in
  strip (re_sub false WHITESPACE_RE (fun _ => txt " ") t).

(** The detected grades, a set: listed in the order of [INCLUDED_GRADES]. *)
Definition detect_grades (t : text) : list text :=
  let normalized := normalize_text t in
  filter (fun g => contains g normalized) INCLUDED_GRADES.

Definition is_excluded_grade (t : text) : bool :=
  let normalized := normalize_text t in
  existsb (fun pat => re_search false pat normalized) EXCLUDED_GRADE_PATTERNS.

Definition is_consultant (t : text) : bool := re_search true CONSULTANT_RE t.

Definition is_intern_or_fellowship (t : text) : bool :=
  re_search true INTERN_FELLOWSHIP_RE t.

(** A set is true when it is not empty. *)
Definition nonempty {A : Type} (l : list A) : bool :=
  match l with [] => false | _ :: _ => true end.

Definition should_include_job (combined_text : text) : bool :=
  if is_consultant combined_text then false
  else if is_excluded_grade combined_text then false
  else if nonempty (detect_grades combined_text) then true
  else if is_intern_or_fellowship combined_text then true
  else false.


(** ** Configuration *)

Definition BASE_URL : text := txt "https://unhcr.wd3.myworkdayjobs.com/en-GB/External".
Definition PAGE_SIZE : Z := 20.
Definition MAX_INCLUDED_JOBS : nat := 50.
Definition MAX_PAGES : nat := 50.

(** ** Dictionaries and sets

    A [dict] with string keys and string values is an association list in
    insertion order; a [set] of strings is a list without repetitions. *)

Definition dict := list (text * text).

Fixpoint dict_get (d : dict) (k : text) (default : text) : text :=
  match d with
  | [] => default
  | (k', v) :: d' => if text_eqb k' k then v else dict_get d' k default
  end.

(** [d[k] = v] *)
Fixpoint dict_set (d : dict) (k v : text) : dict :=
  match d with
  | [] => [(k, v)]
  | (k', v') :: d' =>
      if text_eqb k' k then (k, v) :: d' else (k', v') :: dict_set d' k v
  end.

(** [x in s] *)
Definition set_mem (x : text) (s : list text) : bool := existsb (text_eqb x) s.

(** [s.add(x)] *)
Definition set_add (x : text) (s : list text) : list text :=
  if set_mem x s then s else s ++ [x].

(** ** The listing source and the detail sources *)

Record posting : Type := Posting {
  p_title : text;            (* "title" *)
  p_externalPath : text;     (* "externalPath" *)
  p_locationsText : text;    (* "locationsText" *)
  p_bulletFields : list text;(* "bulletFields", each field through [str] *)
  p_postedOn : text          (* "postedOn" *)
}.

(** What [fetch_job_listings] gives: the exception it lets through, or the
    decoded page with its ["jobPostings"] and ["total"]. *)
Inductive listing_response : Type :=
| RequestException
| Listing (jobPostings : list posting) (total : Z).

(** The fields of ["jobPostingInfo"] the run reads, absent ones as [""].
    This is a structured detail of the types the run expects (an object
    with string fields); [detail_answer] further down has the answers of
    every type, and the exceptions they lead to. *)
Record job_posting_info : Type := JobPostingInfo {
  jobDescription : text;
  additionalInformation : text;
  jobReqSubCategory : text;
  workerSubType : text
}.

(** The requests of a run, in the order they are issued. *)
Inductive call : Type :=
| FetchListings (offset : Z)
| FetchDetailJson (external_path : text)
| FetchDetailText (job_url : text).

(** The outside of a run.  An answer may depend on everything requested
    before ([list call], the latest request first).
    [fetch_job_detail_json] is [None] where the source function returns the
    empty dict (no success status, a request or a decoding error, or an empty
    object); [fetch_job_detail_text] is [""] on failure. *)
Record world : Type := World {
  fetch_job_listings : list call -> Z -> listing_response;
  fetch_job_detail_json : list call -> text -> option job_posting_info;
  fetch_job_detail_text : list call -> text -> text;
  generate_numeric_id : text -> text;
  format_pub_date : list call -> text -> text
}.

Definition build_job_url (external_path : text) : text :=
  if starts_with (txt "http") external_path then external_path
  else txt "https://unhcr.wd3.myworkdayjobs.com/en-GB/External" ++ external_path.

(** ** The existing feed *)

Record xml_child : Type := XmlChild {
  x_tag : text;
  x_text : option text;
  x_attrib : dict
}.

(** An [<item>] element: its children in document order. *)
Definition xml_item := list xml_child.

(** The [<item>] elements of the feed file in document order; none when the
    file is missing or cannot be parsed. *)
Definition feed_document := list xml_item.

Definition truthy (t : option text) : bool :=
  match t with Some (_ :: _) => true | _ => false end.

Definition text_or_empty (t : option text) : text :=
  match t with Some s => s | None => [] end.

Definition load_existing_links (doc : feed_document) : list text :=
  fold_left
    (fun links item =>
       match find (fun ch => text_eqb (x_tag ch) (txt "link")) item with
       | Some link_el =>
           if truthy (x_text link_el)
           then set_add (strip (text_or_empty (x_text link_el))) links
           else links
       | None => links
       end)
    doc [].

(** [tag.split("}")[-1]] *)
Fixpoint after_last_brace (t : text) : text :=
  match t with
  | [] => []
  | c :: t' =>
      if contains (txt "}") t' then after_last_brace t'
      else if Ascii.eqb c "}" then t' else t
  end.

Definition item_of_xml (item : xml_item) : dict :=
  fold_left
    (fun item_data child =>
       let tag := if contains (txt "}") (x_tag child)
                  then after_last_brace (x_tag child) else x_tag child in
       if text_eqb tag (txt "source") then
         dict_set
           (dict_set item_data (txt "source_text") (text_or_empty (x_text child)))
           (txt "source_url") (dict_get (x_attrib child) (txt "url") [])
       else
         let item_data := dict_set item_data tag (text_or_empty (x_text child)) in
         if text_eqb tag (txt "guid") then
           dict_set item_data (txt "guid_isPermaLink")
             (dict_get (x_attrib child) (txt "isPermaLink") (txt "false"))
         else item_data)
    item [].

Definition load_existing_items (doc : feed_document) : list dict :=
  map item_of_xml doc.

(** ** Main scraping logic *)

Record state : Type := State {
  included_jobs : list dict;
  existing_links : list text;
  offset : Z;
  total_processed : nat;
  pages_fetched : nat;
  calls : list call
}.

Definition skipped (st : state) : state :=
  State (included_jobs st) (existing_links st) (offset st)
        (S (total_processed st)) (pages_fetched st) (calls st).

Definition requested (c : call) (st : state) : state :=
  State (included_jobs st) (existing_links st) (offset st)
        (total_processed st) (pages_fetched st) (c :: calls st).

Definition accepted (job_item : dict) (job_url : text) (st : state) : state :=
  State (included_jobs st ++ [job_item]) (set_add job_url (existing_links st))
        (offset st) (S (total_processed st)) (pages_fetched st) (calls st).

(** Lexicographic order of strings by code point, and [sorted]. *)
Fixpoint text_leb (a b : text) : bool :=
  match a, b with
  | [], _ => true
  | _ :: _, [] => false
  | x :: a', y :: b' =>
      if (code x <? code y)%N then true
      else if (code y <? code x)%N then false
      else text_leb a' b'
  end.

Fixpoint insert_sorted (x : text) (l : list text) : list text :=
  match l with
  | [] => [x]
  | y :: l' => if text_leb x y then x :: l else y :: insert_sorted x l'
  end.

Definition sorted (l : list text) : list text := fold_right insert_sorted [] l.

Definition listing_text_of (title location : text) (bullet_fields : list text) : text :=
  join (txt " ") ([title; location] ++ bullet_fields).

Definition location_of (p : posting) : text :=
  match p_locationsText p with [] => txt "Unknown" | l => l end.

(** The pieces of the description (lines 476-484). *)
Definition desc_parts (title location listing_text posted_on : text) : list text :=
  let grades := detect_grades (normalize_text listing_text) in
  [txt "UNHCR has a vacancy for the position of " ++ title ++ txt ".";
   txt "Location: " ++ location ++ txt "."]
  ++ (if nonempty grades
      then [txt "Grade: " ++ join (txt ", ") (sorted grades) ++ txt "."] else [])
  ++ (if nonempty posted_on
      then [txt "Posted: " ++ posted_on ++ txt "."] else []).

Definition detail_parts (job_desc : job_posting_info) : list text :=
  [jobDescription job_desc; additionalInformation job_desc;
   jobReqSubCategory job_desc; workerSubType job_desc].

(** Lines 448-473: the detail text gathered for a posting that the listing
    does not decide, and the state after the requests made for it. *)
Definition gather_detail (w : world) (listing_text external_path job_url : text)
    (st : state) : text * state :=
  let detail_json := fetch_job_detail_json w (calls st) external_path in
  let st := requested (FetchDetailJson external_path) st in
  let detail_text :=
    match detail_json with
    | Some job_desc => join (txt " ") (detail_parts job_desc)
    | None => []
    end in
  if negb (nonempty detail_text)
     || negb (should_include_job (listing_text ++ txt " " ++ detail_text))
  then
    let html_text := fetch_job_detail_text w (calls st) job_url in
    let st := requested (FetchDetailText job_url) st in
    (if nonempty html_text then html_text else detail_text, st)
  else (detail_text, st).

(** The item of an accepted posting (lines 475-508). *)
Definition job_item_of (w : world) (title job_url location listing_text posted_on : text)
    (st : state) : dict :=
  [(txt "title", title);
   (txt "link", job_url);
   (txt "description", join (txt " ") (desc_parts title location listing_text posted_on));
   (txt "guid", generate_numeric_id w job_url);
   (txt "pubDate", format_pub_date w (calls st) posted_on);
   (txt "location", location)].

(** The body of the loop over the postings of a page (lines 407-512). *)
Definition process_posting (w : world) (p : posting) (st : state) : state :=
  let title := strip (p_title p) in
  let external_path := p_externalPath p in
  let job_url := build_job_url external_path in
  let location := location_of p in
  let posted_on := p_postedOn p in
  if set_mem job_url (existing_links st) then skipped st
  else
    let listing_text := listing_text_of title location (p_bulletFields p) in
    if is_consultant listing_text then skipped st
    else
      let normalized_listing := normalize_text listing_text in
      let has_included := nonempty (detect_grades normalized_listing) in
      let has_excluded := is_excluded_grade normalized_listing in
      let has_intern := is_intern_or_fellowship listing_text in
      if has_excluded then skipped st
      else if has_included || has_intern then
        accepted (job_item_of w title job_url location listing_text posted_on st)
                 job_url st
      else
        let (detail_text, st) :=
          gather_detail w listing_text external_path job_url st in
        let combined := listing_text ++ txt " " ++ detail_text in
        if negb (should_include_job combined) then skipped st
        else
          accepted (job_item_of w title job_url location listing_text posted_on st)
                   job_url st.

(** [for posting in job_postings], with its [break] at the cap. *)
Fixpoint process_postings (w : world) (job_postings : list posting) (st : state)
  : state :=
  match job_postings with
  | [] => st
  | p :: rest =>
      if MAX_INCLUDED_JOBS <=? length (included_jobs st) then st
      else process_postings w rest (process_posting w p st)
  end.

(** How the pagination loop was left. *)
Inductive stop : Type :=
| LoopConditionFalse   (* the [while] test failed *)
| ListingFetchFailed   (* line 393 *)
| NoMorePostings       (* line 398 *)
| ReachedEnd (total_available : Z).  (* line 519 *)

Definition next_page (st : state) : state :=
  State (included_jobs st) (existing_links st) (offset st + PAGE_SIZE)
        (total_processed st) (S (pages_fetched st)) (calls st).

(** The [while] loop of lines 387-519; [fuel] bounds the number of
    iterations ([None] when it runs out). *)
Fixpoint paginate (fuel : nat) (w : world) (st : state) : option (state * stop) :=
  match fuel with
  | 0 => None
  | S fuel' =>
      if (length (included_jobs st) <? MAX_INCLUDED_JOBS)
         && (pages_fetched st <? MAX_PAGES)
      then
        let response := fetch_job_listings w (calls st) (offset st) in
        let st := requested (FetchListings (offset st)) st in
        match response with
        | RequestException => Some (st, ListingFetchFailed)
        | Listing job_postings total_available =>
            match job_postings with
            | [] => Some (st, NoMorePostings)
            | _ :: _ =>
                let st := next_page (process_postings w job_postings st) in
                if (total_available <=? offset st)%Z then Some (st, ReachedEnd total_available)
                else paginate fuel' w st
            end
        end
      else Some (st, LoopConditionFalse)
  end.

Definition initial_state (doc : feed_document) : state :=
  State [] (load_existing_links doc) 0 0 0 [].

(** Lines 524-529: merge, then the minimum title length. *)
Definition merge_items (existing_items included : list dict) : list dict :=
  filter (fun item => 5 <=? length (dict_get item (txt "title") []))
         (existing_items ++ included).

(** The items handed to [build_rss_xml]. *)
Definition scrape_jobs (w : world) (doc : feed_document) : option (list dict) :=
  let existing_items := load_existing_items doc in
  match paginate (S MAX_PAGES) w (initial_state doc) with
  | Some (st, _) => Some (merge_items existing_items (included_jobs st))
  | None => None
  end.

(** ** GUID generation and XML helpers *)

(** [str(n)] for a natural number: its decimal digits.  [fuel] bounds the
    number of digits. *)
Fixpoint digits_of (fuel : nat) (n : N) : text :=
  match fuel with
  | 0 => []
  | S fuel' =>
      if (n <? 10)%N then [ascii_of_N (48 + n)]
      else digits_of fuel' (n / 10) ++ [ascii_of_N (48 + n mod 10)]
  end.

Definition str_N (n : N) : text := digits_of (S (N.to_nat (N.log2 n))) n.

(** [s.zfill(width)] for a string of digits. *)
Definition zfill (width : nat) (s : text) : text :=
  repeat "0"%char (width - length s) ++ s.

(** Line 148 of [generate_numeric_id], from [h = int(hex_dig[:16], 16)], the
    number that the first 16 hexadecimal digits of the MD5 digest of the URL
    write. *)
Definition numeric_id (h : N) : text :=
  zfill 16 (str_N (h mod 10000000000000000)).

(** The code points [lo], [lo + 1], ..., [lo + len - 1]. *)
Definition code_range (lo : N) (len : nat) : list N :=
  map (fun k => (lo + N.of_nat k)%N) (seq 0 len).

(** The class of lines 155-158: U+0000..U+0008, U+000B, U+000C,
    U+000E..U+001F, U+007F..U+0084, U+0086..U+009F, the surrogates
    U+D800..U+DFFF, U+FDD0..U+FDEF, U+FFFE and U+FFFF.  The characters of
    the embedding have the codes 0 to 255, so none is in the last four
    ranges. *)
Definition XML_ILLEGAL_RE : regex :=
  alt_re [Chr (Range "000" "008"); Chr (Lit "011"); Chr (Lit "012");
          Chr (Range "014" "031"); Chr (Range "127" "132");
          Chr (Range "134" "159");
          Chr (Codes (code_range 55296 2048 ++ code_range 64976 32
                      ++ [65534; 65535]%N))].

Definition clean_xml_text (t : text) : text :=
  re_sub false XML_ILLEGAL_RE (fun _ => []) t.

(** ** Endpoint discovery and the address of the structured detail *)

Definition KNOWN_ENDPOINT : text :=
  txt "https://unhcr.wd3.myworkdayjobs.com/wday/cxs/unhcr/External/jobs".

(** The class [[^/]], on the repertoire of the embedding. *)
Definition non_slash : atom :=
  Codes (filter (fun n => negb (n =? 47)%N) (code_range 0 256)).

(** [/wday/cxs/([^/]+)/([^/]+)/jobs] *)
Definition ENDPOINT_RE : regex :=
  seq_re [str "/wday/cxs/"; Grp 1 (Rep non_slash 1 None); str "/";
          Grp 2 (Rep non_slash 1 None); str "/jobs"].

(** Lines 170-195.  [get url] is the answer to the request for a career
    page: [None] for a [RequestException], else the status code and the
    text of the page.  [discover_from] is the loop over the locales. *)
Fixpoint discover_from (get : text -> option (Z * text)) (locales : list text)
  : text :=
  match locales with
  | [] => KNOWN_ENDPOINT
  | locale :: rest =>
      let url := txt "https://unhcr.wd3.myworkdayjobs.com/" ++ locale
                 ++ txt "/External" in
      match get url with
      | Some (status_code, resp_text) =>
          if (status_code =? 200)%Z then
            match search_from false ENDPOINT_RE false resp_text with
            | Some m =>
                let tenant := group 1 (m_caps m) in
                let site := group 2 (m_caps m) in
                txt "https://unhcr.wd3.myworkdayjobs.com/wday/cxs/" ++ tenant
                  ++ txt "/" ++ site ++ txt "/jobs"
            | None => discover_from get rest
            end
          else discover_from get rest
      | None => discover_from get rest
      end
  end.

Definition discover_endpoint (get : text -> option (Z * text)) : text :=
  discover_from get [txt "en-GB"; txt "en-US"; txt "fr-FR"].

(** [t.replace(old, new)] for a non-empty [old]: scan from the left; where
    [old] starts, emit [new] and resume behind it ([skip] counts the
    characters of the occurrence still to pass over); elsewhere copy the
    character. *)
Fixpoint replace_from (old new : text) (skip : nat) (t : text) : text :=
  match t with
  | [] => []
  | c :: t' =>
      match skip with
      | S k => replace_from old new k t'
      | 0 =>
          if starts_with old t
          then new ++ replace_from old new (pred (length old)) t'
          else c :: replace_from old new 0 t'
      end
  end.

Definition replace (old new t : text) : text := replace_from old new 0 t.

(** Line 240 of [fetch_job_detail_json]: the address requested. *)
Definition detail_url (endpoint_base external_path : text) : text :=
  replace (txt "/jobs") external_path endpoint_base.

(** ** The structured detail as it arrives

    [job_posting_info] is the structured detail of the types the run
    expects: an object whose fields are strings.  The decoded answer can be
    any JSON value.  The definitions below follow lines 452-462 on every
    answer, with the exceptions that nothing in [scrape_jobs] catches. *)

(** A JSON value where a field is read: a string, [null], or any other
    value (a number, a boolean, a list, an object) given by its [str()]. *)
Inductive json_value : Type :=
| JString (s : text)
| JNull
| JOther (str_of : text).

(** The object under ["jobPostingInfo"]; [None] for a key that is absent. *)
Record raw_posting_info : Type := RawPostingInfo {
  raw_jobDescription : option json_value;
  raw_additionalInformation : option json_value;
  raw_jobReqSubCategory : option json_value;
  raw_workerSubType : option json_value
}.

(** The value under ["jobPostingInfo"]: an object, or a value without
    [.get] ([null], a string, a number, a boolean, a list). *)
Inductive info_value : Type :=
| InfoObject (info : raw_posting_info)
| InfoOther.

(** What [fetch_job_detail_json] returns: a value that is false (the [{}]
    of a failure, or a decoded [{}], [[]], [""], [0], [null], [false]); a
    value that is true and no object; or a non-empty object, with what it
    holds under ["jobPostingInfo"] ([None]: the key is absent). *)
Inductive detail_answer : Type :=
| Falsy
| NonObject
| Object (jobPostingInfo : option info_value).

Inductive exception : Type := TypeError | AttributeError.

Inductive result (A : Type) : Type :=
| Returned (a : A)
| Raised (e : exception).

Arguments Returned {A} a.
Arguments Raised {A} e.

(** An item of the list given to [" ".join]: [job_desc.get(key, "")]. *)
Definition join_item (v : option json_value) : result text :=
  match v with
  | None => Returned []
  | Some (JString s) => Returned s
  | Some JNull | Some (JOther _) => Raised TypeError
  end.

(** [str(job_desc.get(key, ""))] *)
Definition str_item (v : option json_value) : text :=
  match v with
  | None => []
  | Some (JString s) => s
  | Some JNull => txt "None"
  | Some (JOther str_of) => str_of
  end.

(** Lines 452-462: [detail_text] after the structured answer. *)
Definition detail_text_of (detail_json : detail_answer) : result text :=
  match detail_json with
  | Falsy => Returned []
  | NonObject => Raised AttributeError
  | Object None => Returned (join (txt " ") [[]; []; []; []])
  | Object (Some InfoOther) => Raised AttributeError
  | Object (Some (InfoObject job_desc)) =>
      match join_item (raw_jobDescription job_desc),
            join_item (raw_additionalInformation job_desc) with
      | Returned d, Returned a =>
          Returned (join (txt " ")
                      [d; a; str_item (raw_jobReqSubCategory job_desc);
                       str_item (raw_workerSubType job_desc)])
      | _, _ => Raised TypeError
      end
  end.

(** The outside of a run, with the structured answers as they arrive. *)
Record raw_world : Type := RawWorld {
  raw_fetch_job_listings : list call -> Z -> listing_response;
  raw_fetch_job_detail_json : list call -> text -> detail_answer;
  raw_fetch_job_detail_text : list call -> text -> text;
  raw_generate_numeric_id : text -> text;
  raw_format_pub_date : list call -> text -> text
}.

(** An answer of the expected types, as [fetch_job_detail_json] of [world]
    gives it; [None] for the others. *)
Definition typed_answer (detail_json : detail_answer)
  : option (option job_posting_info) :=
  match detail_json with
  | Falsy => Some None
  | NonObject => None
  | Object None => Some (Some (JobPostingInfo [] [] [] []))
  | Object (Some InfoOther) => None
  | Object (Some (InfoObject job_desc)) =>
      match join_item (raw_jobDescription job_desc),
            join_item (raw_additionalInformation job_desc) with
      | Returned d, Returned a =>
          Some (Some (JobPostingInfo d a (str_item (raw_jobReqSubCategory job_desc))
                                     (str_item (raw_workerSubType job_desc))))
      | _, _ => None
      end
  end.

(** The [world] that [rw] is where its answers have the expected types. *)
Definition typed_world (rw : raw_world) : world :=
  World (raw_fetch_job_listings rw)
        (fun cs external_path =>
           match typed_answer (raw_fetch_job_detail_json rw cs external_path) with
           | Some answer => answer
           | None => None
           end)
        (raw_fetch_job_detail_text rw)
        (raw_generate_numeric_id rw)
        (raw_format_pub_date rw).

(** Lines 448-468 on every answer. *)
Definition gather_detail_raw (rw : raw_world)
    (listing_text external_path job_url : text) (st : state)
  : result (text * state) :=
  let detail_json := raw_fetch_job_detail_json rw (calls st) external_path in
  let st := requested (FetchDetailJson external_path) st in
  match detail_text_of detail_json with
  | Raised e => Raised e
  | Returned detail_text =>
      if negb (nonempty detail_text)
         || negb (should_include_job (listing_text ++ txt " " ++ detail_text))
      then
        let html_text := raw_fetch_job_detail_text rw (calls st) job_url in
        let st := requested (FetchDetailText job_url) st in
        Returned (if nonempty html_text then html_text else detail_text, st)
      else Returned (detail_text, st)
  end.

(** The body of the loop over the postings of a page (lines 407-512) on
    every answer. *)
Definition process_posting_raw (rw : raw_world) (p : posting) (st : state)
  : result state :=
  let w := typed_world rw in
  let title := strip (p_title p) in
  let external_path := p_externalPath p in
  let job_url := build_job_url external_path in
  let location := location_of p in
  let posted_on := p_postedOn p in
  if set_mem job_url (existing_links st) then Returned (skipped st)
  else
    let listing_text := listing_text_of title location (p_bulletFields p) in
    if is_consultant listing_text then Returned (skipped st)
    else
      let normalized_listing := normalize_text listing_text in
      let has_included := nonempty (detect_grades normalized_listing) in
      let has_excluded := is_excluded_grade normalized_listing in
      let has_intern := is_intern_or_fellowship listing_text in
      if has_excluded then Returned (skipped st)
      else if has_included || has_intern then
        Returned (accepted (job_item_of w title job_url location listing_text posted_on st)
                           job_url st)
      else
        match gather_detail_raw rw listing_text external_path job_url st with
        | Raised e => Raised e
        | Returned (detail_text, st) =>
            let combined := listing_text ++ txt " " ++ detail_text in
            if negb (should_include_job combined) then Returned (skipped st)
            else
              Returned (accepted (job_item_of w title job_url location listing_text
                                              posted_on st)
                                 job_url st)
        end.

Fixpoint process_postings_raw (rw : raw_world) (job_postings : list posting)
    (st : state) : result state :=
  match job_postings with
  | [] => Returned st
  | p :: rest =>
      if MAX_INCLUDED_JOBS <=? length (included_jobs st) then Returned st
      else
        match process_posting_raw rw p st with
        | Raised e => Raised e
        | Returned st => process_postings_raw rw rest st
        end
  end.

(** The [while] loop of lines 387-519 on every answer; [fuel] bounds the
    number of iterations ([None] when it runs out). *)
Fixpoint paginate_raw (fuel : nat) (rw : raw_world) (st : state)
  : option (result (state * stop)) :=
  match fuel with
  | 0 => None
  | S fuel' =>
      if (length (included_jobs st) <? MAX_INCLUDED_JOBS)
         && (pages_fetched st <? MAX_PAGES)
      then
        let response := raw_fetch_job_listings rw (calls st) (offset st) in
        let st := requested (FetchListings (offset st)) st in
        match response with
        | RequestException => Some (Returned (st, ListingFetchFailed))
        | Listing job_postings total_available =>
            match job_postings with
            | [] => Some (Returned (st, NoMorePostings))
            | _ :: _ =>
                match process_postings_raw rw job_postings st with
                | Raised e => Some (Raised e)
                | Returned st =>
                    let st := next_page st in
                    if (total_available <=? offset st)%Z
                    then Some (Returned (st, ReachedEnd total_available))
                    else paginate_raw fuel' rw st
                end
            end
        end
      else Some (Returned (st, LoopConditionFalse))
  end.

(** The run on every answer: the items handed to [build_rss_xml], or the
    exception that leaves [scrape_jobs], after which no feed is written. *)
Definition scrape_jobs_raw (rw : raw_world) (doc : feed_document)
  : option (result (list dict)) :=
  let existing_items := load_existing_items doc in
  match paginate_raw (S MAX_PAGES) rw (initial_state doc) with
  | Some (Returned (st, _)) =>
      Some (Returned (merge_items existing_items (included_jobs st)))
  | Some (Raised e) => Some (Raised e)
  | None => None
  end.

(** ** Notions used in the proofs *)

(** Every character, to decide a property of all of them by enumeration. *)
Definition every_char : list ascii := map ascii_of_nat (seq 0 256).

Fixpoint atoms (r : regex) : list atom :=
  match r with
  | Eps | Bnd => []
  | Chr a => [a]
  | Rep a _ _ => [a]
  | Seq r1 r2 | Alt r1 r2 => atoms r1 ++ atoms r2
  | Grp _ r' => atoms r'
  end.

(** The atoms of [r] accept word characters only. *)
Definition word_only (ic : bool) (r : regex) : bool :=
  forallb (fun a => forallb (fun c => implb (accepts ic a c) (is_word c)) every_char)
          (atoms r).

(** The atoms of [r] do not tell a letter from its capital. *)
Definition case_blind (ic : bool) (r : regex) : bool :=
  forallb (fun a => forallb (fun c => Bool.eqb (accepts ic a (to_upper c))
                                               (accepts ic a c)) every_char)
          (atoms r).

(** [r] cannot match the empty text. *)
Fixpoint needs_char (r : regex) : bool :=
  match r with
  | Eps | Bnd => false
  | Chr _ => true
  | Rep _ lo _ => negb (Nat.eqb lo 0)
  | Seq r1 r2 => needs_char r1 || needs_char r2
  | Alt r1 r2 => needs_char r1 && needs_char r2
  | Grp _ r' => needs_char r'
  end.

(** [r] does not look behind the position. *)
Fixpoint no_bnd (r : regex) : bool :=
  match r with
  | Bnd => false
  | Eps | Chr _ | Rep _ _ _ => true
  | Seq r1 r2 | Alt r1 r2 => no_bnd r1 && no_bnd r2
  | Grp _ r' => no_bnd r'
  end.

(** The position [p] with [x] appended to the subject. *)
Definition ext (x : text) (p : mpos) : mpos :=
  MPos (m_wb p) (m_rest p ++ x) (m_caps p).

Definition upper_caps (caps : list (nat * text)) : list (nat * text) :=
  map (fun ng => (fst ng, upper (snd ng))) caps.

(** The position [p] in the subject put in capitals. *)
Definition up (p : mpos) : mpos :=
  MPos (m_wb p) (upper (m_rest p)) (upper_caps (m_caps p)).

(** Whether a word character ends [x], or precedes it when [x] is empty. *)
Definition wb_after (wb : bool) (x : text) : bool :=
  fold_left (fun _ c => is_word c) x wb.

Definition is_letter (c : ascii) : bool := is_upper_letter c || is_lower_letter c.

Definition blank (t : text) : bool := forallb is_space t.

(** The replacement of line 84. *)
Definition grade_repl (m : list (nat * text)) : text :=
  upper (group 1 m) ++ txt "-" ++ group 2 m.

(** The three substitutions of [normalize_text]. *)
Definition fold_dashes (t : text) : text :=
  re_sub false UNICODE_DASH_RE (fun _ => txt "-") t.
Definition expand_grades (t : text) : text :=
  re_sub true GRADE_NORMALIZE_RE grade_repl t.
Definition collapse_ws (t : text) : text :=
  re_sub false WHITESPACE_RE (fun _ => txt " ") t.

(** The longest run of word characters at the start of a text, and the rest. *)
Fixpoint word_span (t : text) : text * text :=
  match t with
  | c :: t' =>
      if is_word c then let (w, r) := word_span t' in (c :: w, r) else ([], t)
  | [] => ([], [])
  end.

Definition nospace (t : text) : bool := forallb (fun c => negb (is_space c)) t.

(** The text does not start with white space. *)
Definition head_nonspace (t : text) : bool :=
  match t with c :: _ => negb (is_space c) | [] => true end.

Definition is_some {A : Type} (o : option A) : bool :=
  match o with Some _ => true | None => false end.


(** The number of listing pages requested. *)
Definition is_listing_call (c : call) : bool :=
  match c with FetchListings _ => true | _ => false end.

Definition listing_calls (cs : list call) : nat := length (filter is_listing_call cs).

(** [st'] is [st] after some requests for details. *)
Definition detail_requests_only (st st' : state) : Prop :=
  included_jobs st' = included_jobs st /\
  existing_links st' = existing_links st /\
  offset st' = offset st /\
  total_processed st' = total_processed st /\
  pages_fetched st' = pages_fetched st /\
  listing_calls (calls st') = listing_calls (calls st).

(** What made the loop stop with [reason] in the state [st]. *)
Definition stop_justified (w : world) (st : state) (reason : stop) : Prop :=
  match reason with
  | LoopConditionFalse =>
      MAX_INCLUDED_JOBS <= length (included_jobs st) \/ MAX_PAGES <= pages_fetched st
  | ListingFetchFailed =>
      exists cs o, calls st = FetchListings o :: cs /\
                   fetch_job_listings w cs o = RequestException
  | NoMorePostings =>
      exists cs o total, calls st = FetchListings o :: cs /\
                         fetch_job_listings w cs o = Listing [] total
  | ReachedEnd total_available => (total_available <= offset st)%Z
  end.

Definition title_of (item : dict) : text := dict_get item (txt "title") [].
Definition link_of (item : dict) : text := dict_get item (txt "link") [].

(** A listing source with a single page, and detail sources with fixed
    answers. *)
Definition one_page_world (page : list posting)
    (detail_json : option job_posting_info) (detail_html : text) : world :=
  World (fun _ o => if (o =? 0)%Z then Listing page (Z.of_nat (length page))
                    else Listing [] (Z.of_nat (length page)))
        (fun _ _ => detail_json)
        (fun _ _ => detail_html)
        (fun url => url)
        (fun _ posted_on => posted_on).

(** A listing source whose first page holds [page], of 40 postings
    reported, and whose later requests raise a transport error. *)
Definition second_page_fails_world (page : list posting) : world :=
  World (fun _ o => if (o =? 0)%Z then Listing page 40 else RequestException)
        (fun _ _ => None)
        (fun _ _ => [])
        (fun url => url)
        (fun _ posted_on => posted_on).

(** The minimum title length of line 529. *)
Definition long_title (item : dict) : bool := 5 <=? length (title_of item).

(** Sample data: a prior feed with one item, and a page with one posting. *)
Definition feed_with (title link : text) : feed_document :=
  [[XmlChild (txt "title") (Some title) [];
    XmlChild (txt "link") (Some link) [];
    XmlChild (txt "guid") (Some link) [(txt "isPermaLink", txt "false")]]].

Definition page_with (title external_path : text) : list posting :=
  [Posting title external_path (txt "Geneva") [] []].

(** Every white-space character is a space, and none follows it. *)
Fixpoint single_spaced (t : text) : bool :=
  match t with
  | [] => true
  | c :: t' =>
      (if is_space c then Ascii.eqb c " " && head_nonspace t' else true)
      && single_spaced t'
  end.

(** The characters of the class [XML_ILLEGAL_RE], by their codes. *)
Definition xml_illegal (c : ascii) : bool :=
  in_range 0 8 c || (code c =? 11)%N || (code c =? 12)%N || in_range 14 31 c
  || in_range 127 132 c || in_range 134 159 c.

(** The number that a text of decimal digits writes. *)
Definition digits_value (t : text) : N :=
  fold_left (fun v c => (10 * v + (code c - 48))%N) t 0%N.

(** The requests for the first [n] listing pages, the latest first. *)
Definition page_requests (n : nat) : list call :=
  rev (map (fun k => FetchListings (PAGE_SIZE * Z.of_nat k)) (seq 0 n)).

(** [seen0] are seen links, the accepted links are seen links apart from
    those of [seen0], and no accepted link repeats. *)
Definition fresh_links (seen0 : list text) (st : state) : Prop :=
  NoDup (map link_of (included_jobs st))
  /\ (forall l, In l (map link_of (included_jobs st)) ->
                ~ In l seen0 /\ In l (existing_links st))
  /\ (forall l, In l seen0 -> In l (existing_links st)).

(** How many listing requests were made when the loop is left. *)
Definition pages_requested (st : state) (reason : stop) : nat :=
  match reason with
  | ListingFetchFailed | NoMorePostings => S (pages_fetched st)
  | LoopConditionFalse | ReachedEnd _ => pages_fetched st
  end.

(** At how many positions of [t] the text [p] starts. *)
Fixpoint occurrences (p t : text) : nat :=
  (if starts_with p t then 1 else 0)
  + match t with [] => 0 | _ :: t' => occurrences p t' end.

(** The excluded-grade patterns without [\bNOA\b], [\bNOB\b], [\bNOC\b] and
    [\bNOD\b]. *)
Definition EXCLUDED_GRADE_CLASSES : list regex :=
  [ seq_re [Bnd; str "G-"; Chr (Range "1" "7"); Bnd];
    seq_re [Bnd; str "NO"; Chr (Range "A" "D"); Bnd];
    seq_re [Bnd; str "SB-"; Chr (Range "1" "4"); Bnd];
    seq_re [Bnd; str "LSC-"; Rep Digit 1 (Some 2); Bnd] ].



(** A source with one listing page and fixed answers of any kind. *)
Definition one_page_raw_world (page : list posting) (detail_json : detail_answer)
    (detail_html : text) : raw_world :=
  RawWorld (fun _ o => if (o =? 0)%Z then Listing page (Z.of_nat (length page))
                       else Listing [] (Z.of_nat (length page)))
           (fun _ _ => detail_json)
           (fun _ _ => detail_html)
           (fun url => url)
           (fun _ posted_on => posted_on).

(** * Proofs *)

(** ** Characters *)

Ltac each_char c := destruct c as [[] [] [] [] [] [] [] []].
Ltac by_chars c := each_char c; intros; vm_compute in *; congruence.

Lemma every_char_complete (c : ascii) : In c every_char.
Proof.
  assert (H : existsb (Ascii.eqb c) every_char = true)
    by (each_char c; reflexivity).
  apply existsb_exists in H. destruct H as (x & Hx & E).
  apply Ascii.eqb_eq in E. now subst x.
Qed.

Lemma space_not_word c : is_space c = true -> is_word c = false.
Proof. by_chars c. Qed.

Lemma digit_is_word c : is_digit c = true -> is_word c = true.
Proof. by_chars c. Qed.

Lemma letter_is_word c : is_letter c = true -> is_word c = true.
Proof. by_chars c. Qed.

Lemma letter_not_digit c : is_letter c = true -> is_digit c = false.
Proof. by_chars c. Qed.

Lemma word_to_upper c : is_word (to_upper c) = is_word c.
Proof. by_chars c. Qed.

Lemma space_to_upper c : is_space (to_upper c) = is_space c.
Proof. by_chars c. Qed.

Lemma to_upper_space c : is_space c = true -> to_upper c = c.
Proof. by_chars c. Qed.

Lemma to_upper_digit c : is_digit c = true -> to_upper c = c.
Proof. by_chars c. Qed.

Lemma to_upper_idem c : to_upper (to_upper c) = to_upper c.
Proof. by_chars c. Qed.

Lemma letter_to_upper c : is_letter (to_upper c) = is_letter c.
Proof. by_chars c. Qed.

Lemma lower_eq_letter c l :
  Ascii.eqb (to_lower c) (to_lower l) = true -> is_letter l = true -> is_letter c = true.
Proof.
  intros H Hl. apply Ascii.eqb_eq in H.
  assert (Hc : is_letter (to_lower c) = true)
    by (rewrite H; revert Hl; clear; by_chars l).
  revert Hc; clear; by_chars c.
Qed.

(** ** Lists of characters *)

Lemma upper_app a b : upper (a ++ b) = upper a ++ upper b.
Proof. apply map_app. Qed.

Lemma upper_idem t : upper (upper t) = upper t.
Proof.
  unfold upper. rewrite map_map. apply map_ext. intro; apply to_upper_idem.
Qed.

Lemma upper_length t : length (upper t) = length t.
Proof. apply length_map. Qed.

Lemma word_after_upper t : word_after (upper t) = word_after t.
Proof. destruct t; simpl; [reflexivity | apply word_to_upper]. Qed.

Lemma wb_after_app wb x y : wb_after wb (x ++ y) = wb_after (wb_after wb x) y.
Proof. apply fold_left_app. Qed.

Lemma wb_after_last wb x c : wb_after wb (x ++ [c]) = is_word c.
Proof. rewrite wb_after_app. reflexivity. Qed.

Lemma wb_after_words wb x :
  x <> [] -> forallb is_word x = true -> wb_after wb x = true.
Proof.
  destruct x as [|c x] using rev_ind; [congruence|].
  intros _ H. rewrite wb_after_last.
  rewrite forallb_app in H. simpl in H.
  apply andb_true_iff in H. destruct H as [_ H].
  apply andb_true_iff in H. tauto.
Qed.

(** ** The matcher *)

Lemma hd_error_map {A B} (f : A -> B) l :
  hd_error (map f l) = option_map f (hd_error l).
Proof. destruct l; reflexivity. Qed.

Lemma hd_error_In {A} (l : list A) x : hd_error l = Some x -> In x l.
Proof. destruct l; simpl; [discriminate | intros [= ->]; auto]. Qed.

(** What is left after a match is the end of the subject. *)
Lemma rep_suffix ic a t : forall lo hi wb caps q,
  In q (rep ic a lo hi wb t caps) ->
  exists x, t = x ++ m_rest q /\ forallb (accepts ic a) x = true
            /\ lo <= length x /\ m_caps q = caps /\ m_wb q = wb_after wb x.
Proof.
  induction t as [|c t IH]; intros lo hi wb caps q H; simpl in H.
  - destruct lo; simpl in H; [|contradiction].
    destruct H as [<-|[]]. exists []. simpl. repeat split; auto.
  - assert (Hhere : In q (if Nat.eqb lo 0 then [MPos wb (c :: t) caps] else []) ->
                    exists x, c :: t = x ++ m_rest q /\ forallb (accepts ic a) x = true
                              /\ lo <= length x /\ m_caps q = caps
                              /\ m_wb q = wb_after wb x).
    { destruct lo; simpl; [|contradiction].
      intros [<-|[]]. exists []. simpl. repeat split; auto. }
    destruct (accepts ic a c && bounded hi) eqn:E; [|auto].
    apply in_app_or in H. destruct H as [H|H]; [|auto].
    apply IH in H. destruct H as (x & Hx & Hall & Hlo & Hc & Hw).
    apply andb_true_iff in E. destruct E as [E _].
    exists (c :: x). simpl. rewrite E, Hall. repeat split; auto.
    + now rewrite Hx.
    + lia.
Qed.

Lemma run_suffix ic r : forall p q,
  In q (run ic r p) -> exists x, m_rest p = x ++ m_rest q.
Proof.
  induction r; intros p q H; simpl in H.
  - destruct H as [<-|[]]. now exists [].
  - destruct (at_boundary p); [|contradiction].
    destruct H as [<-|[]]. now exists [].
  - destruct (m_rest p) as [|c t] eqn:E; [contradiction|].
    destruct (accepts ic a c); [|contradiction].
    destruct H as [<-|[]]. now exists [c].
  - apply rep_suffix in H. destruct H as (x & Hx & _). now exists x.
  - apply in_flat_map in H. destruct H as (m & Hm & Hq).
    apply IHr1 in Hm. apply IHr2 in Hq.
    destruct Hm as (x & ->), Hq as (y & ->). exists (x ++ y). now rewrite app_assoc.
  - apply in_app_or in H. destruct H as [H|H]; eauto.
  - apply in_map_iff in H. destruct H as (m & <- & Hm).
    apply IHr in Hm. exact Hm.
Qed.

Lemma match_at_suffix ic r wb t q :
  match_at ic r wb t = Some q -> exists x, t = x ++ m_rest q.
Proof.
  intro H. apply hd_error_In in H. apply run_suffix in H. exact H.
Qed.

(** A pattern that needs a character finds nothing at the end of the text. *)
Lemma run_at_end ic r : forall wb caps,
  needs_char r = true -> run ic r (MPos wb [] caps) = [].
Proof.
  induction r; intros wb caps H; simpl in *; try discriminate; auto.
  - destruct lo; simpl in *; [discriminate | reflexivity].
  - apply orb_true_iff in H. destruct H as [H|H].
    + now rewrite IHr1.
    + destruct (run ic r1 (MPos wb [] caps)) as [|m l] eqn:E; [reflexivity|].
      assert (Hall : forall q, In q (m :: l) -> run ic r2 q = []).
      { intros q Hq. rewrite <- E in Hq. apply run_suffix in Hq.
        destruct Hq as (x & Hx). simpl in Hx.
        symmetry in Hx. apply app_eq_nil in Hx. destruct Hx as [_ Hx].
        destruct q as [wb' rest caps']. simpl in Hx. subst rest. now apply IHr2. }
      clear E. induction (m :: l) as [|m' l' IHl]; [reflexivity|].
      simpl. rewrite Hall by (left; reflexivity). simpl.
      apply IHl. intros q Hq. apply Hall. now right.
  - apply andb_true_iff in H. destruct H as [H1 H2].
    now rewrite IHr1, IHr2.
  - rewrite IHr by assumption. reflexivity.
Qed.

Lemma word_only_atom ic r a c :
  word_only ic r = true -> In a (atoms r) -> accepts ic a c = true -> is_word c = true.
Proof.
  unfold word_only. intros H Ha Hc.
  rewrite forallb_forall in H. specialize (H a Ha).
  rewrite forallb_forall in H. specialize (H c (every_char_complete c)).
  rewrite Hc in H. exact H.
Qed.

Lemma word_after_ext t x :
  word_after x = false -> word_after (t ++ x) = word_after t.
Proof. destruct t; simpl; auto. Qed.

(** Text behind the subject that does not start with a word character is
    not seen by a pattern whose atoms accept word characters only. *)
Lemma rep_ext ic a x t : forall lo hi wb caps,
  (forall c, accepts ic a c = true -> is_word c = true) ->
  word_after x = false ->
  rep ic a lo hi wb (t ++ x) caps = map (ext x) (rep ic a lo hi wb t caps).
Proof.
  intros lo hi wb caps Ha Hx. revert lo hi wb.
  induction t as [|c t IH]; intros lo hi wb; simpl.
  - destruct x as [|c x]; simpl.
    + destruct lo; reflexivity.
    + simpl in Hx. destruct (accepts ic a c) eqn:E.
      * apply Ha in E. congruence.
      * simpl. destruct lo; reflexivity.
  - destruct (accepts ic a c && bounded hi).
    + rewrite IH, map_app. destruct lo; reflexivity.
    + destruct lo; reflexivity.
Qed.

Lemma run_ext ic r x : forall p,
  word_only ic r = true -> word_after x = false ->
  run ic r (ext x p) = map (ext x) (run ic r p).
Proof.
  intros p Hr Hx. revert p.
  assert (Hat : forall a c, In a (atoms r) -> accepts ic a c = true -> is_word c = true)
    by (intros a c; apply word_only_atom; assumption).
  clear Hr.
  induction r; intros p; simpl.
  - reflexivity.
  - unfold at_boundary. simpl. rewrite word_after_ext by assumption.
    destruct (xorb _ _); reflexivity.
  - destruct (m_rest p) as [|c t] eqn:E; simpl.
    + destruct x as [|c x]; [reflexivity|]. simpl in Hx.
      destruct (accepts ic a c) eqn:Ea; [|reflexivity].
      apply Hat in Ea; [congruence | simpl; auto].
    + destruct (accepts ic a c); reflexivity.
  - apply rep_ext; [|assumption]. intros c. apply Hat. simpl; auto.
  - rewrite IHr1 by (intros; eapply Hat; [simpl; apply in_or_app; left|]; eassumption).
    induction (run ic r1 p) as [|m l IHl]; [reflexivity|].
    simpl. rewrite map_app, IHl. f_equal.
    apply IHr2. intros; eapply Hat; [simpl; apply in_or_app; right|]; eassumption.
  - rewrite map_app. f_equal.
    + apply IHr1. intros; eapply Hat; [simpl; apply in_or_app; left|]; eassumption.
    + apply IHr2. intros; eapply Hat; [simpl; apply in_or_app; right|]; eassumption.
  - rewrite IHr by (intros; eapply Hat; eassumption).
    rewrite !map_map. apply map_ext. intros q.
    unfold capture, ext, consumed. simpl. f_equal.
    rewrite !length_app.
    replace (length (m_rest p) + length x - (length (m_rest q) + length x))
      with (length (m_rest p) - length (m_rest q)) by lia.
    rewrite firstn_app.
    replace (length (m_rest p) - length (m_rest q) - length (m_rest p)) with 0 by lia.
    simpl. now rewrite app_nil_r.
Qed.

Lemma match_at_ext ic r wb t x :
  word_only ic r = true -> word_after x = false ->
  match_at ic r wb (t ++ x) = option_map (ext x) (match_at ic r wb t).
Proof.
  intros Hr Hx. unfold match_at.
  change (MPos wb (t ++ x) []) with (ext x (MPos wb t [])).
  rewrite run_ext by assumption. apply hd_error_map.
Qed.

(** ** Substitution *)

Section Sub.
Variables (ic : bool) (r : regex) (repl : list (nat * text) -> text).

Lemma sub_skip x : forall wb t,
  sub_from ic r repl (length x) wb (x ++ t) = sub_from ic r repl 0 (wb_after wb x) t.
Proof.
  induction x as [|c x IH]; intros wb t; [reflexivity|].
  simpl. apply IH.
Qed.

Lemma sub_from_cons wb c t :
  sub_from ic r repl 0 wb (c :: t) =
  match match_at ic r wb (c :: t) with
  | Some q =>
      repl (m_caps q) ++
      match length (c :: t) - length (m_rest q) with
      | S k => sub_from ic r repl k (is_word c) t
      | 0 => c :: sub_from ic r repl 0 (is_word c) t
      end
  | None => c :: sub_from ic r repl 0 (is_word c) t
  end.
Proof. reflexivity. Qed.

Lemma sub_match wb x t q :
  x <> [] -> match_at ic r wb (x ++ t) = Some q -> m_rest q = t ->
  sub_from ic r repl 0 wb (x ++ t) = repl (m_caps q) ++ sub_from ic r repl 0 (wb_after wb x) t.
Proof.
  intros Hx Hm Hq. destruct x as [|c x]; [congruence|].
  rewrite <- app_comm_cons in *. rewrite sub_from_cons, Hm, Hq. f_equal.
  replace (length (c :: x ++ t) - length t) with (S (length x))
    by (change (length (c :: x ++ t)) with (S (length (x ++ t)));
        rewrite length_app; lia).
  exact (sub_skip x (is_word c) t).
Qed.

Lemma sub_nomatch wb c t :
  match_at ic r wb (c :: t) = None ->
  sub_from ic r repl 0 wb (c :: t) = c :: sub_from ic r repl 0 (is_word c) t.
Proof. intro H. rewrite sub_from_cons. now rewrite H. Qed.

Lemma sub_nil wb :
  match_at ic r wb [] = None -> sub_from ic r repl 0 wb [] = [].
Proof. intro H. simpl. now rewrite H. Qed.
End Sub.

(** ** Capitals *)

Lemma case_blind_atom ic r a c :
  case_blind ic r = true -> In a (atoms r) ->
  accepts ic a (to_upper c) = accepts ic a c.
Proof.
  unfold case_blind. intros H Ha.
  rewrite forallb_forall in H. specialize (H a Ha).
  rewrite forallb_forall in H. specialize (H c (every_char_complete c)).
  now apply Bool.eqb_prop in H.
Qed.

Lemma rep_up ic a t : forall lo hi wb caps,
  (forall c, accepts ic a (to_upper c) = accepts ic a c) ->
  rep ic a lo hi wb (upper t) (upper_caps caps)
  = map up (rep ic a lo hi wb t caps).
Proof.
  intros lo hi wb caps Ha. revert lo hi wb.
  induction t as [|c t IH]; intros lo hi wb; simpl.
  - destruct lo; reflexivity.
  - rewrite Ha, word_to_upper. destruct (accepts ic a c && bounded hi).
    + rewrite IH, map_app. destruct lo; reflexivity.
    + destruct lo; reflexivity.
Qed.

Lemma run_up ic r : forall p,
  case_blind ic r = true -> run ic r (up p) = map up (run ic r p).
Proof.
  intros p Hr. revert p.
  assert (Hat : forall a c, In a (atoms r) -> accepts ic a (to_upper c) = accepts ic a c)
    by (intros a c; apply case_blind_atom; assumption).
  clear Hr.
  induction r; intros p; simpl.
  - reflexivity.
  - unfold at_boundary. simpl. rewrite word_after_upper.
    destruct (xorb _ _); reflexivity.
  - destruct (m_rest p) as [|c t] eqn:E; simpl; [reflexivity|].
    rewrite Hat by (simpl; auto).
    destruct (accepts ic a c); [|reflexivity].
    simpl. unfold up. simpl. now rewrite word_to_upper.
  - apply rep_up. intros c. apply Hat. simpl; auto.
  - rewrite IHr1 by (intros; apply Hat; simpl; apply in_or_app; now left).
    induction (run ic r1 p) as [|m l IHl]; [reflexivity|].
    simpl. rewrite map_app, IHl. f_equal.
    apply IHr2. intros; apply Hat; simpl; apply in_or_app; now right.
  - rewrite map_app. f_equal.
    + apply IHr1. intros; apply Hat; simpl; apply in_or_app; now left.
    + apply IHr2. intros; apply Hat; simpl; apply in_or_app; now right.
  - rewrite IHr by (intros; apply Hat; assumption).
    rewrite !map_map. apply map_ext. intros q.
    unfold capture, up, consumed, upper_caps. simpl. f_equal. f_equal. f_equal.
    rewrite !upper_length. unfold upper. now rewrite firstn_map.
Qed.

Lemma match_at_up ic r wb t :
  case_blind ic r = true ->
  match_at ic r wb (upper t) = option_map up (match_at ic r wb t).
Proof.
  intros Hr. unfold match_at.
  change (MPos wb (upper t) []) with (up (MPos wb t [])).
  rewrite run_up by assumption. apply hd_error_map.
Qed.

Lemma sub_up ic r repl t : forall k wb,
  case_blind ic r = true ->
  (forall caps, repl (upper_caps caps) = upper (repl caps)) ->
  sub_from ic r repl k wb (upper t) = upper (sub_from ic r repl k wb t).
Proof.
  intros k wb Hr Hrepl. revert k wb.
  induction t as [|c t IH]; intros k wb.
  - destruct k; simpl; [|reflexivity].
    change (@nil ascii) with (upper []) at 1.
    rewrite match_at_up by assumption.
    destruct (match_at ic r wb []) as [q|]; simpl; [|reflexivity].
    rewrite Hrepl, upper_app. reflexivity.
  - destruct k as [|k].
    + change (upper (c :: t)) with (to_upper c :: upper t) at 1.
      rewrite !sub_from_cons.
      change (to_upper c :: upper t) with (upper (c :: t)).
      rewrite match_at_up by assumption. rewrite word_to_upper.
      destruct (match_at ic r wb (c :: t)) as [q|]; simpl option_map; cbv iota.
      * simpl m_caps. simpl m_rest. rewrite Hrepl, upper_app, !upper_length.
        f_equal. destruct (length (c :: t) - length (m_rest q)).
        -- simpl. now rewrite IH.
        -- apply IH.
      * simpl. now rewrite IH.
    + simpl. rewrite word_to_upper. apply IH.
Qed.

(** ** The compact-grade pattern *)

Lemma grade_word_only : word_only true GRADE_NORMALIZE_RE = true.
Proof. vm_compute. reflexivity. Qed.

Lemma grade_case_blind : case_blind true GRADE_NORMALIZE_RE = true.
Proof. vm_compute. reflexivity. Qed.

Lemma grade_needs_char : needs_char GRADE_NORMALIZE_RE = true.
Proof. reflexivity. Qed.

(** A pattern of word characters that needs one finds nothing where no word
    character follows. *)
Lemma match_at_nonword ic r wb t :
  word_only ic r = true -> needs_char r = true -> word_after t = false ->
  match_at ic r wb t = None.
Proof.
  intros Hw Hn Ht.
  change t with ([] ++ t). rewrite match_at_ext by assumption.
  unfold match_at. now rewrite run_at_end.
Qed.

Lemma grade_nonword wb t :
  word_after t = false -> match_at true GRADE_NORMALIZE_RE wb t = None.
Proof.
  apply match_at_nonword; [apply grade_word_only | reflexivity].
Qed.

(** No compact grade starts inside a word. *)
Lemma grade_mid_word t : match_at true GRADE_NORMALIZE_RE true t = None.
Proof.
  destruct (word_after t) eqn:E; [|now apply grade_nonword].
  unfold match_at, GRADE_NORMALIZE_RE. simpl seq_re.
  cbn [run]. unfold at_boundary. simpl m_wb. simpl m_rest. rewrite E. reflexivity.
Qed.

Lemma str_re_match ic s : forall p q,
  s <> [] -> forallb is_letter s = true -> ic = true ->
  In q (run ic (str_re s) p) ->
  exists x, m_rest p = x ++ m_rest q /\ x <> [] /\ forallb is_letter x = true
            /\ m_caps q = m_caps p /\ length x = length s.
Proof.
  induction s as [|l s IH]; intros p q Hs Hl Hic H; [congruence|].
  simpl in Hl. apply andb_true_iff in Hl. destruct Hl as [Hl Hls].
  assert (Hone : forall p q, In q (run ic (Chr (Lit l)) p) ->
            exists c, m_rest p = c :: m_rest q /\ is_letter c = true
                      /\ m_caps q = m_caps p).
  { clear - Hl Hic. intros p q H. cbn [run] in H.
    destruct (m_rest p) as [|c t]; [contradiction|].
    destruct (accepts ic (Lit l) c) eqn:E; [|contradiction].
    destruct H as [<-|[]]. exists c. simpl. repeat split; auto.
    subst ic. simpl in E. eapply lower_eq_letter; eassumption. }
  destruct s as [|l' s].
  - apply Hone in H. destruct H as (c & Hc & Hlc & Hcaps).
    exists [c]. simpl. rewrite Hlc. repeat split; auto. congruence.
  - change (str_re (l :: l' :: s)) with (Seq (Chr (Lit l)) (str_re (l' :: s))) in H.
    simpl run in H. apply in_flat_map in H. destruct H as (m & Hm & Hq).
    apply Hone in Hm. destruct Hm as (c & Hc & Hlc & Hcaps).
    apply IH in Hq; [|congruence|assumption|assumption].
    destruct Hq as (x & Hx & _ & Hlx & Hcx & Hlen).
    exists (c :: x). simpl. rewrite Hlc, Hlx, Hc, Hx. repeat split; auto.
    + congruence.
    + congruence.
Qed.

Lemma forallb_digit_word ds : forallb is_digit ds = true -> forallb is_word ds = true.
Proof.
  intro H. rewrite forallb_forall in *. intros c Hc. apply digit_is_word. auto.
Qed.

Lemma firstn_drop_suffix (x r : text) :
  firstn (length (x ++ r) - length r) (x ++ r) = x.
Proof.
  rewrite length_app.
  replace (length x + length r - length r) with (length x) by lia.
  rewrite firstn_app, firstn_all, Nat.sub_diag. simpl. apply app_nil_r.
Qed.

(** The shape of a compact grade: letters, then digits, then no word
    character. *)
Lemma grade_match_shape wb t q :
  match_at true GRADE_NORMALIZE_RE wb t = Some q ->
  exists cat ds,
    t = cat ++ ds ++ m_rest q /\
    cat <> [] /\ forallb is_letter cat = true /\
    ds <> [] /\ forallb is_digit ds = true /\
    word_after (m_rest q) = false /\
    m_caps q = [(2, ds); (1, cat)].
Proof.
  intro H. apply hd_error_In in H.
  unfold GRADE_NORMALIZE_RE in H. simpl seq_re in H.
  cbn [run] in H.
  apply in_flat_map in H. destruct H as (p1 & Hp1 & H).
  destruct (at_boundary (MPos wb t [])); [|contradiction].
  destruct Hp1 as [<-|[]].
  apply in_flat_map in H. destruct H as (p2 & Hp2 & H).
  apply in_map_iff in Hp2. destruct Hp2 as (p2' & <- & Hp2).
  apply in_flat_map in H. destruct H as (p3 & Hp3 & H).
  apply in_map_iff in Hp3. destruct Hp3 as (p3' & <- & Hp3).
  destruct (at_boundary _) eqn:Hb in H; [|contradiction].
  destruct H as [<-|[]].
  assert (Hcat : exists x, t = x ++ m_rest p2' /\ x <> [] /\ forallb is_letter x = true
                           /\ m_caps p2' = []).
  { clear - Hp2. simpl alt_re in Hp2. cbn [run] in Hp2.
    repeat (apply in_app_or in Hp2; destruct Hp2 as [Hp2|Hp2]);
      (apply str_re_match in Hp2;
       [ destruct Hp2 as (x & Hx & Hne & Hl & Hc & _); exists x; simpl in *; auto
       | discriminate | reflexivity | reflexivity ]). }
  destruct Hcat as (cat & Ht & Hcne & Hcl & Hcc).
  apply rep_suffix in Hp3. simpl in Hp3.
  destruct Hp3 as (ds & Hds & Hdl & Hlen & Hdc & Hwb).
  exists cat, ds.
  assert (Hdne : ds <> []) by (destruct ds; simpl in Hlen; [lia | congruence]).
  unfold at_boundary in Hb. simpl in Hb.
  rewrite Hwb in Hb. rewrite wb_after_words in Hb
    by (auto using forallb_digit_word).
  simpl. repeat split; auto.
  - now rewrite <- Hds.
  - now destruct (word_after (m_rest p3')).
  - unfold consumed. simpl. rewrite Hdc. simpl. rewrite Hcc.
    unfold consumed. simpl.
    rewrite Ht at 2. rewrite Ht at 1. rewrite firstn_drop_suffix.
    rewrite Hds, firstn_drop_suffix. reflexivity.
Qed.

(** ** Expanding compact grades, word by word *)

Local Abbreviation sub_grade := (sub_from true GRADE_NORMALIZE_RE grade_repl).

Lemma sub_grade_wb wb t :
  word_after t = false -> sub_grade 0 wb t = sub_grade 0 false t.
Proof.
  intro H. destruct t as [|c t].
  - rewrite !sub_nil by (now apply grade_nonword). reflexivity.
  - rewrite !sub_nomatch by (now apply grade_nonword). reflexivity.
Qed.

Lemma sub_grade_copy w r :
  forallb is_word w = true ->
  sub_grade 0 true (w ++ r) = w ++ sub_grade 0 true r.
Proof.
  induction w as [|c w IH]; intro H; [reflexivity|].
  simpl in H. apply andb_true_iff in H. destruct H as [Hc Hw].
  rewrite <- app_comm_cons, sub_nomatch by apply grade_mid_word.
  rewrite Hc, IH by assumption. reflexivity.
Qed.

Lemma sub_grade_copy_all w :
  forallb is_word w = true -> sub_grade 0 true w = w.
Proof.
  intro H. rewrite <- (app_nil_r w) at 1. rewrite sub_grade_copy by assumption.
  rewrite sub_nil by apply grade_mid_word. apply app_nil_r.
Qed.

Lemma word_suffix_nil (w x y : text) :
  forallb is_word w = true -> w = x ++ y -> word_after y = false -> y = [].
Proof.
  intros Hw -> Hy. rewrite forallb_app in Hw.
  apply andb_true_iff in Hw. destruct Hw as [_ Hw].
  destruct y as [|c y]; [reflexivity|]. simpl in *.
  apply andb_true_iff in Hw. destruct Hw. congruence.
Qed.


Lemma expand_grades_nonword c t :
  is_word c = false -> expand_grades (c :: t) = c :: expand_grades t.
Proof.
  intro H. unfold expand_grades, re_sub.
  rewrite sub_nomatch by (apply grade_nonword; assumption).
  now rewrite H.
Qed.

(** A word is rewritten on its own. *)
Lemma expand_grades_word_app w r :
  w <> [] -> forallb is_word w = true -> word_after r = false ->
  expand_grades (w ++ r) = expand_grades w ++ expand_grades r.
Proof.
  intros Hne Hw Hr. unfold expand_grades, re_sub.
  destruct (match_at true GRADE_NORMALIZE_RE false w) as [q|] eqn:E.
  - assert (Hq : m_rest q = []).
    { destruct (grade_match_shape _ _ _ E) as (cat & ds & Ht & _ & _ & _ & _ & Hwa & _).
      rewrite app_assoc in Ht. eapply word_suffix_nil; eassumption. }
    assert (E' : match_at true GRADE_NORMALIZE_RE false (w ++ r) = Some (ext r q))
      by (rewrite match_at_ext, E; auto using grade_word_only).
    rewrite (sub_match _ _ _ false w r (ext r q)); auto;
      [|unfold ext; simpl; now rewrite Hq].
    rewrite <- (app_nil_r w) at 2.
    rewrite (sub_match _ _ _ false w [] q); auto;
      [|rewrite app_nil_r; assumption].
    rewrite sub_nil by (now apply grade_nonword).
    rewrite app_nil_r. simpl m_caps. f_equal. now apply sub_grade_wb.
  - assert (E' : match_at true GRADE_NORMALIZE_RE false (w ++ r) = None)
      by (rewrite match_at_ext, E; auto using grade_word_only).
    destruct w as [|c w]; [congruence|].
    simpl in Hw. apply andb_true_iff in Hw. destruct Hw as [Hc Hw].
    rewrite <- app_comm_cons in *.
    rewrite !sub_nomatch by assumption. rewrite Hc.
    rewrite sub_grade_copy, (sub_grade_copy_all w) by assumption.
    simpl. do 2 f_equal. now apply sub_grade_wb.
Qed.

(** What becomes of a word: nothing, or letters, a hyphen and digits. *)
Lemma expand_grades_word w :
  forallb is_word w = true ->
  expand_grades w = w \/
  exists cat ds, w = cat ++ ds /\
    cat <> [] /\ forallb is_letter cat = true /\
    ds <> [] /\ forallb is_digit ds = true /\
    expand_grades w = upper cat ++ txt "-" ++ ds.
Proof.
  intros Hw. unfold expand_grades, re_sub.
  destruct (match_at true GRADE_NORMALIZE_RE false w) as [q|] eqn:E.
  - right.
    destruct (grade_match_shape _ _ _ E)
      as (cat & ds & Ht & Hc & Hcl & Hd & Hdl & Hwa & Hcaps).
    assert (Hq : m_rest q = [])
      by (rewrite app_assoc in Ht; eapply word_suffix_nil; eassumption).
    rewrite Hq, app_nil_r in Ht.
    exists cat, ds. repeat split; auto.
    assert (Hne : w <> []) by (subst w; destruct cat; [congruence | discriminate]).
    rewrite <- (app_nil_r w).
    rewrite (sub_match _ _ _ false w [] q); auto;
      [|rewrite app_nil_r; assumption].
    rewrite sub_nil by (now apply grade_nonword).
    rewrite app_nil_r, Hcaps. reflexivity.
  - left. destruct w as [|c w]; [reflexivity|].
    simpl in Hw. apply andb_true_iff in Hw. destruct Hw as [Hc Hw].
    rewrite sub_nomatch by assumption. rewrite Hc.
    now rewrite sub_grade_copy_all.
Qed.

(** ** Texts as words and separators *)

Lemma word_span_spec t :
  let (w, r) := word_span t in
  t = w ++ r /\ forallb is_word w = true /\ word_after r = false.
Proof.
  induction t as [|c t IH]; simpl; [auto|].
  destruct (is_word c) eqn:E.
  - destruct (word_span t) as [w r]. destruct IH as (-> & Hw & Hr).
    simpl. rewrite E. auto.
  - simpl. auto.
Qed.

Lemma text_words_ind (P : text -> Prop) :
  P [] ->
  (forall c t, is_word c = false ->
     (forall u, length u <= length t -> P u) -> P (c :: t)) ->
  (forall w r, w <> [] -> forallb is_word w = true -> word_after r = false ->
     (forall u, length u <= length r -> P u) -> P (w ++ r)) ->
  forall t, P t.
Proof.
  intros Hnil Hsep Hword t.
  remember (length t) as n eqn:Hn.
  revert t Hn. induction n as [n IH] using lt_wf_ind. intros t Hn.
  destruct t as [|c t]; [exact Hnil|].
  destruct (is_word c) eqn:E.
  - pose proof (word_span_spec (c :: t)) as H.
    destruct (word_span (c :: t)) as [w r] eqn:Hs.
    destruct H as (Ht & Hw & Hr).
    assert (Hne : w <> []).
    { simpl in Hs. rewrite E in Hs. destruct (word_span t). now inversion Hs. }
    rewrite Ht. apply Hword; auto.
    intros u Hu. apply (IH (length u)); auto.
    rewrite Hn, Ht, length_app. destruct w; [congruence | simpl; lia].
  - apply Hsep; auto.
    intros u Hu. apply (IH (length u)); auto. simpl in Hn. lia.
Qed.

Lemma word_after_expand t :
  word_after t = false -> word_after (expand_grades t) = false.
Proof.
  destruct t as [|c t]; [reflexivity|]. simpl. intro H.
  now rewrite expand_grades_nonword.
Qed.

Lemma letters_not_grade cat :
  forallb is_letter cat = true -> expand_grades cat = cat.
Proof.
  intro H.
  destruct (expand_grades_word cat) as [E|(c & ds & Hw & _ & _ & Hd & Hdl & _)]; auto.
  - rewrite forallb_forall in *. auto using letter_is_word.
  - exfalso. subst cat. rewrite forallb_app in H.
    apply andb_true_iff in H. destruct H as [_ H].
    destruct ds as [|d ds]; [congruence|]. simpl in *.
    apply andb_true_iff in H, Hdl. destruct H as [H _], Hdl as [Hdl _].
    apply letter_not_digit in H. congruence.
Qed.

Lemma digits_not_grade ds :
  forallb is_digit ds = true -> expand_grades ds = ds.
Proof.
  intro H.
  destruct (expand_grades_word ds) as [E|(c & d & Hw & Hc & Hcl & _)]; auto.
  - now apply forallb_digit_word.
  - exfalso. subst ds. rewrite forallb_app in H.
    apply andb_true_iff in H. destruct H as [H _].
    destruct c as [|x c]; [congruence|]. simpl in *.
    apply andb_true_iff in H, Hcl. destruct H as [H _], Hcl as [Hcl _].
    apply letter_not_digit in Hcl. congruence.
Qed.

Lemma upper_letters cat : forallb is_letter cat = true -> forallb is_letter (upper cat) = true.
Proof.
  intro H. unfold upper. rewrite forallb_forall in *. intros c Hc.
  apply in_map_iff in Hc. destruct Hc as (x & <- & Hx).
  rewrite letter_to_upper. auto.
Qed.

Lemma expand_grades_idem t : expand_grades (expand_grades t) = expand_grades t.
Proof.
  induction t as [|c t Hc IH|w r Hne Hw Hr IH] using text_words_ind.
  - reflexivity.
  - rewrite expand_grades_nonword by assumption.
    rewrite expand_grades_nonword by assumption.
    f_equal. apply IH. lia.
  - rewrite expand_grades_word_app by assumption.
    pose proof (word_after_expand r Hr) as Hr'.
    assert (IHr : expand_grades (expand_grades r) = expand_grades r) by (apply IH; lia).
    destruct (expand_grades_word w Hw)
      as [E|(cat & ds & Hwe & Hc & Hcl & Hd & Hdl & E)].
    + rewrite E. rewrite expand_grades_word_app by assumption.
      now rewrite E, IHr.
    + rewrite E. rewrite <- !app_assoc.
      rewrite expand_grades_word_app;
        [| destruct cat; [congruence | discriminate]
         | pose proof (upper_letters cat Hcl) as H; rewrite forallb_forall in *;
           auto using letter_is_word
         | reflexivity ].
      rewrite letters_not_grade by (now apply upper_letters).
      f_equal. change (txt "-" ++ ds ++ expand_grades r)
        with ("-"%char :: (ds ++ expand_grades r)).
      rewrite expand_grades_nonword by reflexivity.
      f_equal. rewrite expand_grades_word_app; auto using forallb_digit_word.
      now rewrite digits_not_grade, IHr.
Qed.

(** ** Stripping *)

Lemma text_len_ind (P : text -> Prop) :
  (forall t, (forall u, length u < length t -> P u) -> P t) -> forall t, P t.
Proof.
  intros H t. remember (length t) as n eqn:Hn. revert t Hn.
  induction n as [n IH] using lt_wf_ind. intros t ->.
  apply H. intros u Hu. now apply (IH (length u)).
Qed.

Lemma lstrip_length t : length (lstrip t) <= length t.
Proof.
  induction t as [|c t IH]; simpl; [lia|].
  destruct (is_space c); simpl; lia.
Qed.

Lemma lstrip_head t : head_nonspace (lstrip t) = true.
Proof.
  induction t as [|c t IH]; simpl; [reflexivity|].
  destruct (is_space c) eqn:E; [assumption|]. simpl. now rewrite E.
Qed.

Lemma lstrip_fixed t : head_nonspace t = true -> lstrip t = t.
Proof.
  destruct t as [|c t]; simpl; [reflexivity|].
  destruct (is_space c); [discriminate | reflexivity].
Qed.

Lemma lstrip_idem t : lstrip (lstrip t) = lstrip t.
Proof. apply lstrip_fixed, lstrip_head. Qed.

Lemma lstrip_split t : exists x, t = x ++ lstrip t /\ blank x = true.
Proof.
  induction t as [|c t (x & Hx & Hb)]; simpl.
  - now exists [].
  - destruct (is_space c) eqn:E.
    + exists (c :: x). simpl. rewrite E, Hb. split; [congruence | reflexivity].
    + now exists [].
Qed.

Lemma lstrip_nil_blank t : lstrip t = [] <-> blank t = true.
Proof.
  induction t as [|c t IH]; simpl; [tauto|].
  destruct (is_space c); simpl; [exact IH|]. split; discriminate.
Qed.

Lemma rstrip_nil_blank t : rstrip t = [] <-> blank t = true.
Proof.
  induction t as [|c t IH]; simpl; [tauto|].
  destruct (rstrip t) as [|d r] eqn:E.
  - destruct (is_space c); simpl.
    + split; [intros _; now apply IH | reflexivity].
    + split; discriminate.
  - split; [discriminate|]. intro H. apply andb_true_iff in H.
    destruct H as [_ H]. apply IH in H. discriminate.
Qed.

Lemma rstrip_cons c t :
  rstrip (c :: t) = if blank t then (if is_space c then [] else [c]) else c :: rstrip t.
Proof.
  simpl. destruct (rstrip t) as [|d r] eqn:E.
  - apply rstrip_nil_blank in E. now rewrite E.
  - destruct (blank t) eqn:B; [|reflexivity].
    apply rstrip_nil_blank in B. congruence.
Qed.

Lemma rstrip_idem t : rstrip (rstrip t) = rstrip t.
Proof.
  induction t as [|c t IH]; [reflexivity|].
  rewrite rstrip_cons. destruct (blank t) eqn:B.
  - destruct (is_space c) eqn:E; [reflexivity|]. simpl. now rewrite E.
  - rewrite rstrip_cons, IH.
    destruct (blank (rstrip t)) eqn:B'; [|reflexivity].
    apply rstrip_nil_blank in B'. rewrite IH in B'.
    apply rstrip_nil_blank in B'. congruence.
Qed.

Lemma lstrip_rstrip t : lstrip (rstrip t) = rstrip (lstrip t).
Proof.
  induction t as [|c t IH]; [reflexivity|].
  rewrite rstrip_cons. simpl lstrip at 2.
  destruct (is_space c) eqn:E.
  - destruct (blank t) eqn:B.
    + symmetry. apply rstrip_nil_blank.
      apply lstrip_nil_blank in B. now rewrite B.
    + simpl. now rewrite E.
  - rewrite rstrip_cons. destruct (blank t); simpl; now rewrite E.
Qed.

Lemma strip_idem t : strip (strip t) = strip t.
Proof.
  unfold strip. rewrite lstrip_rstrip, lstrip_idem, rstrip_idem. reflexivity.
Qed.

Lemma rstrip_blank_suffix t ws : blank ws = true -> rstrip (t ++ ws) = rstrip t.
Proof.
  intro H. induction t as [|c t IH].
  - simpl. now apply rstrip_nil_blank.
  - rewrite <- app_comm_cons, !rstrip_cons, IH.
    unfold blank in *. rewrite forallb_app, H, andb_true_r. reflexivity.
Qed.

Lemma strip_blank_suffix t ws : blank ws = true -> strip (t ++ ws) = strip t.
Proof.
  intro H. unfold strip. rewrite <- !lstrip_rstrip. now rewrite rstrip_blank_suffix.
Qed.

Lemma nospace_not_blank w : w <> [] -> nospace w = true -> blank w = false.
Proof.
  destruct w as [|c w]; [congruence|]. simpl. intros _ H.
  apply andb_true_iff in H. destruct H as [H _].
  now destruct (is_space c).
Qed.

Lemma rstrip_app_nospace w r :
  w <> [] -> nospace w = true -> rstrip (w ++ r) = w ++ rstrip r.
Proof.
  intros Hne Hw. induction w as [|c w IH]; [congruence|].
  simpl in Hw. apply andb_true_iff in Hw. destruct Hw as [Hc Hw].
  rewrite <- app_comm_cons, rstrip_cons.
  destruct w as [|d w].
  - simpl app. destruct (blank r) eqn:B.
    + destruct (is_space c); [discriminate|].
      apply rstrip_nil_blank in B. now rewrite B.
    + reflexivity.
  - rewrite IH by (auto; discriminate).
    replace (blank ((d :: w) ++ r)) with false; [reflexivity|].
    symmetry. unfold blank. rewrite forallb_app.
    change (forallb is_space (d :: w)) with (blank (d :: w)).
    rewrite nospace_not_blank; auto. discriminate.
Qed.

Lemma lstrip_app_nospace w r :
  w <> [] -> nospace w = true -> lstrip (w ++ r) = w ++ r.
Proof.
  destruct w as [|c w]; [congruence|]. simpl. intros _ H.
  apply andb_true_iff in H. destruct H as [H _].
  now destruct (is_space c).
Qed.

Lemma upper_lstrip t : upper (lstrip t) = lstrip (upper t).
Proof.
  induction t as [|c t IH]; [reflexivity|].
  simpl. rewrite space_to_upper. destruct (is_space c); [exact IH | reflexivity].
Qed.

Lemma blank_upper t : blank (upper t) = blank t.
Proof.
  unfold blank, upper. induction t as [|c t IH]; [reflexivity|].
  simpl. now rewrite space_to_upper, IH.
Qed.

Lemma upper_rstrip t : upper (rstrip t) = rstrip (upper t).
Proof.
  induction t as [|c t IH]; [reflexivity|].
  change (upper (c :: t)) with (to_upper c :: upper t).
  rewrite !rstrip_cons, blank_upper, space_to_upper.
  destruct (blank t); [destruct (is_space c); reflexivity|].
  simpl. now rewrite <- IH.
Qed.

Lemma upper_strip t : upper (strip t) = strip (upper t).
Proof. unfold strip. now rewrite upper_rstrip, upper_lstrip. Qed.

(** ** Collapsing white space *)

Local Abbreviation sub_ws := (sub_from false WHITESPACE_RE (fun _ => txt " ")).

Lemma ws_match_wb wb wb' t :
  match_at false WHITESPACE_RE wb t = match_at false WHITESPACE_RE wb' t.
Proof. destruct t; reflexivity. Qed.

Lemma sub_ws_wb t : forall k wb wb', sub_ws k wb t = sub_ws k wb' t.
Proof.
  induction t as [|c t IH]; intros k wb wb'.
  - destruct k; reflexivity.
  - destruct k as [|k]; [|simpl; apply IH].
    rewrite !sub_from_cons. rewrite (ws_match_wb wb wb').
    reflexivity.
Qed.

Lemma rep_space_longest t : forall wb caps,
  exists q l, rep false Space 0 None wb t caps = q :: l /\ m_rest q = lstrip t.
Proof.
  induction t as [|c t IH]; intros wb caps; simpl.
  - eexists _, _. split; reflexivity.
  - destruct (is_space c) eqn:E; simpl.
    + destruct (IH (is_word c) caps) as (q & l & -> & Hq).
      exists q, (l ++ [MPos wb (c :: t) caps]). split; [reflexivity | assumption].
    + eexists _, _. split; reflexivity.
Qed.


Lemma collapse_ws_nonspace c t :
  is_space c = false -> collapse_ws (c :: t) = c :: collapse_ws t.
Proof.
  intro H. unfold collapse_ws, re_sub. rewrite sub_nomatch.
  - f_equal. apply sub_ws_wb.
  - unfold match_at. simpl. now rewrite H.
Qed.

Lemma collapse_ws_space c t :
  is_space c = true -> collapse_ws (c :: t) = txt " " ++ collapse_ws (lstrip t).
Proof.
  intro H. unfold collapse_ws, re_sub.
  destruct (lstrip_split t) as (x & Hx & _).
  destruct (rep_space_longest t (is_word c) []) as (q & l & Hq & Hr).
  assert (Hm : match_at false WHITESPACE_RE false ((c :: x) ++ lstrip t) = Some q).
  { rewrite <- app_comm_cons, <- Hx. unfold match_at. simpl. rewrite H. simpl.
    rewrite Hq. reflexivity. }
  rewrite Hx at 1. rewrite app_comm_cons.
  rewrite (sub_match _ _ _ false (c :: x) (lstrip t) q); auto; [|discriminate].
  f_equal. apply sub_ws_wb.
Qed.

Lemma collapse_ws_length t : length (collapse_ws t) <= length t.
Proof.
  induction t as [t IH] using text_len_ind.
  destruct t as [|c t]; [simpl; lia|].
  destruct (is_space c) eqn:E.
  - rewrite collapse_ws_space by assumption. simpl.
    pose proof (lstrip_length t).
    assert (length (collapse_ws (lstrip t)) <= length (lstrip t))
      by (apply IH; simpl; lia). lia.
  - rewrite collapse_ws_nonspace by assumption. simpl.
    assert (length (collapse_ws t) <= length t) by (apply IH; simpl; lia). lia.
Qed.

Lemma collapse_ws_head t :
  head_nonspace t = true -> head_nonspace (collapse_ws t) = true.
Proof.
  destruct t as [|c t]; [reflexivity|]. simpl. intro H.
  destruct (is_space c) eqn:E; [discriminate|].
  rewrite collapse_ws_nonspace by assumption. simpl. now rewrite E.
Qed.

Lemma collapse_ws_nil_iff t : collapse_ws t = [] -> t = [].
Proof.
  destruct t as [|c t]; [reflexivity|].
  destruct (is_space c) eqn:E.
  - rewrite collapse_ws_space by assumption. discriminate.
  - rewrite collapse_ws_nonspace by assumption. discriminate.
Qed.

Lemma lstrip_collapse_ws t : lstrip (collapse_ws t) = collapse_ws (lstrip t).
Proof.
  destruct t as [|c t]; [reflexivity|].
  destruct (is_space c) eqn:E.
  - rewrite collapse_ws_space by assumption. simpl. rewrite E.
    apply lstrip_fixed, collapse_ws_head, lstrip_head.
  - rewrite collapse_ws_nonspace by assumption. simpl. rewrite E. simpl.
    now rewrite collapse_ws_nonspace.
Qed.

Lemma collapse_ws_idem t : collapse_ws (collapse_ws t) = collapse_ws t.
Proof.
  induction t as [t IH] using text_len_ind.
  destruct t as [|c t]; [reflexivity|].
  destruct (is_space c) eqn:E.
  - rewrite collapse_ws_space by assumption.
    change (txt " " ++ collapse_ws (lstrip t)) with (" "%char :: collapse_ws (lstrip t)).
    rewrite collapse_ws_space by reflexivity.
    rewrite lstrip_collapse_ws, lstrip_idem. simpl. f_equal.
    apply IH. pose proof (lstrip_length t). simpl. lia.
  - rewrite collapse_ws_nonspace by assumption.
    rewrite collapse_ws_nonspace by assumption.
    f_equal. apply IH. simpl. lia.
Qed.

Lemma collapse_ws_blank t : blank t = true -> t <> [] -> collapse_ws t = txt " ".
Proof.
  destruct t as [|c t]; [congruence|]. simpl. intros H _.
  apply andb_true_iff in H. destruct H as [Hc Ht].
  rewrite collapse_ws_space by assumption.
  apply lstrip_nil_blank in Ht. now rewrite Ht.
Qed.

Lemma blank_collapse_ws t : blank (collapse_ws t) = blank t.
Proof.
  induction t as [t IH] using text_len_ind.
  destruct t as [|c t]; [reflexivity|].
  destruct (is_space c) eqn:E.
  - rewrite collapse_ws_space by assumption. simpl. rewrite E. simpl.
    rewrite IH by (pose proof (lstrip_length t); simpl; lia).
    destruct (blank t) eqn:B.
    + apply lstrip_nil_blank in B. now rewrite B.
    + destruct (blank (lstrip t)) eqn:B'; [|reflexivity].
      pose proof (lstrip_head t) as Hh.
      destruct (lstrip t) as [|d u] eqn:L.
      * apply lstrip_nil_blank in L. congruence.
      * simpl in *. apply andb_true_iff in B'. destruct B' as [B' _].
        rewrite B' in Hh. discriminate.
  - rewrite collapse_ws_nonspace by assumption. simpl. now rewrite E.
Qed.

Lemma rstrip_collapse_ws t : rstrip (collapse_ws t) = collapse_ws (rstrip t).
Proof.
  induction t as [t IH] using text_len_ind.
  destruct t as [|c t]; [reflexivity|].
  destruct (is_space c) eqn:E.
  - rewrite collapse_ws_space by assumption.
    change (txt " " ++ collapse_ws (lstrip t)) with (" "%char :: collapse_ws (lstrip t)).
    rewrite !rstrip_cons, E, blank_collapse_ws.
    rewrite IH by (pose proof (lstrip_length t); simpl; lia).
    destruct (blank t) eqn:B.
    + assert (L : lstrip t = []) by now apply lstrip_nil_blank.
      rewrite L. reflexivity.
    + destruct (blank (lstrip t)) eqn:B'.
      * exfalso. pose proof (lstrip_head t) as Hh.
        destruct (lstrip t) as [|d u] eqn:L.
        -- apply lstrip_nil_blank in L. congruence.
        -- simpl in *. apply andb_true_iff in B'. destruct B' as [B' _].
           rewrite B' in Hh. discriminate.
      * rewrite collapse_ws_space by assumption.
        now rewrite lstrip_rstrip.
  - rewrite collapse_ws_nonspace by assumption.
    rewrite !rstrip_cons, E, blank_collapse_ws.
    rewrite IH by (simpl; lia).
    destruct (blank t); now rewrite collapse_ws_nonspace.
Qed.

Lemma strip_collapse_ws t : strip (collapse_ws t) = collapse_ws (strip t).
Proof. unfold strip. now rewrite lstrip_collapse_ws, rstrip_collapse_ws. Qed.

Lemma collapse_ws_upper t : collapse_ws (upper t) = upper (collapse_ws t).
Proof.
  unfold collapse_ws, re_sub. apply sub_up; [vm_compute; reflexivity | reflexivity].
Qed.

Lemma collapse_ws_app_nospace w r :
  nospace w = true -> collapse_ws (w ++ r) = w ++ collapse_ws r.
Proof.
  induction w as [|c w IH]; intro H; [reflexivity|].
  simpl in H. apply andb_true_iff in H. destruct H as [Hc Hw].
  apply negb_true_iff in Hc.
  rewrite <- app_comm_cons, collapse_ws_nonspace by assumption.
  now rewrite IH.
Qed.

Lemma word_after_collapse_ws t :
  word_after t = false -> word_after (collapse_ws t) = false.
Proof.
  destruct t as [|c t]; [reflexivity|]. simpl. intro H.
  destruct (is_space c) eqn:E.
  - now rewrite collapse_ws_space.
  - now rewrite collapse_ws_nonspace.
Qed.

(** ** The steps of [normalize_text] commute *)

Lemma word_nospace w : forallb is_word w = true -> nospace w = true.
Proof.
  intro H. unfold nospace. rewrite forallb_forall in *. intros c Hc.
  specialize (H c Hc). destruct (is_space c) eqn:E; [|reflexivity].
  apply space_not_word in E. congruence.
Qed.

Lemma expand_grades_upper t : expand_grades (upper t) = upper (expand_grades t).
Proof.
  unfold expand_grades, re_sub. apply sub_up; [apply grade_case_blind|].
  intro caps. unfold grade_repl. rewrite !upper_app.
  assert (H : forall n, group n (upper_caps caps) = upper (group n caps)).
  { intro n. induction caps as [|[k g] caps IH]; [reflexivity|].
    simpl. destruct (Nat.eqb k n); [reflexivity | exact IH]. }
  now rewrite !H.
Qed.

Lemma expand_grades_nonempty t : t <> [] -> expand_grades t <> [].
Proof.
  destruct t as [|c t]; [congruence|]. intros _.
  destruct (is_word c) eqn:E.
  - pose proof (word_span_spec (c :: t)) as H.
    destruct (word_span (c :: t)) as [w r] eqn:Hs. destruct H as (Ht & Hw & Hr).
    assert (Hne : w <> []).
    { simpl in Hs. rewrite E in Hs. destruct (word_span t). now inversion Hs. }
    rewrite Ht, expand_grades_word_app by assumption.
    destruct (expand_grades_word w Hw) as [->|(cat & ds & _ & _ & _ & _ & _ & ->)].
    + destruct w; [congruence | discriminate].
    + intro H. apply app_eq_nil in H. destruct H as [H _].
      apply app_eq_nil in H. destruct H as [_ H]. discriminate.
  - rewrite expand_grades_nonword by assumption. discriminate.
Qed.

(** A rewritten word holds no white space. *)
Lemma expand_word_nospace w :
  forallb is_word w = true -> nospace (expand_grades w) = true.
Proof.
  intro Hw.
  destruct (expand_grades_word w Hw) as [->|(cat & ds & _ & _ & Hc & _ & Hd & ->)].
  - now apply word_nospace.
  - assert (H1 : nospace (upper cat) = true).
    { apply word_nospace. pose proof (upper_letters cat Hc) as H.
      rewrite forallb_forall in *. auto using letter_is_word. }
    assert (H2 : nospace ds = true) by now apply word_nospace, forallb_digit_word.
    unfold nospace in *. rewrite !forallb_app, H1, H2. reflexivity.
Qed.

Lemma expand_grades_head t :
  head_nonspace t = true -> head_nonspace (expand_grades t) = true.
Proof.
  destruct t as [|c t]; [reflexivity|]. intro H.
  destruct (is_word c) eqn:E.
  - pose proof (word_span_spec (c :: t)) as Hsp.
    destruct (word_span (c :: t)) as [w r] eqn:Hs. destruct Hsp as (Ht & Hw & Hr).
    assert (Hne : w <> []).
    { simpl in Hs. rewrite E in Hs. destruct (word_span t). now inversion Hs. }
    rewrite Ht, expand_grades_word_app by assumption.
    pose proof (expand_word_nospace w Hw) as Hns.
    pose proof (expand_grades_nonempty w Hne) as Hne'.
    destruct (expand_grades w) as [|d u]; [congruence|].
    simpl in *. apply andb_true_iff in Hns. tauto.
  - now rewrite expand_grades_nonword.
Qed.

Lemma expand_grades_lstrip t : expand_grades (lstrip t) = lstrip (expand_grades t).
Proof.
  induction t as [|c t IH]; [reflexivity|].
  simpl lstrip. destruct (is_space c) eqn:E.
  - rewrite expand_grades_nonword by (now apply space_not_word).
    simpl. now rewrite E.
  - symmetry. apply lstrip_fixed, expand_grades_head. simpl. now rewrite E.
Qed.

Lemma word_after_rstrip t : word_after t = false -> word_after (rstrip t) = false.
Proof.
  destruct t as [|c t]; [reflexivity|]. rewrite rstrip_cons. simpl. intro H.
  destruct (blank t); [destruct (is_space c)|]; simpl; auto.
Qed.

Lemma expand_grades_rstrip t : expand_grades (rstrip t) = rstrip (expand_grades t).
Proof.
  induction t as [|c t Hc IH|w r Hne Hw Hr IH] using text_words_ind.
  - reflexivity.
  - rewrite (expand_grades_nonword c t) by assumption.
    rewrite !rstrip_cons.
    assert (IHt : expand_grades (rstrip t) = rstrip (expand_grades t)) by (apply IH; lia).
    assert (Hb : blank (expand_grades t) = blank t).
    { destruct (blank t) eqn:B.
      - apply rstrip_nil_blank in B. apply rstrip_nil_blank.
        now rewrite <- IHt, B.
      - destruct (blank (expand_grades t)) eqn:B'; [|reflexivity].
        apply rstrip_nil_blank in B'. rewrite <- IHt in B'.
        destruct (rstrip t) eqn:R.
        + apply rstrip_nil_blank in R. congruence.
        + exfalso. revert B'. apply expand_grades_nonempty. discriminate. }
    rewrite Hb. destruct (blank t).
    + destruct (is_space c); [reflexivity|].
      now rewrite expand_grades_nonword.
    + rewrite expand_grades_nonword by assumption. now rewrite IHt.
  - rewrite expand_grades_word_app by assumption.
    rewrite !rstrip_app_nospace;
      auto using word_nospace, expand_word_nospace, expand_grades_nonempty.
    rewrite expand_grades_word_app; auto using word_after_rstrip.
    f_equal. apply IH. lia.
Qed.

Lemma expand_grades_strip t : expand_grades (strip t) = strip (expand_grades t).
Proof. unfold strip. now rewrite expand_grades_rstrip, expand_grades_lstrip. Qed.

Lemma expand_grades_collapse_ws t :
  expand_grades (collapse_ws t) = collapse_ws (expand_grades t).
Proof.
  induction t as [|c t Hc IH|w r Hne Hw Hr IH] using text_words_ind.
  - reflexivity.
  - rewrite (expand_grades_nonword c t) by assumption.
    destruct (is_space c) eqn:E.
    + rewrite !collapse_ws_space by assumption.
      change (txt " " ++ collapse_ws (lstrip t)) with (" "%char :: collapse_ws (lstrip t)).
      rewrite expand_grades_nonword by reflexivity.
      rewrite IH by apply lstrip_length.
      now rewrite expand_grades_lstrip.
    + rewrite !collapse_ws_nonspace by assumption.
      rewrite expand_grades_nonword by assumption.
      f_equal. apply IH. lia.
  - rewrite expand_grades_word_app by assumption.
    rewrite !collapse_ws_app_nospace by auto using word_nospace, expand_word_nospace.
    rewrite expand_grades_word_app by auto using word_after_collapse_ws.
    f_equal. apply IH. lia.
Qed.

(** ** [normalize_text] *)

Lemma codes_beyond_ascii c :
  accepts false (Codes [8208; 8209; 8210; 8211; 8212; 8213; 8722; 65112; 65123; 65293]%N) c
  = false.
Proof. each_char c; reflexivity. Qed.

(** None of the Unicode dashes is a character of the embedding. *)
Lemma fold_dashes_id t : fold_dashes t = t.
Proof.
  unfold fold_dashes, re_sub.
  assert (H : forall wb, sub_from false UNICODE_DASH_RE (fun _ => txt "-") 0 wb t = t);
    [|apply H].
  induction t as [|c t IH]; intro wb; [reflexivity|].
  rewrite sub_nomatch.
  - now rewrite IH.
  - unfold match_at, UNICODE_DASH_RE. cbn [run m_rest].
    now rewrite codes_beyond_ascii.
Qed.

Lemma normalize_text_steps t :
  normalize_text t = strip (collapse_ws (upper (expand_grades (fold_dashes (nfkd t))))).
Proof. reflexivity. Qed.

Lemma normalize_text_eq t :
  normalize_text t = strip (collapse_ws (upper (expand_grades t))).
Proof. rewrite normalize_text_steps, fold_dashes_id. reflexivity. Qed.

Lemma normalize_text_idem t : normalize_text (normalize_text t) = normalize_text t.
Proof.
  rewrite !normalize_text_eq.
  rewrite expand_grades_strip, expand_grades_collapse_ws, expand_grades_upper,
    expand_grades_idem.
  rewrite upper_strip, <- collapse_ws_upper, upper_idem.
  rewrite <- strip_collapse_ws, collapse_ws_idem.
  apply strip_idem.
Qed.

(** The steps in another order: stripping first. *)
Lemma normalize_text_strip_first t :
  normalize_text t = collapse_ws (upper (expand_grades (strip t))).
Proof.
  rewrite normalize_text_eq.
  now rewrite strip_collapse_ws, <- upper_strip, <- expand_grades_strip.
Qed.

Lemma normalize_text_blank_suffix t ws :
  blank ws = true -> normalize_text (t ++ ws) = normalize_text t.
Proof.
  intro H. rewrite !normalize_text_strip_first. now rewrite strip_blank_suffix.
Qed.

(** ** Searching *)

Lemma re_search_is_some ic r t : re_search ic r t = is_some (search_from ic r false t).
Proof. reflexivity. Qed.

Lemma blank_word_after ws : blank ws = true -> word_after ws = false.
Proof.
  destruct ws as [|c ws]; [reflexivity|]. simpl. intro H.
  apply andb_true_iff in H. destruct H as [H _]. now apply space_not_word.
Qed.

Lemma search_blank ic r ws : forall wb,
  word_only ic r = true -> needs_char r = true -> blank ws = true ->
  search_from ic r wb ws = None.
Proof.
  intros wb Hw Hn. revert wb. induction ws as [|c ws IH]; intros wb Hb.
  - simpl. now rewrite match_at_nonword.
  - simpl. rewrite match_at_nonword by auto using blank_word_after.
    apply IH. simpl in Hb. apply andb_true_iff in Hb. tauto.
Qed.

(** White space at the end of the subject does not change what a pattern of
    word characters finds. *)
Lemma search_blank_suffix ic r t ws : forall wb,
  word_only ic r = true -> needs_char r = true -> blank ws = true ->
  is_some (search_from ic r wb (t ++ ws)) = is_some (search_from ic r wb t).
Proof.
  intros wb Hw Hn Hb. revert wb. induction t as [|c t IH]; intro wb.
  - simpl app. rewrite search_blank by assumption.
    simpl. now rewrite match_at_nonword.
  - rewrite <- app_comm_cons. simpl.
    rewrite app_comm_cons, match_at_ext by auto using blank_word_after.
    destruct (match_at ic r wb (c :: t)); simpl; [reflexivity | apply IH].
Qed.


Lemma is_consultant_blank_suffix t ws :
  blank ws = true -> is_consultant (t ++ ws) = is_consultant t.
Proof.
  intro H. unfold is_consultant. rewrite !re_search_is_some.
  apply search_blank_suffix; [vm_compute; reflexivity | reflexivity | assumption].
Qed.

Lemma is_intern_blank_suffix t ws :
  blank ws = true -> is_intern_or_fellowship (t ++ ws) = is_intern_or_fellowship t.
Proof.
  intro H. unfold is_intern_or_fellowship. rewrite !re_search_is_some.
  apply search_blank_suffix; [vm_compute; reflexivity | reflexivity | assumption].
Qed.

Lemma detect_grades_normalized t : detect_grades (normalize_text t) = detect_grades t.
Proof. unfold detect_grades. now rewrite normalize_text_idem. Qed.

Lemma is_excluded_grade_normalized t :
  is_excluded_grade (normalize_text t) = is_excluded_grade t.
Proof. unfold is_excluded_grade. now rewrite normalize_text_idem. Qed.

Lemma should_include_job_blank_suffix t ws :
  blank ws = true -> should_include_job (t ++ ws) = should_include_job t.
Proof.
  intro H. unfold should_include_job, is_excluded_grade, detect_grades.
  now rewrite is_consultant_blank_suffix, is_intern_blank_suffix,
    normalize_text_blank_suffix.
Qed.

(** ** A token between two boundaries *)

Lemma wb_after_cons wb c a : wb_after wb (c :: a) = wb_after (is_word c) a.
Proof. reflexivity. Qed.

Lemma wb_after_nonword_head wb wb' r :
  r <> [] -> wb_after wb r = wb_after wb' r.
Proof. destruct r; [congruence | reflexivity]. Qed.

Lemma expand_grades_app a t :
  wb_after false a = false ->
  expand_grades (a ++ t) = expand_grades a ++ expand_grades t.
Proof.
  induction a as [|c a Hc IH|w r Hne Hw Hr IH] using text_words_ind; intro H.
  - reflexivity.
  - rewrite wb_after_cons, Hc in H.
    rewrite <- app_comm_cons, !expand_grades_nonword by assumption.
    rewrite IH by auto. reflexivity.
  - rewrite wb_after_app, (wb_after_words false w) in H by assumption.
    destruct r as [|d r]; [discriminate|].
    rewrite <- app_assoc.
    rewrite (expand_grades_word_app w (d :: r)) by assumption.
    rewrite (expand_grades_word_app w ((d :: r) ++ t)) by assumption.
    rewrite IH; [now rewrite app_assoc | lia |].
    now rewrite <- H.
Qed.

Lemma lstrip_app_head x t :
  head_nonspace t = true -> lstrip (x ++ t) = lstrip x ++ t.
Proof.
  intro H. induction x as [|c x IH]; simpl.
  - now apply lstrip_fixed.
  - destruct (is_space c); [exact IH | reflexivity].
Qed.

Lemma collapse_ws_app_head (x t : list ascii) :
  head_nonspace t = true -> collapse_ws (x ++ t) = collapse_ws x ++ collapse_ws t.
Proof.
  intro H. revert x. apply (text_len_ind (fun x =>
    collapse_ws (x ++ t) = collapse_ws x ++ collapse_ws t)).
  intros x IH.
  destruct x as [|c x]; [reflexivity|].
  rewrite <- app_comm_cons. destruct (is_space c) eqn:E.
  - rewrite !collapse_ws_space by assumption.
    rewrite lstrip_app_head by assumption.
    rewrite IH by (pose proof (lstrip_length x); simpl; lia).
    reflexivity.
  - rewrite !collapse_ws_nonspace by assumption.
    rewrite IH by (simpl; lia). reflexivity.
Qed.

Lemma rstrip_app_nonblank z u :
  blank u = false -> rstrip (z ++ u) = z ++ rstrip u.
Proof.
  intro H. induction z as [|c z IH]; [reflexivity|].
  rewrite <- app_comm_cons, rstrip_cons, IH.
  unfold blank in *. rewrite forallb_app, H, andb_false_r. reflexivity.
Qed.

Lemma nospace_head w r : w <> [] -> nospace w = true -> head_nonspace (w ++ r) = true.
Proof.
  destruct w as [|c w]; [congruence|]. simpl. intros _ H.
  apply andb_true_iff in H. tauto.
Qed.

(** A token without white space survives stripping and collapsing. *)
Lemma strip_collapse_mid x w y :
  w <> [] -> nospace w = true ->
  exists x' y', strip (collapse_ws (x ++ w ++ y)) = x' ++ w ++ y'.
Proof.
  intros Hne Hw.
  rewrite collapse_ws_app_head by (now apply nospace_head).
  rewrite collapse_ws_app_nospace by assumption.
  unfold strip. rewrite lstrip_app_head by (now apply nospace_head).
  rewrite rstrip_app_nonblank.
  - rewrite rstrip_app_nospace by assumption. eauto.
  - unfold blank. rewrite forallb_app.
    change (forallb is_space w) with (blank w).
    now rewrite nospace_not_blank.
Qed.

Lemma starts_with_app w y : starts_with w (w ++ y) = true.
Proof.
  induction w as [|c w IH]; [reflexivity|]. simpl.
  now rewrite Ascii.eqb_refl, IH.
Qed.

Lemma contains_mid w x y : contains w (x ++ w ++ y) = true.
Proof.
  induction x as [|c x IH].
  - simpl app. destruct (w ++ y) eqn:E; simpl; rewrite <- E, starts_with_app; reflexivity.
  - simpl. rewrite IH. apply orb_true_r.
Qed.

Lemma filter_In_grades (f : text -> bool) g :
  In g (filter f INCLUDED_GRADES) <-> In g INCLUDED_GRADES /\ f g = true.
Proof. apply filter_In. Qed.

(** * The classifier *)




(** C4 (the code at "Internship").  The pattern asks for a word boundary
    behind INTERN, so "Internship" is not an intern/fellowship mention and a
    text holding only that word is excluded; the words "Intern" and
    "Fellowship" are mentions. *)
Theorem internship_not_detected :
  is_intern_or_fellowship (txt "Internship") = false
  /\ should_include_job (txt "Internship") = false
  /\ should_include_job (txt "Internship - Communications, Geneva") = false
  /\ is_intern_or_fellowship (txt "Intern") = true
  /\ is_intern_or_fellowship (txt "legal intern, Geneva") = true
  /\ is_intern_or_fellowship (txt "Fellowship") = true
  /\ should_include_job (txt "Intern") = true.
Proof. repeat split; vm_compute; reflexivity. Qed.

(** C5 (the code at "NO-A").  No excluded pattern matches a national-officer
    grade written with a hyphen: only the bare forms NOA..NOD are excluded,
    while the G, SB and LSC grades are matched in their hyphenated form. *)
Theorem hyphenated_national_officer_not_excluded :
  is_excluded_grade (txt "NO-A") = false
  /\ is_excluded_grade (txt "NO-B") = false
  /\ is_excluded_grade (txt "NO-C") = false
  /\ is_excluded_grade (txt "NO-D") = false
  /\ normalize_text (txt "Protection Associate NO-A") = txt "PROTECTION ASSOCIATE NO-A"
  /\ should_include_job (txt "Protection Officer NO-B, reports to the P-3") = true
  /\ is_excluded_grade (txt "NOA") = true
  /\ is_excluded_grade (txt "nob") = true
  /\ is_excluded_grade (txt "G-5") = true
  /\ is_excluded_grade (txt "G5") = true
  /\ is_excluded_grade (txt "SB-4") = true
  /\ is_excluded_grade (txt "LSC-10") = true
  /\ is_excluded_grade (txt "G-8") = false
  /\ is_excluded_grade (txt "LSC-123") = false.
Proof. repeat split; vm_compute; reflexivity. Qed.
















(** * The run *)

Lemma detail_requests_refl st : detail_requests_only st st.
Proof. unfold detail_requests_only. tauto. Qed.

Lemma detail_requests_trans a b c :
  detail_requests_only a b -> detail_requests_only b c -> detail_requests_only a c.
Proof. unfold detail_requests_only. intuition congruence. Qed.

Lemma gather_detail_requests w l path url st :
  detail_requests_only st (snd (gather_detail w l path url st)).
Proof.
  unfold gather_detail.
  destruct (negb _ || negb _); simpl; unfold detail_requests_only; simpl; tauto.
Qed.

(** A posting is passed over or accepted; either way after requests for
    details only, and an accepted one was not a seen link. *)
Lemma process_posting_outcome w p st :
  let title := strip (p_title p) in
  let job_url := build_job_url (p_externalPath p) in
  let listing_text := listing_text_of title (location_of p) (p_bulletFields p) in
  exists st1, detail_requests_only st st1 /\
    (process_posting w p st = skipped st1 \/
     (set_mem job_url (existing_links st) = false /\
      process_posting w p st =
        accepted (job_item_of w title job_url (location_of p) listing_text
                              (p_postedOn p) st1) job_url st1)).
Proof.
  intros title job_url listing_text. unfold process_posting.
  fold title job_url listing_text.
  destruct (set_mem job_url (existing_links st)) eqn:Hm;
    [exists st; auto using detail_requests_refl|].
  destruct (is_consultant listing_text);
    [exists st; auto using detail_requests_refl|].
  destruct (is_excluded_grade (normalize_text listing_text));
    [exists st; auto using detail_requests_refl|].
  destruct (nonempty _ || is_intern_or_fellowship listing_text);
    [exists st; auto using detail_requests_refl|].
  pose proof (gather_detail_requests w listing_text (p_externalPath p) job_url st) as Hg.
  destruct (gather_detail w listing_text (p_externalPath p) job_url st) as [d st1].
  simpl in Hg. exists st1. split; [exact Hg|].
  destruct (negb _); auto.
Qed.

Lemma set_mem_add x y s :
  set_mem x (set_add y s) = text_eqb x y || set_mem x s.
Proof.
  unfold set_add. destruct (set_mem y s) eqn:E.
  - destruct (text_eqb x y) eqn:Exy; [|reflexivity].
    unfold text_eqb in Exy. destruct (list_eq_dec ascii_dec x y); [|discriminate].
    subst. now rewrite E.
  - unfold set_mem. rewrite existsb_app. simpl.
    rewrite orb_false_r. apply orb_comm.
Qed.

Lemma text_eqb_refl x : text_eqb x x = true.
Proof. unfold text_eqb. destruct (list_eq_dec ascii_dec x x); congruence. Qed.

Lemma text_eqb_eq x y : text_eqb x y = true <-> x = y.
Proof.
  unfold text_eqb. destruct (list_eq_dec ascii_dec x y); split; congruence.
Qed.

(** C3, first part.  A posting whose URL is a seen link is passed over at
    once, without a request and without a look at its text; and an accepted
    URL is a seen link from then on. *)
Lemma seen_posting_skipped w p st :
  set_mem (build_job_url (p_externalPath p)) (existing_links st) = true ->
  process_posting w p st = skipped st.
Proof. intro H. unfold process_posting. now rewrite H. Qed.

Lemma accepted_link_seen item url st :
  set_mem url (existing_links (accepted item url st)) = true.
Proof. simpl. now rewrite set_mem_add, text_eqb_refl. Qed.

Lemma process_postings_invariant w ps : forall st,
  length (included_jobs st) <= MAX_INCLUDED_JOBS ->
  let st' := process_postings w ps st in
  length (included_jobs st') <= MAX_INCLUDED_JOBS /\
  (exists more, included_jobs st' = included_jobs st ++ more) /\
  offset st' = offset st /\
  pages_fetched st' = pages_fetched st /\
  listing_calls (calls st') = listing_calls (calls st).
Proof.
  induction ps as [|p ps IH]; intros st Hlen; cbn [process_postings].
  - repeat apply conj; auto. exists []. now rewrite app_nil_r.
  - destruct (MAX_INCLUDED_JOBS <=? length (included_jobs st)) eqn:Hcap.
    + repeat apply conj; auto. exists []. now rewrite app_nil_r.
    + apply Nat.leb_gt in Hcap.
      destruct (process_posting_outcome w p st) as (st1 & Hd & Hcase).
      destruct Hd as (Hi & Hl & Ho & Ht & Hp & Hc).
      destruct Hcase as [E|[_ E]]; rewrite E.
      * specialize (IH (skipped st1)). simpl in IH.
        rewrite Hi, Ho, Hp, Hc in IH. apply IH. lia.
      * specialize (IH (accepted (job_item_of w (strip (p_title p))
                          (build_job_url (p_externalPath p)) (location_of p)
                          (listing_text_of (strip (p_title p)) (location_of p)
                             (p_bulletFields p)) (p_postedOn p) st1)
                          (build_job_url (p_externalPath p)) st1)).
        simpl in IH. rewrite Hi, Ho, Hp, Hc in IH. rewrite length_app in IH.
        simpl in IH.
        destruct IH as (H1 & (more & H2) & H3 & H4 & H5); [lia|].
        repeat apply conj; auto.
        rewrite H2, <- app_assoc. eauto.
Qed.

Lemma listing_calls_cons o cs :
  listing_calls (FetchListings o :: cs) = S (listing_calls cs).
Proof. reflexivity. Qed.

Lemma included_extends_refl (l : list dict) : exists more, l = l ++ more.
Proof. exists []. now rewrite app_nil_r. Qed.

(** The loop ends by itself within [MAX_PAGES] iterations. *)
Lemma paginate_total w : forall fuel st,
  MAX_PAGES < pages_fetched st + fuel ->
  pages_fetched st <= MAX_PAGES ->
  listing_calls (calls st) = pages_fetched st ->
  length (included_jobs st) <= MAX_INCLUDED_JOBS ->
  exists st' reason,
    paginate fuel w st = Some (st', reason) /\
    pages_fetched st' <= MAX_PAGES /\
    listing_calls (calls st') <= MAX_PAGES /\
    length (included_jobs st') <= MAX_INCLUDED_JOBS /\
    (exists more, included_jobs st' = included_jobs st ++ more) /\
    stop_justified w st' reason.
Proof.
  induction fuel as [|fuel IH]; intros st Hfuel Hpages Hcalls Hlen.
  - lia.
  - cbn [paginate].
    destruct ((length (included_jobs st) <? MAX_INCLUDED_JOBS)
              && (pages_fetched st <? MAX_PAGES)) eqn:Hcond.
    + apply andb_true_iff in Hcond. destruct Hcond as [Hc1 Hc2].
      apply Nat.ltb_lt in Hc1, Hc2.
      destruct (fetch_job_listings w (calls st) (offset st)) as [|ps total] eqn:Hresp.
      * eexists _, _. split; [reflexivity|].
        cbn [requested pages_fetched calls included_jobs stop_justified].
        rewrite listing_calls_cons, Hcalls.
        repeat apply conj; try lia; eauto using included_extends_refl.
      * destruct ps as [|p ps].
        -- eexists _, _. split; [reflexivity|].
           cbn [requested pages_fetched calls included_jobs stop_justified].
           rewrite listing_calls_cons, Hcalls.
           repeat apply conj; try lia; eauto using included_extends_refl.
        -- pose proof (process_postings_invariant w (p :: ps)
                         (requested (FetchListings (offset st)) st) Hlen) as Hinv.
           cbv zeta in Hinv.
           set (st1 := process_postings w (p :: ps)
                         (requested (FetchListings (offset st)) st)) in *.
           destruct Hinv as (H1 & (more & H2) & H3 & H4 & H5).
           cbn [requested pages_fetched calls included_jobs offset] in H2, H3, H4, H5.
           rewrite listing_calls_cons in H5.
           destruct (total <=? offset (next_page st1))%Z eqn:Hend.
           ++ eexists _, _. split; [reflexivity|].
              cbn [next_page pages_fetched calls included_jobs stop_justified].
              repeat apply conj; try lia; eauto.
           ++ destruct (IH (next_page st1))
                as (st' & reason & E & B1 & B2 & B3 & (m2 & B4) & B5);
                cbn [next_page pages_fetched calls included_jobs]; try lia.
              exists st', reason. repeat apply conj; auto.
              cbn [next_page included_jobs] in B4.
              rewrite H2, <- app_assoc in B4. eauto.
    + eexists _, _. split; [reflexivity|].
      repeat apply conj; auto; try lia; eauto using included_extends_refl.
      cbn [stop_justified]. apply andb_false_iff in Hcond.
      destruct Hcond as [H|H]; apply Nat.ltb_ge in H; auto.
Qed.

Lemma should_include_job_signals l :
  is_consultant l = false -> is_excluded_grade l = false ->
  should_include_job l = nonempty (detect_grades l) || is_intern_or_fellowship l.
Proof.
  intros Hc He. unfold should_include_job. rewrite Hc, He.
  destruct (nonempty (detect_grades l)), (is_intern_or_fellowship l); reflexivity.
Qed.

Lemma scrape_jobs_result w doc :
  exists st reason,
    paginate (S MAX_PAGES) w (initial_state doc) = Some (st, reason) /\
    pages_fetched st <= MAX_PAGES /\
    listing_calls (calls st) <= MAX_PAGES /\
    length (included_jobs st) <= MAX_INCLUDED_JOBS /\
    stop_justified w st reason /\
    scrape_jobs w doc = Some (merge_items (load_existing_items doc) (included_jobs st)).
Proof.
  destruct (paginate_total w (S MAX_PAGES) (initial_state doc))
    as (st & reason & E & B1 & B2 & B3 & _ & B5).
  - cbn [initial_state pages_fetched]. lia.
  - cbn [initial_state pages_fetched]. lia.
  - reflexivity.
  - cbn [initial_state included_jobs length]. lia.
  - exists st, reason. repeat apply conj; auto.
    unfold scrape_jobs. rewrite E. reflexivity.
Qed.

(** C2. The items handed to the feed are the prior items in their order,
    then the items accepted in the run in the order of acceptance, and of
    this whole sequence those with a title of at least 5 characters: an item
    is dropped exactly when its title is shorter, be it a prior item or a
    posting that was classified as eligible (as the one titled "P-3"). *)
Theorem merged_feed_order (w : world) (doc : feed_document) :
  (exists st reason,
     paginate (S MAX_PAGES) w (initial_state doc) = Some (st, reason) /\
     scrape_jobs w doc
       = Some (filter long_title (load_existing_items doc ++ included_jobs st)))
  /\ (forall p s,
        included_jobs (process_posting w p s) = included_jobs s \/
        exists item, included_jobs (process_posting w p s) = included_jobs s ++ [item])
  /\ (forall existing included,
        merge_items existing included
          = filter long_title existing ++ filter long_title included)
  /\ (forall existing included item,
        In item (merge_items existing included) <->
        (In item existing \/ In item included) /\ 5 <= length (title_of item))
  /\ (let w3 := one_page_world (page_with (txt "P-3") (txt "/job/3")) None [] in
      exists st item,
        paginate (S MAX_PAGES) w3 (initial_state []) = Some (st, ReachedEnd 1) /\
        included_jobs st = [item] /\ title_of item = txt "P-3" /\
        scrape_jobs w3 [] = Some [])
  /\ scrape_jobs (one_page_world [] None []) (feed_with (txt "abc") (txt "https://example.org/job/1"))
       = Some [].
Proof.
  split; [|split; [|split; [|split; [|split]]]].
  - destruct (scrape_jobs_result w doc) as (st & reason & E & _ & _ & _ & _ & H).
    exists st, reason. split; [exact E | exact H].
  - intros p s. destruct (process_posting_outcome w p s) as (st1 & Hd & [E|[_ E]]);
      rewrite E; destruct Hd as (Hi & _); simpl; rewrite Hi; eauto.
  - intros. unfold merge_items. apply filter_app.
  - intros existing included item. unfold merge_items.
    rewrite filter_In, in_app_iff. unfold title_of.
    rewrite Nat.leb_le. tauto.
  - eexists _, _. vm_compute. repeat split.
  - vm_compute. reflexivity.
Qed.

(** C9. The pagination loop ends by itself: it asks for at most [MAX_PAGES]
    = 50 pages and accepts at most [MAX_INCLUDED_JOBS] = 50 items, and it is
    left for one of these reasons: the [while] test fails (the cap of
    accepted items or the cap of pages is reached), the request for a page
    fails, the page is empty, or the offset has reached the reported total.
    Whatever the reason, the run returns its output: the prior items and
    then the items accepted so far, each with a title of 5 characters or
    more, so every such accepted item is emitted.  A failed request leaves
    the accepted items as they were; in the run whose second request fails
    the item accepted from the first page is emitted. *)
Theorem pagination_terminates (w : world) (doc : feed_document) :
  MAX_PAGES = 50 /\ MAX_INCLUDED_JOBS = 50
  /\ (exists st reason out,
        paginate (S MAX_PAGES) w (initial_state doc) = Some (st, reason) /\
        listing_calls (calls st) <= MAX_PAGES /\
        length (included_jobs st) <= MAX_INCLUDED_JOBS /\
        stop_justified w st reason /\
        scrape_jobs w doc = Some out /\
        out = filter long_title (load_existing_items doc)
              ++ filter long_title (included_jobs st) /\
        (forall item, In item (included_jobs st) ->
                      5 <= length (title_of item) -> In item out))
  /\ (forall fuel s,
        MAX_INCLUDED_JOBS <= length (included_jobs s) \/ MAX_PAGES <= pages_fetched s ->
        paginate (S fuel) w s = Some (s, LoopConditionFalse))
  /\ (forall fuel s,
        length (included_jobs s) < MAX_INCLUDED_JOBS -> pages_fetched s < MAX_PAGES ->
        fetch_job_listings w (calls s) (offset s) = RequestException ->
        paginate (S fuel) w s
          = Some (requested (FetchListings (offset s)) s, ListingFetchFailed)
        /\ included_jobs (requested (FetchListings (offset s)) s) = included_jobs s)
  /\ (forall fuel s total,
        length (included_jobs s) < MAX_INCLUDED_JOBS -> pages_fetched s < MAX_PAGES ->
        fetch_job_listings w (calls s) (offset s) = Listing [] total ->
        paginate (S fuel) w s
          = Some (requested (FetchListings (offset s)) s, NoMorePostings))
  /\ (forall fuel s p ps total,
        length (included_jobs s) < MAX_INCLUDED_JOBS -> pages_fetched s < MAX_PAGES ->
        fetch_job_listings w (calls s) (offset s) = Listing (p :: ps) total ->
        let s' := next_page (process_postings w (p :: ps)
                               (requested (FetchListings (offset s)) s)) in
        (total <= offset s')%Z ->
        paginate (S fuel) w s = Some (s', ReachedEnd total))
  /\ (let w2 := second_page_fails_world
                  (page_with (txt "Protection Officer P-3") (txt "/job/3")) in
      exists st item,
        paginate (S MAX_PAGES) w2 (initial_state []) = Some (st, ListingFetchFailed)
        /\ listing_calls (calls st) = 2
        /\ included_jobs st = [item]
        /\ title_of item = txt "Protection Officer P-3"
        /\ scrape_jobs w2 [] = Some [item]).
Proof.
  split; [reflexivity|]. split; [reflexivity|].
  split; [|split; [|split; [|split; [|split]]]].
  - destruct (scrape_jobs_result w doc) as (st & reason & E & _ & B2 & B3 & B4 & H).
    exists st, reason,
      (filter long_title (load_existing_items doc) ++ filter long_title (included_jobs st)).
    split; [exact E|]. split; [exact B2|]. split; [exact B3|]. split; [exact B4|].
    split; [|split; [reflexivity|]].
    + rewrite H. unfold merge_items. f_equal. apply filter_app.
    + intros item Hin Hlen. apply in_or_app. right. apply filter_In.
      split; [exact Hin|]. unfold long_title. now apply Nat.leb_le.
  - intros fuel s H. cbn [paginate].
    replace ((length (included_jobs s) <? MAX_INCLUDED_JOBS)
             && (pages_fetched s <? MAX_PAGES)) with false; [reflexivity|].
    symmetry. apply andb_false_iff.
    destruct H as [H|H]; [left | right]; now apply Nat.ltb_ge.
  - intros fuel s H1 H2 H. split; [|reflexivity]. cbn [paginate].
    apply Nat.ltb_lt in H1, H2. now rewrite H1, H2, H.
  - intros fuel s total H1 H2 H. cbn [paginate].
    apply Nat.ltb_lt in H1, H2. now rewrite H1, H2, H.
  - intros fuel s p ps total H1 H2 H s' Hend. cbn [paginate].
    apply Nat.ltb_lt in H1, H2. rewrite H1, H2, H. cbn [andb].
    fold s'. apply Z.leb_le in Hend. now rewrite Hend.
  - cbv zeta.
    match goal with
    | |- exists st item, ?p = _ /\ _ =>
        let r := eval vm_compute in p in
        match r with
        | Some (?s, _) =>
            let i := eval vm_compute in (hd [] (included_jobs s)) in
            exists s, i
        end
    end.
    repeat (split; [vm_compute; reflexivity|]). vm_compute. reflexivity.
Qed.

Lemma pagination_terminates_witness :
  paginate 1 (one_page_world [] None []) (initial_state [])
    = Some (requested (FetchListings 0) (initial_state []), NoMorePostings).
Proof.
  apply (proj1 (proj2 (proj2 (proj2 (proj2 (proj2
           (pagination_terminates (one_page_world [] None []) []))))))
           0 (initial_state []) 0%Z).
  - vm_compute. lia.
  - vm_compute. lia.
  - reflexivity.
Defined.

(** C3 (the code at a URL that ends in a space).  A posting whose URL is a
    seen link is passed over before any look at its text and before any
    request.  But the seen links are the stripped links of the prior feed,
    while the URL of a posting is compared as it is: a posting with the URL
    "https://example.org/job/1 " is not found among the seen links of a prior
    feed that holds this very link, it is accepted again, and the merged
    output holds the URL twice although the prior feed held it once.  With
    the URL "https://example.org/job/1" the posting is passed over. *)
Theorem padded_url_duplicated :
  (forall w p st,
     set_mem (build_job_url (p_externalPath p)) (existing_links st) = true ->
     process_posting w p st = skipped st)
  /\ (forall item url st, set_mem url (existing_links (accepted item url st)) = true)
  /\ (let url := txt "https://example.org/job/1 " in
      let doc := feed_with (txt "Protection Officer P-3") url in
      let w := one_page_world (page_with (txt "Protection Officer P-3") url) None [] in
      load_existing_links doc = [txt "https://example.org/job/1"]
      /\ map link_of (load_existing_items doc) = [url]
      /\ exists old new,
           scrape_jobs w doc = Some [old; new]
           /\ link_of old = url /\ link_of new = url)
  /\ (let url := txt "https://example.org/job/1" in
      let doc := feed_with (txt "Protection Officer P-3") url in
      let w := one_page_world (page_with (txt "Protection Officer P-3") url) None [] in
      exists old, scrape_jobs w doc = Some [old] /\ link_of old = url).
Proof.
  split; [exact seen_posting_skipped|]. split; [exact accepted_link_seen|]. split.
  - cbv zeta. split; [vm_compute; reflexivity|]. split; [vm_compute; reflexivity|].
    eexists _, _. vm_compute. repeat split.
  - cbv zeta. eexists. vm_compute. repeat split.
Qed.

Lemma undecided_listing_excluded l :
  is_consultant l = false ->
  is_excluded_grade (normalize_text l) = false ->
  nonempty (detect_grades (normalize_text l)) = false ->
  is_intern_or_fellowship l = false ->
  should_include_job l = false.
Proof.
  intros H1 H2 H3 H4. rewrite is_excluded_grade_normalized in H2.
  rewrite detect_grades_normalized in H3.
  unfold should_include_job. now rewrite H1, H2, H3, H4.
Qed.

Lemma blank_cons_space d : blank d = true -> blank (txt " " ++ d) = true.
Proof. intro H. simpl. exact H. Qed.

(** A posting that is new and that its listing text does not decide, for
    which the structured detail of the expected types is absent or blank
    and the rendered page is absent or blank, is passed over. *)
Lemma undecided_without_detail_rejected (w : world) (p : posting) (st : state) :
  let title := strip (p_title p) in
  let job_url := build_job_url (p_externalPath p) in
  let listing_text := listing_text_of title (location_of p) (p_bulletFields p) in
  let asked_json := requested (FetchDetailJson (p_externalPath p)) st in
  let asked_html := requested (FetchDetailText job_url) asked_json in
  set_mem job_url (existing_links st) = false ->
  is_consultant listing_text = false ->
  is_excluded_grade (normalize_text listing_text) = false ->
  nonempty (detect_grades (normalize_text listing_text)) = false ->
  is_intern_or_fellowship listing_text = false ->
  match fetch_job_detail_json w (calls st) (p_externalPath p) with
  | Some job_desc => blank (join (txt " ") (detail_parts job_desc)) = true
  | None => True
  end ->
  blank (fetch_job_detail_text w (calls asked_json) job_url) = true ->
  should_include_job listing_text = false
  /\ process_posting w p st = skipped asked_html
  /\ included_jobs (process_posting w p st) = included_jobs st
  /\ existing_links (process_posting w p st) = existing_links st
  /\ total_processed (process_posting w p st) = S (total_processed st)
  /\ (forall rest, length (included_jobs st) < MAX_INCLUDED_JOBS ->
        process_postings w (p :: rest) st = process_postings w rest (skipped asked_html)).
Proof.
  intros title job_url listing_text asked_json asked_html
         Hnew Hc He Hg Hi Hjson Hhtml.
  pose proof (undecided_listing_excluded listing_text Hc He Hg Hi) as Hv.
  assert (Hskip : process_posting w p st = skipped asked_html).
  { unfold process_posting. fold title job_url listing_text.
    rewrite Hnew, Hc, He, Hg, Hi. cbn [orb].
    unfold gather_detail. fold asked_json.
    set (detail_text := match fetch_job_detail_json w (calls st) (p_externalPath p) with
                        | Some job_desc => join (txt " ") (detail_parts job_desc)
                        | None => []
                        end).
    assert (Hd : blank detail_text = true).
    { unfold detail_text.
      destruct (fetch_job_detail_json w (calls st) (p_externalPath p)); auto. }
    assert (Hv' : forall d, blank d = true ->
                    should_include_job (listing_text ++ txt " " ++ d) = false).
    { intros d Hbd. rewrite should_include_job_blank_suffix; auto using blank_cons_space. }
    rewrite (Hv' detail_text Hd). rewrite orb_true_r.
    fold asked_html.
    set (html_text := fetch_job_detail_text w (calls asked_json) job_url) in *.
    destruct (nonempty html_text); rewrite Hv' by assumption; reflexivity. }
  split; [exact Hv|]. split; [exact Hskip|].
  rewrite Hskip. repeat apply conj; try reflexivity.
  intros rest Hlen. cbn [process_postings].
  apply Nat.leb_gt in Hlen. now rewrite Hlen, Hskip.
Qed.

Lemma insert_sorted_In x y l : In y (insert_sorted x l) <-> y = x \/ In y l.
Proof.
  induction l as [|z l IH]; simpl.
  - intuition.
  - destruct (text_leb x z); simpl; [intuition|]. rewrite IH. intuition.
Qed.

Lemma sorted_In y l : In y (sorted l) <-> In y l.
Proof.
  induction l as [|x l IH]; simpl; [tauto|].
  rewrite insert_sorted_In, IH. intuition.
Qed.

Ltac run_example :=
  cbv zeta;
  match goal with
  | |- exists item, ?s = Some [item] /\ _ =>
      let r := eval vm_compute in s in
      match r with
      | Some [?i] => exists i; split; vm_compute; reflexivity
      end
  end.

Lemma job_item_fields w title job_url location listing_text posted_on st :
  let item := job_item_of w title job_url location listing_text posted_on st in
  title_of item = title /\ link_of item = job_url /\
  dict_get item (txt "description") []
    = join (txt " ") (desc_parts title location listing_text posted_on).
Proof.
  unfold job_item_of, title_of, link_of. cbv zeta. cbn [dict_get].
  repeat match goal with
         | |- context [text_eqb (txt ?a) (txt ?b)] =>
             let v := eval vm_compute in (text_eqb (txt a) (txt b)) in
             change (text_eqb (txt a) (txt b)) with v
         end.
  cbv iota. repeat split.
Qed.

(** C10. The description of an accepted posting is built from its title,
    its location, its listing text and its posting date alone, whatever the
    detail sources answered: its "Grade:" piece lists (sorted) the grades
    detected in the listing text, and is absent when there is none.  So a
    grade that stands in the detail text only is not listed, and a posting
    accepted on its detail text or on the intern/fellowship keyword, without
    a grade in its listing text, has no "Grade:" piece. *)
Theorem grade_line_from_listing (w : world) (p : posting) (st : state) :
  let title := strip (p_title p) in
  let job_url := build_job_url (p_externalPath p) in
  let location := location_of p in
  let posted_on := p_postedOn p in
  let listing_text := listing_text_of title location (p_bulletFields p) in
  let grades := detect_grades listing_text in
  (included_jobs (process_posting w p st) = included_jobs st \/
   exists item,
     included_jobs (process_posting w p st) = included_jobs st ++ [item] /\
     title_of item = title /\ link_of item = job_url /\
     dict_get item (txt "description") []
       = join (txt " ") (desc_parts title location listing_text posted_on))
  /\ desc_parts title location listing_text posted_on
     = [txt "UNHCR has a vacancy for the position of " ++ title ++ txt ".";
        txt "Location: " ++ location ++ txt "."]
       ++ (if nonempty grades
           then [txt "Grade: " ++ join (txt ", ") (sorted grades) ++ txt "."]
           else [])
       ++ (if nonempty posted_on then [txt "Posted: " ++ posted_on ++ txt "."] else [])
  /\ (forall g, In g (sorted grades) <->
                In g INCLUDED_GRADES /\ contains g (normalize_text listing_text) = true)
  /\ (let detail := JobPostingInfo (txt "Grade P-3, fixed term") [] [] [] in
      let w3 := one_page_world (page_with (txt "Protection Officer") (txt "/job/3"))
                  (Some detail) [] in
      exists item,
        scrape_jobs w3 [] = Some [item] /\
        dict_get item (txt "description") []
          = txt "UNHCR has a vacancy for the position of Protection Officer. Location: Geneva.")
  /\ (let w4 := one_page_world (page_with (txt "Legal Intern") (txt "/job/4")) None [] in
      exists item,
        scrape_jobs w4 [] = Some [item] /\
        dict_get item (txt "description") []
          = txt "UNHCR has a vacancy for the position of Legal Intern. Location: Geneva.")
  /\ (let w5 := one_page_world (page_with (txt "Protection Officer D1/p4") (txt "/job/5"))
                  None [] in
      exists item,
        scrape_jobs w5 [] = Some [item] /\
        dict_get item (txt "description") []
          = txt "UNHCR has a vacancy for the position of Protection Officer D1/p4. Location: Geneva. Grade: D-1, P-4.").
Proof.
  intros title job_url location posted_on listing_text grades.
  split; [|split; [|split; [|split; [|split]]]].
  - destruct (process_posting_outcome w p st) as (st1 & Hd & [E|[_ E]]);
      rewrite E; destruct Hd as (Hi & _); cbn [skipped accepted included_jobs];
      rewrite Hi; [now left | right].
    eexists. split; [reflexivity|]. apply job_item_fields.
  - unfold desc_parts, grades. rewrite detect_grades_normalized. reflexivity.
  - intro g. rewrite sorted_In. unfold grades, detect_grades.
    rewrite filter_In. reflexivity.
  - run_example.
  - run_example.
  - run_example.
Qed.

(** * The run on structured answers of any type *)







(** The outcome of a posting on every answer, case by case. *)
Lemma process_posting_raw_cases (rw : raw_world) (p : posting) (st : state) :
  let title := strip (p_title p) in
  let path := p_externalPath p in
  let job_url := build_job_url path in
  let location := location_of p in
  let listing_text := listing_text_of title location (p_bulletFields p) in
  let asked_json := requested (FetchDetailJson path) st in
  let asked_html := requested (FetchDetailText job_url) asked_json in
  let html_text := raw_fetch_job_detail_text rw (calls asked_json) job_url in
  let item s := job_item_of (typed_world rw) title job_url location listing_text
                            (p_postedOn p) s in
  process_posting_raw rw p st =
    if set_mem job_url (existing_links st) || is_consultant listing_text
       || is_excluded_grade listing_text
    then Returned (skipped st)
    else if should_include_job listing_text
    then Returned (accepted (item st) job_url st)
    else
      match detail_text_of (raw_fetch_job_detail_json rw (calls st) path) with
      | Raised e => Raised e
      | Returned json_text =>
          if nonempty json_text
             && should_include_job (listing_text ++ txt " " ++ json_text)
          then Returned (accepted (item asked_json) job_url asked_json)
          else if nonempty html_text
          then if should_include_job (listing_text ++ txt " " ++ html_text)
               then Returned (accepted (item asked_html) job_url asked_html)
               else Returned (skipped asked_html)
          else if should_include_job (listing_text ++ txt " " ++ json_text)
               then Returned (accepted (item asked_html) job_url asked_html)
               else Returned (skipped asked_html)
      end.
Proof.
  intros title path job_url location listing_text asked_json asked_html html_text item.
  unfold process_posting_raw. cbv zeta.
  fold title path job_url location listing_text.
  rewrite is_excluded_grade_normalized, detect_grades_normalized.
  destruct (set_mem job_url (existing_links st)); [reflexivity|].
  destruct (is_consultant listing_text) eqn:Hc; [reflexivity|].
  destruct (is_excluded_grade listing_text) eqn:He; [reflexivity|].
  cbn [orb]. rewrite (should_include_job_signals listing_text Hc He).
  destruct (nonempty (detect_grades listing_text) || is_intern_or_fellowship listing_text);
    [reflexivity|].
  unfold gather_detail_raw. fold asked_json. fold html_text asked_html.
  destruct (detail_text_of (raw_fetch_job_detail_json rw (calls st) path))
    as [json_text|e]; [|reflexivity].
  destruct (nonempty json_text); cbn [negb orb andb]; cbv beta iota.
  - destruct (should_include_job (listing_text ++ txt " " ++ json_text)) eqn:Hj;
      cbn [negb].
    + rewrite Hj. reflexivity.
    + destruct (nonempty html_text);
        [destruct (should_include_job (listing_text ++ txt " " ++ html_text))
        |rewrite Hj]; reflexivity.
  - destruct (nonempty html_text);
      [destruct (should_include_job (listing_text ++ txt " " ++ html_text))
      |destruct (should_include_job (listing_text ++ txt " " ++ json_text))];
      reflexivity.
Qed.

Lemma undecided_is_excluded l :
  is_consultant l = false -> is_excluded_grade l = false ->
  should_include_job l = false ->
  forall d, blank d = true -> should_include_job (l ++ txt " " ++ d) = false.
Proof.
  intros _ _ H d Hd.
  rewrite should_include_job_blank_suffix; [exact H | now apply blank_cons_space].
Qed.

(** C8 (the code at a structured answer with a field of another type).
    For a posting that is new and that its listing text leaves undecided:
    when the structured answer gives a blank text and the rendered page is
    blank, the posting is passed over and the loop goes on; but when the
    structured answer is not of the expected types, lines 455-462 raise an
    exception that nothing catches, the rest of the page is not looked at
    and the run ends without output.  So it is with a [null] under
    ["jobDescription"] ([TypeError]) or under ["jobPostingInfo"]
    ([AttributeError]); a [null] under ["jobReqSubCategory"], which goes
    through [str], raises nothing. *)
Theorem null_detail_field_raises :
  (forall rw p st d,
     let title := strip (p_title p) in
     let job_url := build_job_url (p_externalPath p) in
     let listing_text := listing_text_of title (location_of p) (p_bulletFields p) in
     let asked_json := requested (FetchDetailJson (p_externalPath p)) st in
     let asked_html := requested (FetchDetailText job_url) asked_json in
     set_mem job_url (existing_links st) = false ->
     is_consultant listing_text = false ->
     is_excluded_grade listing_text = false ->
     should_include_job listing_text = false ->
     detail_text_of (raw_fetch_job_detail_json rw (calls st) (p_externalPath p))
       = Returned d ->
     blank d = true ->
     blank (raw_fetch_job_detail_text rw (calls asked_json) job_url) = true ->
     process_posting_raw rw p st = Returned (skipped asked_html)
     /\ forall rest, length (included_jobs st) < MAX_INCLUDED_JOBS ->
          process_postings_raw rw (p :: rest) st
          = process_postings_raw rw rest (skipped asked_html))
  /\ (forall rw p st e,
        let title := strip (p_title p) in
        let job_url := build_job_url (p_externalPath p) in
        let listing_text := listing_text_of title (location_of p) (p_bulletFields p) in
        set_mem job_url (existing_links st) = false ->
        is_consultant listing_text = false ->
        is_excluded_grade listing_text = false ->
        should_include_job listing_text = false ->
        detail_text_of (raw_fetch_job_detail_json rw (calls st) (p_externalPath p))
          = Raised e ->
        process_posting_raw rw p st = Raised e
        /\ forall rest, length (included_jobs st) < MAX_INCLUDED_JOBS ->
             process_postings_raw rw (p :: rest) st = Raised e)
  /\ (forall a r s,
        detail_text_of (Object (Some (InfoObject (RawPostingInfo (Some JNull) a r s))))
        = Raised TypeError)
  /\ detail_text_of (Object (Some InfoOther)) = Raised AttributeError
  /\ detail_text_of NonObject = Raised AttributeError
  /\ detail_text_of (Object (Some (InfoObject
                       (RawPostingInfo None None (Some JNull) None))))
     = Returned (txt "  None ")
  /\ (let page := [Posting (txt "Protection Officer") (txt "/job/7") (txt "Geneva") [] [];
                   Posting (txt "Legal Officer P-3") (txt "/job/8") (txt "Geneva") [] []] in
      let null_description :=
        Object (Some (InfoObject (RawPostingInfo (Some JNull) None None None))) in
      let null_category :=
        Object (Some (InfoObject (RawPostingInfo None None (Some JNull) None))) in
      scrape_jobs_raw (one_page_raw_world page null_description []) []
        = Some (Raised TypeError)
      /\ scrape_jobs_raw (one_page_raw_world page (Object (Some InfoOther)) []) []
         = Some (Raised AttributeError)
      /\ (exists item,
            scrape_jobs_raw (one_page_raw_world page Falsy []) [] = Some (Returned [item])
            /\ title_of item = txt "Legal Officer P-3")
      /\ (exists item,
            scrape_jobs_raw (one_page_raw_world page null_category []) []
              = Some (Returned [item])
            /\ title_of item = txt "Legal Officer P-3")).
Proof.
  split; [|split; [|split; [|split; [|split; [|split]]]]].
  - intros rw p st d title job_url listing_text asked_json asked_html
           Hnew Hc He Hv Hd Hbd Hbh.
    assert (E : process_posting_raw rw p st = Returned (skipped asked_html)).
    { rewrite process_posting_raw_cases. cbv zeta.
      fold title job_url listing_text asked_json asked_html.
      rewrite Hnew, Hc, He, Hv, Hd. cbn [orb].
      rewrite (undecided_is_excluded listing_text Hc He Hv d Hbd), andb_false_r.
      destruct (nonempty _); [|reflexivity].
      now rewrite (undecided_is_excluded listing_text Hc He Hv _ Hbh). }
    split; [exact E|]. intros rest Hlen. cbn [process_postings_raw].
    apply Nat.leb_gt in Hlen. now rewrite Hlen, E.
  - intros rw p st e title job_url listing_text Hnew Hc He Hv Hd.
    assert (E : process_posting_raw rw p st = Raised e).
    { rewrite process_posting_raw_cases. cbv zeta.
      fold title job_url listing_text.
      now rewrite Hnew, Hc, He, Hv, Hd. }
    split; [exact E|]. intros rest Hlen. cbn [process_postings_raw].
    apply Nat.leb_gt in Hlen. now rewrite Hlen, E.
  - intros a r s. reflexivity.
  - reflexivity.
  - reflexivity.
  - reflexivity.
  - cbv zeta. split; [vm_compute; reflexivity|]. split; [vm_compute; reflexivity|].
    split.
    + match goal with
      | |- exists item, ?s = _ /\ _ =>
          let r := eval vm_compute in s in
          match r with
          | Some (Returned [?i]) => exists i; split; vm_compute; reflexivity
          end
      end.
    + match goal with
      | |- exists item, ?s = _ /\ _ =>
          let r := eval vm_compute in s in
          match r with
          | Some (Returned [?i]) => exists i; split; vm_compute; reflexivity
          end
      end.
Qed.

Lemma null_detail_field_raises_witness :
  let p := Posting (txt "Protection Officer") (txt "/job/7") (txt "Geneva") [] [] in
  let null_description :=
    Object (Some (InfoObject (RawPostingInfo (Some JNull) None None None))) in
  process_posting_raw (one_page_raw_world [p] null_description []) p (initial_state [])
  = Raised TypeError.
Proof.
  intros p null_description.
  apply (proj1 (proj2 null_detail_field_raises)
           (one_page_raw_world [p] null_description []) p (initial_state []) TypeError);
    vm_compute; reflexivity.
Defined.



(** * Further properties of the classifier *)

(** ** The shape of a normalized text *)

Lemma single_spaced_collapse_ws (t : list ascii) : single_spaced (collapse_ws t) = true.
Proof.
  revert t. apply (text_len_ind (fun t => single_spaced (collapse_ws t) = true)).
  intros t IH. destruct t as [|c t]; [reflexivity|].
  destruct (is_space c) eqn:E.
  - rewrite collapse_ws_space by assumption.
    change (txt " " ++ collapse_ws (lstrip t)) with (" "%char :: collapse_ws (lstrip t)).
    cbn [single_spaced]. rewrite IH by (pose proof (lstrip_length t); simpl; lia).
    rewrite collapse_ws_head by apply lstrip_head. reflexivity.
  - rewrite collapse_ws_nonspace by assumption.
    cbn [single_spaced]. rewrite E. cbn [andb]. apply IH. simpl. lia.
Qed.

Lemma single_spaced_lstrip t : single_spaced t = true -> single_spaced (lstrip t) = true.
Proof.
  induction t as [|c t IH]; [reflexivity|]. intro H.
  cbn [lstrip]. destruct (is_space c) eqn:E; [|exact H].
  apply IH. cbn [single_spaced] in H. apply andb_true_iff in H. tauto.
Qed.

Lemma head_nonspace_rstrip t : head_nonspace t = true -> head_nonspace (rstrip t) = true.
Proof.
  destruct t as [|c t]; [reflexivity|]. rewrite rstrip_cons. intro H.
  destruct (blank t); [|exact H].
  destruct (is_space c) eqn:E; [reflexivity|]. simpl. now rewrite E.
Qed.

Lemma single_spaced_rstrip t : single_spaced t = true -> single_spaced (rstrip t) = true.
Proof.
  induction t as [|c t IH]; [reflexivity|]. intro H.
  cbn [single_spaced] in H. apply andb_true_iff in H. destruct H as [Hc Ht].
  rewrite rstrip_cons. destruct (blank t).
  - destruct (is_space c) eqn:E; [reflexivity|]. simpl. now rewrite E.
  - cbn [single_spaced]. rewrite IH by assumption.
    destruct (is_space c); [|reflexivity].
    apply andb_true_iff in Hc. destruct Hc as [Hc1 Hc2].
    now rewrite Hc1, head_nonspace_rstrip.
Qed.

Lemma single_spaced_chars t :
  single_spaced t = true ->
  forallb (fun c => negb (is_space c) || Ascii.eqb c " ") t = true
  /\ contains (txt "  ") t = false.
Proof.
  induction t as [|c t IH]; [intros _; split; reflexivity|]. intro H.
  cbn [single_spaced] in H. apply andb_true_iff in H. destruct H as [Hc Ht].
  destruct (IH Ht) as [IH1 IH2]. split.
  - cbn [forallb]. rewrite IH1.
    destruct (is_space c); [|reflexivity].
    apply andb_true_iff in Hc. destruct Hc as [Hc _]. now rewrite Hc.
  - cbn [contains]. rewrite IH2, orb_false_r.
    change (txt "  ") with [" "%char; " "%char]. cbn [starts_with].
    destruct (Ascii.eqb " " c) eqn:E; [|reflexivity].
    apply Ascii.eqb_eq in E. subst c. simpl in Hc.
    destruct t as [|d t]; [reflexivity|]. simpl in Hc.
    destruct (Ascii.eqb " " d) eqn:E'; [|reflexivity].
    apply Ascii.eqb_eq in E'. subst d. discriminate.
Qed.

Lemma strip_ends t :
  head_nonspace (strip t) = true /\ rstrip (strip t) = strip t.
Proof.
  unfold strip. split.
  - apply head_nonspace_rstrip, lstrip_head.
  - apply rstrip_idem.
Qed.

(** X1. A normalized text is in capitals, has no white space at either end,
    and its only white space is single spaces between other characters. *)
Theorem normalize_text_canonical (t : text) :
  let n := normalize_text t in
  upper n = n
  /\ strip n = n
  /\ collapse_ws n = n
  /\ forallb (fun c => negb (is_space c) || Ascii.eqb c " ") n = true
  /\ contains (txt "  ") n = false
  /\ starts_with (txt " ") n = false
  /\ lstrip n = n /\ rstrip n = n.
Proof.
  intro n. unfold n.
  assert (Hs : single_spaced (normalize_text t) = true).
  { rewrite normalize_text_eq. unfold strip.
    apply single_spaced_rstrip, single_spaced_lstrip, single_spaced_collapse_ws. }
  destruct (single_spaced_chars _ Hs) as [H1 H2].
  assert (Hh : head_nonspace (normalize_text t) = true)
    by (rewrite normalize_text_eq; apply strip_ends).
  repeat apply conj; auto.
  - rewrite normalize_text_eq, upper_strip, <- collapse_ws_upper, upper_idem. reflexivity.
  - rewrite normalize_text_eq. apply strip_idem.
  - rewrite normalize_text_eq, <- strip_collapse_ws, collapse_ws_idem. reflexivity.
  - destruct (normalize_text t) as [|c u]; [reflexivity|].
    simpl in Hh. change (txt " ") with [" "%char]. cbn [starts_with].
    destruct (Ascii.eqb " " c) eqn:E; [|reflexivity].
    apply Ascii.eqb_eq in E. subst c. discriminate.
  - now apply lstrip_fixed.
  - rewrite normalize_text_eq. apply strip_ends.
Qed.

(** ** Capitals and surrounding white space *)

Lemma search_up r t : forall wb,
  case_blind true r = true ->
  is_some (search_from true r wb (upper t)) = is_some (search_from true r wb t).
Proof.
  intros wb Hr. revert wb. induction t as [|c t IH]; intro wb.
  - cbn [upper map search_from]. change (@nil ascii) with (upper []).
    rewrite match_at_up by assumption.
    destruct (match_at true r wb []); reflexivity.
  - change (upper (c :: t)) with (to_upper c :: upper t). cbn [search_from].
    change (to_upper c :: upper t) with (upper (c :: t)).
    rewrite match_at_up by assumption. rewrite word_to_upper.
    destruct (match_at true r wb (c :: t)); [reflexivity | apply IH].
Qed.

Lemma normalize_text_upper t : normalize_text (upper t) = normalize_text t.
Proof.
  rewrite !normalize_text_eq. now rewrite expand_grades_upper, upper_idem.
Qed.

(** X2. On an ASCII text the classifier does not tell the text from the
    same text in capitals: the normalized text, the detected grades, the
    three predicates and the verdict are the same. *)
Theorem classification_ignores_case (t : text) :
  ascii_text t = true ->
  normalize_text (upper t) = normalize_text t
  /\ detect_grades (upper t) = detect_grades t
  /\ is_excluded_grade (upper t) = is_excluded_grade t
  /\ is_consultant (upper t) = is_consultant t
  /\ is_intern_or_fellowship (upper t) = is_intern_or_fellowship t
  /\ should_include_job (upper t) = should_include_job t.
Proof.
  intros _.
  assert (Hc : is_consultant (upper t) = is_consultant t).
  { unfold is_consultant. rewrite !re_search_is_some.
    apply search_up. vm_compute. reflexivity. }
  assert (Hi : is_intern_or_fellowship (upper t) = is_intern_or_fellowship t).
  { unfold is_intern_or_fellowship. rewrite !re_search_is_some.
    apply search_up. vm_compute. reflexivity. }
  unfold should_include_job, is_excluded_grade, detect_grades.
  rewrite Hc, Hi, normalize_text_upper. repeat split.
Qed.

Lemma classification_ignores_case_witness :
  should_include_job (txt "SENIOR LEGAL OFFICER (P4), GENEVA")
  = should_include_job (txt "Senior legal officer (p4), Geneva").
Proof.
  apply (proj2 (proj2 (proj2 (proj2 (proj2
           (classification_ignores_case (txt "Senior legal officer (p4), Geneva")
              eq_refl)))))).
Defined.

Lemma lstrip_blank_prefix ws t : blank ws = true -> lstrip (ws ++ t) = lstrip t.
Proof.
  induction ws as [|c ws IH]; [reflexivity|]. simpl. intro H.
  apply andb_true_iff in H. destruct H as [Hc Hw]. rewrite Hc. auto.
Qed.

Lemma search_blank_prefix ic r ws t :
  word_only ic r = true -> needs_char r = true -> blank ws = true ->
  search_from ic r false (ws ++ t) = search_from ic r false t.
Proof.
  intros Hw Hn. induction ws as [|c ws IH]; [reflexivity|]. simpl. intro H.
  apply andb_true_iff in H. destruct H as [Hc Hb].
  pose proof (space_not_word c Hc) as Hnw.
  rewrite match_at_nonword by (auto; simpl; exact Hnw).
  rewrite Hnw. auto.
Qed.

Lemma normalize_text_blank_prefix ws t :
  blank ws = true -> normalize_text (ws ++ t) = normalize_text t.
Proof.
  intro H. rewrite !normalize_text_strip_first. unfold strip.
  now rewrite lstrip_blank_prefix.
Qed.

Lemma should_include_job_blank_prefix ws t :
  blank ws = true -> should_include_job (ws ++ t) = should_include_job t.
Proof.
  intro H.
  unfold should_include_job, is_excluded_grade, detect_grades,
    is_consultant, is_intern_or_fellowship, re_search.
  rewrite normalize_text_blank_prefix by assumption.
  rewrite (search_blank_prefix true CONSULTANT_RE ws t)
    by first [assumption | vm_compute; reflexivity].
  rewrite (search_blank_prefix true INTERN_FELLOWSHIP_RE ws t)
    by first [assumption | vm_compute; reflexivity].
  reflexivity.
Qed.

(** X3. White space before and after a text changes neither its normalized
    form nor the verdict on it. *)
Theorem verdict_ignores_surrounding_space (before t after : text) :
  blank before = true -> blank after = true ->
  normalize_text (before ++ t ++ after) = normalize_text t
  /\ should_include_job (before ++ t ++ after) = should_include_job t.
Proof.
  intros Hb Ha. split.
  - now rewrite normalize_text_blank_prefix, normalize_text_blank_suffix.
  - now rewrite should_include_job_blank_prefix, should_include_job_blank_suffix.
Qed.

Lemma verdict_ignores_surrounding_space_witness :
  should_include_job (txt "   Protection Officer P-3  ")
    = should_include_job (txt "Protection Officer P-3").
Proof.
  apply (proj2 (verdict_ignores_surrounding_space
                  (txt "   ") (txt "Protection Officer P-3") (txt "  ")
                  eq_refl eq_refl)).
Defined.

(** ** Grades are looked for as parts of the text *)

Lemma word_suffix_split (a : list ascii) :
  exists a0 w1, a = a0 ++ w1 /\ forallb is_word w1 = true /\ wb_after false a0 = false.
Proof.
  induction a as [|c a IH] using rev_ind.
  - exists [], []. repeat split.
  - destruct (is_word c) eqn:E.
    + destruct IH as (a0 & w1 & -> & Hw & Ha).
      exists a0, (w1 ++ [c]). rewrite app_assoc. repeat split; auto.
      rewrite forallb_app, Hw. simpl. now rewrite E.
    + exists (a ++ [c]), []. rewrite app_nil_r. repeat split.
      now rewrite wb_after_last.
Qed.

Lemma word_ending_in_letter w x :
  forallb is_word w = true -> is_letter x = true ->
  expand_grades (w ++ [x]) = w ++ [x].
Proof.
  intros Hw Hx.
  destruct (expand_grades_word (w ++ [x])) as [E|(cat & ds & Hs & _ & _ & Hd & Hdl & _)].
  - rewrite forallb_app, Hw. simpl. now rewrite (letter_is_word x Hx).
  - exact E.
  - exfalso. destruct (exists_last Hd) as (ds' & y & ->).
    rewrite app_assoc in Hs. apply app_inj_tail in Hs. destruct Hs as [_ <-].
    rewrite forallb_app in Hdl. simpl in Hdl.
    apply andb_true_iff in Hdl. destruct Hdl as [_ Hdl].
    apply andb_true_iff in Hdl. destruct Hdl as [Hdl _].
    apply letter_not_digit in Hx. congruence.
Qed.

Lemma word_starting_with_digit d w :
  is_digit d = true -> forallb is_word w = true ->
  expand_grades (d :: w) = d :: w.
Proof.
  intros Hd Hw.
  destruct (expand_grades_word (d :: w)) as [E|(cat & ds & Hs & Hc & Hcl & _)].
  - simpl. now rewrite (digit_is_word d Hd), Hw.
  - exact E.
  - exfalso. destruct cat as [|x cat]; [congruence|].
    simpl in Hs. injection Hs as <- _. simpl in Hcl.
    apply andb_true_iff in Hcl. destruct Hcl as [Hcl _].
    apply letter_not_digit in Hcl. congruence.
Qed.

Lemma grade_code_kept (x d : ascii) (a b : list ascii) :
  is_letter x = true -> to_upper x = x -> is_digit d = true ->
  contains [x; "-"%char; d] (normalize_text (a ++ [x; "-"%char; d] ++ b)) = true.
Proof.
  intros Hx Hux Hd.
  destruct (word_suffix_split a) as (a0 & w1 & -> & Hw1 & Ha0).
  pose proof (word_span_spec b) as Hb.
  destruct (word_span b) as [w2 b0]. destruct Hb as (-> & Hw2 & Hb0).
  rewrite normalize_text_eq.
  replace ((a0 ++ w1) ++ [x; "-"%char; d] ++ w2 ++ b0)
    with (a0 ++ (w1 ++ [x]) ++ "-"%char :: ((d :: w2) ++ b0))
    by (rewrite <- !app_assoc; reflexivity).
  assert (Hshape : forall u v : list ascii,
            u ++ (w1 ++ [x]) ++ "-"%char :: (d :: w2) ++ v
            = (u ++ w1) ++ [x; "-"%char; d] ++ (w2 ++ v))
    by (intros; rewrite <- !app_assoc; reflexivity).
  rewrite expand_grades_app by assumption.
  rewrite expand_grades_word_app;
    [ | destruct w1; discriminate
      | rewrite forallb_app, Hw1; simpl; now rewrite (letter_is_word x Hx)
      | reflexivity ].
  rewrite word_ending_in_letter by assumption.
  rewrite expand_grades_nonword by reflexivity.
  rewrite expand_grades_word_app;
    [ | discriminate
      | simpl; now rewrite (digit_is_word d Hd), Hw2
      | assumption ].
  rewrite word_starting_with_digit by assumption.
  rewrite Hshape.
  rewrite (upper_app (expand_grades a0 ++ w1)), (upper_app [x; "-"%char; d]).
  assert (Hup : upper [x; "-"%char; d] = [x; "-"%char; d]).
  { unfold upper. cbn [map]. rewrite Hux, (to_upper_digit d Hd). reflexivity. }
  rewrite Hup.
  destruct (strip_collapse_mid (upper (expand_grades a0 ++ w1)) [x; "-"%char; d]
              (upper (w2 ++ expand_grades b0))) as (x' & y' & E).
  - discriminate.
  - unfold nospace. cbn [forallb].
    pose proof (letter_is_word x Hx) as Hwx. pose proof (digit_is_word d Hd) as Hwd.
    destruct (is_space x) eqn:Ex; [apply space_not_word in Ex; congruence|].
    destruct (is_space d) eqn:Ed; [apply space_not_word in Ed; congruence|].
    reflexivity.
  - rewrite E. apply contains_mid.
Qed.

(** X4. A grade code is detected wherever it occurs in the text, also
    inside a longer token: every text that holds one of the seven codes is
    reported to hold that grade, so "P-10" and "STEP-1" count as P-1. *)
Theorem grade_detected_anywhere (g : text) (a b : text) :
  In g INCLUDED_GRADES ->
  In g (detect_grades (a ++ g ++ b))
  /\ (is_consultant (a ++ g ++ b) = false -> is_excluded_grade (a ++ g ++ b) = false ->
      should_include_job (a ++ g ++ b) = true).
Proof.
  intro Hg.
  assert (Hin : In g (detect_grades (a ++ g ++ b))).
  { unfold detect_grades. apply filter_In. split; [exact Hg|].
    unfold INCLUDED_GRADES in Hg. simpl in Hg.
    repeat (destruct Hg as [<-|Hg];
            [cbv [txt list_ascii_of_string]; apply grade_code_kept; reflexivity|]).
    contradiction. }
  split; [exact Hin|].
  intros H1 H2. unfold should_include_job. rewrite H1, H2.
  destruct (detect_grades (a ++ g ++ b)); [contradiction | reflexivity].
Qed.

Lemma grade_detected_anywhere_witness :
  In (txt "P-1") (detect_grades (txt "STEP-1 of the selection"))
  /\ should_include_job (txt "STEP-1 of the selection") = true.
Proof.
  destruct (grade_detected_anywhere (txt "P-1") (txt "STE") (txt " of the selection"))
    as [H1 H2].
  - simpl. left. reflexivity.
  - split; [exact H1|]. apply H2; vm_compute; reflexivity.
Defined.

(** * The helpers of the feed *)

(** ** [build_job_url] *)

Lemma starts_with_prefix (p t : text) : starts_with p (p ++ t) = true.
Proof.
  induction p as [|c p IH]; [reflexivity|].
  simpl. now rewrite Ascii.eqb_refl, IH.
Qed.

(** X5. The URL of a posting always starts with "http"; building the URL of
    a URL changes nothing; a path that does not start with "http" is put
    behind the address of the site, and two such paths with the same URL are
    the same path. *)
Theorem build_job_url_absolute (p : text) :
  starts_with (txt "http") (build_job_url p) = true
  /\ build_job_url (build_job_url p) = build_job_url p
  /\ (starts_with (txt "http") p = true -> build_job_url p = p)
  /\ (starts_with (txt "http") p = false -> build_job_url p = BASE_URL ++ p)
  /\ (forall q, starts_with (txt "http") p = false ->
                starts_with (txt "http") q = false ->
                build_job_url p = build_job_url q -> p = q).
Proof.
  assert (H : starts_with (txt "http") (build_job_url p) = true).
  { unfold build_job_url. destruct (starts_with (txt "http") p) eqn:E; [exact E|].
    reflexivity. }
  split; [exact H|]. split; [|split; [|split]].
  - unfold build_job_url at 1. now rewrite H.
  - intro E. unfold build_job_url. now rewrite E.
  - intro E. unfold build_job_url. now rewrite E.
  - intros q Ep Eq. unfold build_job_url. rewrite Ep, Eq. apply app_inv_head.
Qed.

Lemma build_job_url_absolute_witness :
  build_job_url (txt "/job/Geneva/Officer_JR1") = BASE_URL ++ txt "/job/Geneva/Officer_JR1"
  /\ build_job_url (txt "https://example.org/job/1") = txt "https://example.org/job/1".
Proof.
  split.
  - apply (proj1 (proj2 (proj2 (proj2
             (build_job_url_absolute (txt "/job/Geneva/Officer_JR1")))))).
    reflexivity.
  - apply (proj1 (proj2 (proj2
             (build_job_url_absolute (txt "https://example.org/job/1"))))).
    reflexivity.
Defined.

(** ** [clean_xml_text] *)

(** A class of code points from 256 on holds no character of the
    embedding. *)
Lemma codes_high c l :
  forallb (fun n => 256 <=? n)%N l = true -> accepts false (Codes l) c = false.
Proof.
  intro H. cbn [accepts]. induction l as [|n l IH]; [reflexivity|].
  cbn [forallb] in H. apply andb_true_iff in H. destruct H as [Hn Hl].
  cbn [existsb]. rewrite (IH Hl), orb_false_r.
  apply N.eqb_neq. apply N.leb_le in Hn.
  pose proof (N_ascii_bounded c) as Hc. unfold code. lia.
Qed.

Lemma xml_high_codes c :
  accepts false (Codes (code_range 55296 2048 ++ code_range 64976 32
                        ++ [65534; 65535]%N)) c = false.
Proof. apply codes_high. vm_compute. reflexivity. Qed.

Lemma xml_illegal_match c t wb :
  match_at false XML_ILLEGAL_RE wb (c :: t)
  = if xml_illegal c then Some (MPos (is_word c) t []) else None.
Proof.
  unfold match_at, XML_ILLEGAL_RE. cbn [alt_re run m_rest m_caps].
  rewrite xml_high_codes. each_char c; reflexivity.
Qed.

Lemma clean_xml_text_sub t : forall wb,
  sub_from false XML_ILLEGAL_RE (fun _ => []) 0 wb t
  = filter (fun c => negb (xml_illegal c)) t.
Proof.
  induction t as [|c t IH]; intro wb; [reflexivity|].
  cbn [filter]. destruct (xml_illegal c) eqn:E; cbn [negb].
  - change (c :: t) with ([c] ++ t) at 1.
    rewrite (sub_match false XML_ILLEGAL_RE (fun _ => []) wb [c] t
               (MPos (is_word c) t [])).
    + cbn [app m_caps]. apply IH.
    + discriminate.
    + cbn [app]. now rewrite xml_illegal_match, E.
    + reflexivity.
  - rewrite sub_nomatch by now rewrite xml_illegal_match, E.
    now rewrite IH.
Qed.

Lemma clean_xml_text_eq t : clean_xml_text t = filter (fun c => negb (xml_illegal c)) t.
Proof. apply clean_xml_text_sub. Qed.

Lemma filter_idem {A} (f : A -> bool) l : filter f (filter f l) = filter f l.
Proof.
  induction l as [|x l IH]; [reflexivity|].
  simpl. destruct (f x) eqn:E; simpl; [rewrite E|]; now rewrite IH.
Qed.

(** X6. [clean_xml_text] removes the characters of the class and nothing
    else: it keeps the other characters in their order; cleaning twice is
    cleaning once, cleaning goes through concatenation, and the result is
    never longer than the text. *)
Theorem clean_xml_text_filter (t : text) :
  clean_xml_text t = filter (fun c => negb (xml_illegal c)) t
  /\ clean_xml_text (clean_xml_text t) = clean_xml_text t
  /\ (forall c, In c (clean_xml_text t) <-> In c t /\ xml_illegal c = false)
  /\ (forall u, clean_xml_text (t ++ u) = clean_xml_text t ++ clean_xml_text u)
  /\ length (clean_xml_text t) <= length t.
Proof.
  split; [apply clean_xml_text_eq|]. split; [|split; [|split]].
  - rewrite !clean_xml_text_eq. apply filter_idem.
  - intro c. rewrite clean_xml_text_eq, filter_In, negb_true_iff. reflexivity.
  - intro u. rewrite !clean_xml_text_eq. apply filter_app.
  - rewrite clean_xml_text_eq. apply filter_length_le.
Qed.

(** ** The numeric identifier *)

Lemma code_digit n : (n < 10)%N -> code (ascii_of_N (48 + n)) = (48 + n)%N.
Proof.
  intro H. unfold code. apply N_ascii_embedding. lia.
Qed.

Lemma digits_value_app a b :
  digits_value (a ++ b)
  = fold_left (fun v c => (10 * v + (code c - 48))%N) b (digits_value a).
Proof. unfold digits_value. apply fold_left_app. Qed.

Lemma digits_of_spec : forall fuel n,
  (n < 10 ^ N.of_nat fuel)%N -> fuel <> 0 ->
  forallb is_digit (digits_of fuel n) = true
  /\ digits_value (digits_of fuel n) = n
  /\ (forall k, (n < 10 ^ N.of_nat k)%N -> 1 <= k -> length (digits_of fuel n) <= k)
  /\ 1 <= length (digits_of fuel n).
Proof.
  induction fuel as [|fuel IH]; intros n Hn Hf; [congruence|].
  - cbn [digits_of]. destruct (n <? 10)%N eqn:E.
    + apply N.ltb_lt in E. repeat apply conj.
      * cbn [forallb]. unfold is_digit, in_range. rewrite code_digit by assumption.
        rewrite andb_true_r. apply andb_true_iff. split; apply N.leb_le; lia.
      * unfold digits_value. cbn [fold_left]. rewrite code_digit by assumption. lia.
      * intros k _ Hk. simpl. lia.
      * simpl. lia.
    + apply N.ltb_ge in E.
      rewrite Nat2N.inj_succ, N.pow_succ_r' in Hn.
      assert (Hq : (n / 10 < 10 ^ N.of_nat fuel)%N)
        by (apply N.Div0.div_lt_upper_bound; lia).
      assert (Hf' : fuel <> 0).
      { intros ->. change (10 * 10 ^ N.of_nat 0)%N with 10%N in Hn. lia. }
      destruct (IH (n / 10)%N Hq Hf') as (H1 & H2 & H3 & H4).
      assert (Hm : (n mod 10 < 10)%N) by (apply N.mod_lt; lia).
      repeat apply conj.
      * rewrite forallb_app, H1. cbn [forallb andb].
        unfold is_digit, in_range. rewrite code_digit by assumption.
        rewrite andb_true_r. apply andb_true_iff.
        clear - Hm. set (d := (n mod 10)%N) in *. clearbody d.
        split; apply N.leb_le; lia.
      * rewrite digits_value_app, H2. cbn [fold_left].
        rewrite code_digit by assumption.
        pose proof (N.div_mod n 10) as Hdm. clear - Hm Hdm.
        set (d := (n mod 10)%N) in *. set (q := (n / 10)%N) in *.
        clearbody d q. lia.
      * intros k Hk Hk1. rewrite length_app. cbn [length].
        destruct k as [|k]; [lia|]. destruct k as [|k].
        -- change (10 ^ N.of_nat 1)%N with 10%N in Hk. lia.
        -- rewrite Nat2N.inj_succ, N.pow_succ_r' in Hk.
           assert (Hq' : (n / 10 < 10 ^ N.of_nat (S k))%N)
             by (apply N.Div0.div_lt_upper_bound; lia).
           specialize (H3 (S k) Hq'). lia.
      * rewrite length_app. simpl. lia.
Qed.

Lemma str_N_fuel n : (n < 10 ^ N.of_nat (S (N.to_nat (N.log2 n))))%N.
Proof.
  rewrite Nat2N.inj_succ, N2Nat.id.
  destruct (N.eq_dec n 0) as [->|Hn]; [reflexivity|].
  apply N.lt_le_trans with (2 ^ N.succ (N.log2 n))%N.
  - apply N.log2_spec. lia.
  - apply N.pow_le_mono_l. lia.
Qed.

Lemma digits_value_zeros k s :
  digits_value (repeat "0"%char k ++ s) = digits_value s.
Proof.
  rewrite digits_value_app.
  assert (E : digits_value (repeat "0"%char k) = 0%N).
  { induction k as [|k IH]; [reflexivity|].
    change (repeat "0"%char (S k)) with (["0"%char] ++ repeat "0"%char k).
    rewrite digits_value_app. exact IH. }
  now rewrite E.
Qed.

(** X7. The identifier made from a hash is always a text of exactly 16
    decimal digits, and these digits write the hash modulo 10^16; so two
    hashes that differ by 10^16 get the same identifier. *)
Theorem numeric_id_sixteen_digits (h : N) :
  length (numeric_id h) = 16
  /\ forallb is_digit (numeric_id h) = true
  /\ digits_value (numeric_id h) = (h mod 10000000000000000)%N
  /\ numeric_id (h + 10000000000000000) = numeric_id h.
Proof.
  unfold numeric_id, zfill, str_N.
  set (m := (h mod 10000000000000000)%N).
  assert (Hm : (m < 10000000000000000)%N) by (apply N.mod_lt; lia).
  destruct (digits_of_spec _ m (str_N_fuel m) (Nat.neq_succ_0 _)) as (H1 & H2 & H3 & H4).
  specialize (H3 16 Hm). repeat apply conj.
  - rewrite length_app, repeat_length. lia.
  - rewrite forallb_app, H1, andb_true_r.
    apply forallb_forall. intros c Hc. apply repeat_spec in Hc. now subst.
  - rewrite digits_value_zeros. exact H2.
  - replace ((h + 10000000000000000) mod 10000000000000000)%N with m; [reflexivity|].
    unfold m. symmetry.
    change (h + 10000000000000000)%N with (h + 1 * 10000000000000000)%N.
    apply N.Div0.mod_add.
Qed.

(** * Further properties of the run *)

(** ** One posting *)

(** The outcome of a posting, case by case. *)
Lemma process_posting_cases (w : world) (p : posting) (st : state) :
  let title := strip (p_title p) in
  let path := p_externalPath p in
  let job_url := build_job_url path in
  let location := location_of p in
  let listing_text := listing_text_of title location (p_bulletFields p) in
  let json_text := match fetch_job_detail_json w (calls st) path with
                   | Some job_desc => join (txt " ") (detail_parts job_desc)
                   | None => []
                   end in
  let asked_json := requested (FetchDetailJson path) st in
  let asked_html := requested (FetchDetailText job_url) asked_json in
  let html_text := fetch_job_detail_text w (calls asked_json) job_url in
  let item s := job_item_of w title job_url location listing_text (p_postedOn p) s in
  process_posting w p st =
    if set_mem job_url (existing_links st) || is_consultant listing_text
       || is_excluded_grade listing_text
    then skipped st
    else if should_include_job listing_text then accepted (item st) job_url st
    else if nonempty json_text
            && should_include_job (listing_text ++ txt " " ++ json_text)
    then accepted (item asked_json) job_url asked_json
    else if should_include_job
              (listing_text ++ txt " "
                 ++ (if nonempty html_text then html_text else json_text))
    then accepted (item asked_html) job_url asked_html
    else skipped asked_html.
Proof.
  intros title path job_url location listing_text json_text asked_json asked_html
         html_text item.
  unfold process_posting.
  fold title path job_url location listing_text.
  rewrite is_excluded_grade_normalized, detect_grades_normalized.
  destruct (set_mem job_url (existing_links st)); [reflexivity|].
  destruct (is_consultant listing_text) eqn:Hc; [reflexivity|].
  destruct (is_excluded_grade listing_text) eqn:He; [reflexivity|].
  cbn [orb]. rewrite (should_include_job_signals listing_text Hc He).
  destruct (nonempty (detect_grades listing_text) || is_intern_or_fellowship listing_text);
    [reflexivity|].
  unfold gather_detail. fold json_text asked_json. fold html_text asked_html.
  destruct (nonempty json_text); cbn [negb orb andb]; cbv beta iota.
  - destruct (should_include_job (listing_text ++ txt " " ++ json_text)) eqn:Hj;
      cbn [negb].
    + rewrite Hj. reflexivity.
    + destruct (nonempty html_text);
        [destruct (should_include_job (listing_text ++ txt " " ++ html_text))
        |destruct (should_include_job (listing_text ++ txt " " ++ json_text))];
        reflexivity.
  - destruct (nonempty html_text);
      [destruct (should_include_job (listing_text ++ txt " " ++ html_text))
      |destruct (should_include_job (listing_text ++ txt " " ++ json_text))];
      reflexivity.
Qed.

Lemma process_posting_calls (w : world) (p : posting) (st : state) :
  let title := strip (p_title p) in
  let path := p_externalPath p in
  let job_url := build_job_url path in
  let listing_text := listing_text_of title (location_of p) (p_bulletFields p) in
  let decided :=
    set_mem job_url (existing_links st) || is_consultant listing_text
    || is_excluded_grade listing_text || should_include_job listing_text in
  let json_text := match fetch_job_detail_json w (calls st) path with
                   | Some job_desc => join (txt " ") (detail_parts job_desc)
                   | None => []
                   end in
  calls (process_posting w p st) =
    if decided then calls st
    else if nonempty json_text
            && should_include_job (listing_text ++ txt " " ++ json_text)
    then FetchDetailJson path :: calls st
    else FetchDetailText job_url :: FetchDetailJson path :: calls st.
Proof.
  intros title path job_url listing_text decided json_text. unfold decided.
  rewrite process_posting_cases. cbv zeta.
  fold title path job_url listing_text json_text.
  destruct (set_mem job_url (existing_links st) || is_consultant listing_text
            || is_excluded_grade listing_text); [reflexivity|].
  cbn [orb].
  destruct (should_include_job listing_text); [reflexivity|].
  destruct (nonempty json_text
            && should_include_job (listing_text ++ txt " " ++ json_text));
    [reflexivity|].
  match goal with |- context [if ?b then accepted _ _ _ else _] => destruct b end;
    reflexivity.
Qed.

(** X8. The requests made for one posting.  None is made when the posting
    is a seen link or its listing text decides (consultant, excluded grade,
    or eligible).  Otherwise the structured detail is requested, and the
    rendered page is requested after it exactly when the structured text is
    empty or does not make the posting eligible. *)
Theorem detail_requests_of_posting (w : world) (p : posting) (st : state) :
  let title := strip (p_title p) in
  let path := p_externalPath p in
  let job_url := build_job_url path in
  let listing_text := listing_text_of title (location_of p) (p_bulletFields p) in
  let decided :=
    set_mem job_url (existing_links st) || is_consultant listing_text
    || is_excluded_grade listing_text || should_include_job listing_text in
  let json_text := match fetch_job_detail_json w (calls st) path with
                   | Some job_desc => join (txt " ") (detail_parts job_desc)
                   | None => []
                   end in
  calls (process_posting w p st) =
    if decided then calls st
    else if nonempty json_text
            && should_include_job (listing_text ++ txt " " ++ json_text)
    then FetchDetailJson path :: calls st
    else FetchDetailText job_url :: FetchDetailJson path :: calls st.
Proof. exact (process_posting_calls w p st). Qed.

Lemma set_add_new x s : set_mem x s = false -> set_add x s = s ++ [x].
Proof. intro H. unfold set_add. now rewrite H. Qed.

Lemma process_posting_links (w : world) (p : posting) (st : state) :
  let title := strip (p_title p) in
  let path := p_externalPath p in
  let job_url := build_job_url path in
  let listing_text := listing_text_of title (location_of p) (p_bulletFields p) in
  let json_text := match fetch_job_detail_json w (calls st) path with
                   | Some job_desc => join (txt " ") (detail_parts job_desc)
                   | None => []
                   end in
  let html_text :=
    fetch_job_detail_text w (FetchDetailJson path :: calls st) job_url in
  let detail_text :=
    if nonempty json_text && should_include_job (listing_text ++ txt " " ++ json_text)
    then json_text
    else if nonempty html_text then html_text else json_text in
  let eligible :=
    negb (set_mem job_url (existing_links st))
    && negb (is_consultant listing_text)
    && negb (is_excluded_grade listing_text)
    && (should_include_job listing_text
        || should_include_job (listing_text ++ txt " " ++ detail_text)) in
  map link_of (included_jobs (process_posting w p st))
    = map link_of (included_jobs st) ++ (if eligible then [job_url] else [])
  /\ existing_links (process_posting w p st)
     = existing_links st ++ (if eligible then [job_url] else [])
  /\ total_processed (process_posting w p st) = S (total_processed st).
Proof.
  intros title path job_url listing_text json_text html_text detail_text eligible.
  subst eligible detail_text.
  rewrite process_posting_cases. cbv zeta.
  fold title path job_url listing_text json_text.
  change (calls (requested (FetchDetailJson path) st))
    with (FetchDetailJson path :: calls st).
  fold html_text.
  assert (Hacc : forall s item,
            included_jobs s = included_jobs st -> existing_links s = existing_links st ->
            total_processed s = total_processed st ->
            link_of item = job_url ->
            set_mem job_url (existing_links st) = false ->
            map link_of (included_jobs (accepted item job_url s))
              = map link_of (included_jobs st) ++ [job_url]
            /\ existing_links (accepted item job_url s) = existing_links st ++ [job_url]
            /\ total_processed (accepted item job_url s) = S (total_processed st)).
  { intros s item H1 H2 H3 H4 H5. cbn [accepted included_jobs existing_links total_processed].
    rewrite H1, H2, H3, map_app. cbn [map]. rewrite H4, set_add_new by assumption.
    repeat split. }
  assert (Hskip : forall s,
            included_jobs s = included_jobs st -> existing_links s = existing_links st ->
            total_processed s = total_processed st ->
            map link_of (included_jobs (skipped s)) = map link_of (included_jobs st) ++ []
            /\ existing_links (skipped s) = existing_links st ++ []
            /\ total_processed (skipped s) = S (total_processed st)).
  { intros s H1 H2 H3. cbn [skipped included_jobs existing_links total_processed].
    rewrite H1, H2, H3, !app_nil_r. repeat split. }
  assert (Hlink : forall s, link_of (job_item_of w title job_url (location_of p)
                              listing_text (p_postedOn p) s) = job_url)
    by (intro s; apply job_item_fields).
  destruct (set_mem job_url (existing_links st)) eqn:Hm;
    [cbn [orb negb andb]; now apply Hskip|].
  destruct (is_consultant listing_text);
    [cbn [orb negb andb]; now apply Hskip|].
  destruct (is_excluded_grade listing_text);
    [cbn [orb negb andb]; now apply Hskip|].
  cbn [orb negb andb].
  destruct (should_include_job listing_text);
    [cbn [orb]; now apply Hacc|].
  cbn [orb].
  destruct (nonempty json_text
            && should_include_job (listing_text ++ txt " " ++ json_text)) eqn:Hj.
  - apply andb_true_iff in Hj. destruct Hj as [_ Hj]. rewrite Hj.
    now apply Hacc.
  - destruct (nonempty html_text);
      [destruct (should_include_job (listing_text ++ txt " " ++ html_text))
      |destruct (should_include_job (listing_text ++ txt " " ++ json_text))];
      first [now apply Hacc | now apply Hskip].
Qed.

(** X9. When a posting is accepted.  It is accepted exactly when its URL is
    not a seen link, its listing text has neither the consultant keyword nor
    an excluded grade, and the listing text is eligible or, failing that,
    the listing text followed by the detail text is: the structured text if
    it is not empty and makes the posting eligible, else the rendered page
    if it is not empty (the structured text is then dropped), else the
    structured text.  An accepted URL joins the seen links; and every
    posting looked at is counted once. *)
Theorem posting_accepted_iff (w : world) (p : posting) (st : state) :
  let title := strip (p_title p) in
  let path := p_externalPath p in
  let job_url := build_job_url path in
  let listing_text := listing_text_of title (location_of p) (p_bulletFields p) in
  let json_text := match fetch_job_detail_json w (calls st) path with
                   | Some job_desc => join (txt " ") (detail_parts job_desc)
                   | None => []
                   end in
  let html_text :=
    fetch_job_detail_text w (FetchDetailJson path :: calls st) job_url in
  let detail_text :=
    if nonempty json_text && should_include_job (listing_text ++ txt " " ++ json_text)
    then json_text
    else if nonempty html_text then html_text else json_text in
  let eligible :=
    negb (set_mem job_url (existing_links st))
    && negb (is_consultant listing_text)
    && negb (is_excluded_grade listing_text)
    && (should_include_job listing_text
        || should_include_job (listing_text ++ txt " " ++ detail_text)) in
  map link_of (included_jobs (process_posting w p st))
    = map link_of (included_jobs st) ++ (if eligible then [job_url] else [])
  /\ existing_links (process_posting w p st)
     = existing_links st ++ (if eligible then [job_url] else [])
  /\ total_processed (process_posting w p st) = S (total_processed st).
Proof. exact (process_posting_links w p st). Qed.

(** ** The links of a run *)

Lemma set_mem_In x s : set_mem x s = true <-> In x s.
Proof.
  unfold set_mem. rewrite existsb_exists. split.
  - intros (y & Hy & E). apply text_eqb_eq in E. now subst.
  - intro H. exists x. split; [exact H | apply text_eqb_refl].
Qed.

Lemma set_mem_not_In x s : set_mem x s = false <-> ~ In x s.
Proof.
  rewrite <- set_mem_In. destruct (set_mem x s); split; congruence.
Qed.

Lemma NoDup_snoc {A} (l : list A) x : NoDup l -> ~ In x l -> NoDup (l ++ [x]).
Proof.
  intros Hl Hx. apply NoDup_rev in Hl. rewrite <- (rev_involutive (l ++ [x])).
  apply NoDup_rev. rewrite rev_app_distr. simpl. constructor; [|exact Hl].
  now rewrite <- in_rev.
Qed.

Lemma fresh_links_posting seen0 w p st :
  fresh_links seen0 st -> fresh_links seen0 (process_posting w p st).
Proof.
  intros (H1 & H2 & H3).
  destruct (process_posting_links w p st) as (E1 & E2 & _). cbv zeta in E1, E2.
  set (job_url := build_job_url (p_externalPath p)) in *.
  match type of E1 with
  | context [if ?b then [job_url] else []] => destruct b eqn:Hb
  end.
  - assert (Hm : ~ In job_url (existing_links st)).
    { apply set_mem_not_In. rewrite !andb_true_iff in Hb.
      destruct Hb as (((Hm & _) & _) & _). now apply negb_true_iff in Hm. }
    unfold fresh_links. rewrite E1, E2. repeat apply conj.
    + apply NoDup_snoc; [exact H1|]. intro Hin. apply H2 in Hin. tauto.
    + intros l Hl. rewrite in_app_iff in *. destruct Hl as [Hl|[<-|[]]].
      * destruct (H2 l Hl). tauto.
      * split; [|right; now left]. intro Hs. apply H3 in Hs. contradiction.
    + intros l Hl. rewrite in_app_iff. left. now apply H3.
  - unfold fresh_links. rewrite E1, E2, !app_nil_r. repeat apply conj; assumption.
Qed.

Lemma fresh_links_postings seen0 w ps : forall st,
  fresh_links seen0 st -> fresh_links seen0 (process_postings w ps st).
Proof.
  induction ps as [|p ps IH]; intros st H; cbn [process_postings]; [exact H|].
  destruct (MAX_INCLUDED_JOBS <=? length (included_jobs st)); [exact H|].
  apply IH, fresh_links_posting, H.
Qed.

(** An invariant of the loop: [P] holds each time the [while] test is
    made, and [Q] when the loop is left. *)
Lemma paginate_inv (w : world) (P : state -> Prop) (Q : state -> stop -> Prop) :
  (forall st, P st ->
     (length (included_jobs st) <? MAX_INCLUDED_JOBS) && (pages_fetched st <? MAX_PAGES)
       = false ->
     Q st LoopConditionFalse) ->
  (forall st, P st ->
     (length (included_jobs st) <? MAX_INCLUDED_JOBS) && (pages_fetched st <? MAX_PAGES)
       = true ->
     Q (requested (FetchListings (offset st)) st) ListingFetchFailed
     /\ Q (requested (FetchListings (offset st)) st) NoMorePostings
     /\ forall ps total,
          let st1 := next_page (process_postings w ps
                                  (requested (FetchListings (offset st)) st)) in
          P st1 /\ Q st1 (ReachedEnd total)) ->
  forall fuel st st' reason,
    P st -> paginate fuel w st = Some (st', reason) -> Q st' reason.
Proof.
  intros Hfalse Htrue.
  induction fuel as [|fuel IH]; intros st st' reason HP E; [discriminate|].
  cbn [paginate] in E.
  destruct ((length (included_jobs st) <? MAX_INCLUDED_JOBS)
            && (pages_fetched st <? MAX_PAGES)) eqn:Hcond.
  - destruct (Htrue st HP Hcond) as (Q1 & Q2 & Q3).
    destruct (fetch_job_listings w (calls st) (offset st)) as [|ps total].
    + injection E as <- <-. exact Q1.
    + destruct ps as [|p ps]; [injection E as <- <-; exact Q2|].
      destruct (Q3 (p :: ps) total) as [HP1 HQ1].
      destruct (total <=? offset _)%Z.
      * injection E as <- <-. exact HQ1.
      * eapply IH; [exact HP1 | exact E].
  - injection E as <- <-. now apply Hfalse.
Qed.

Lemma initial_links_fresh doc : fresh_links (load_existing_links doc) (initial_state doc).
Proof.
  unfold fresh_links. cbn [initial_state included_jobs existing_links map].
  repeat apply conj; [constructor | intros l [] | auto].
Qed.

Lemma run_links_fresh (w : world) (doc : feed_document) :
  exists st reason,
    paginate (S MAX_PAGES) w (initial_state doc) = Some (st, reason)
    /\ NoDup (map link_of (included_jobs st))
    /\ (forall l, In l (map link_of (included_jobs st)) ->
                  ~ In l (load_existing_links doc) /\ In l (existing_links st))
    /\ (forall l, In l (load_existing_links doc) -> In l (existing_links st)).
Proof.
  destruct (scrape_jobs_result w doc) as (st & reason & E & _).
  exists st, reason. split; [exact E|].
  apply (paginate_inv w (fresh_links (load_existing_links doc))
           (fun s _ => fresh_links (load_existing_links doc) s))
    with (fuel := S MAX_PAGES) (st := initial_state doc) (reason := reason).
  - auto.
  - intros s Hs _. split; [exact Hs|]. split; [exact Hs|].
    intros ps total. cbv zeta.
    assert (H : fresh_links (load_existing_links doc)
                  (process_postings w ps (requested (FetchListings (offset s)) s)))
      by (apply fresh_links_postings; exact Hs).
    split; exact H.
  - apply initial_links_fresh.
  - exact E.
Qed.

(** X10. The links accepted in a run are pairwise different, none of them
    is a link loaded from the prior feed, and at the end the seen links hold
    the loaded links and the accepted ones. *)
Theorem accepted_links_fresh (w : world) (doc : feed_document) :
  exists st reason,
    paginate (S MAX_PAGES) w (initial_state doc) = Some (st, reason)
    /\ NoDup (map link_of (included_jobs st))
    /\ (forall l, In l (map link_of (included_jobs st)) ->
                  ~ In l (load_existing_links doc) /\ In l (existing_links st))
    /\ (forall l, In l (load_existing_links doc) -> In l (existing_links st)).
Proof. exact (run_links_fresh w doc). Qed.

Lemma NoDup_map_filter {A B} (f : A -> B) (g : A -> bool) l :
  NoDup (map f l) -> NoDup (map f (filter g l)).
Proof.
  induction l as [|x l IH]; [auto|]. cbn [map filter]. intro H.
  inversion H as [|? ? Hx Hl]; subst.
  destruct (g x); [|auto]. cbn [map]. constructor; [|auto].
  intro Hin. apply Hx. apply in_map_iff in Hin. destruct Hin as (y & E & Hy).
  apply filter_In in Hy. apply in_map_iff. exists y. tauto.
Qed.

Lemma output_links_NoDup (w : world) (doc : feed_document) :
  NoDup (map link_of (load_existing_items doc)) ->
  (forall item, In item (load_existing_items doc) ->
                In (link_of item) (load_existing_links doc)) ->
  exists out, scrape_jobs w doc = Some out /\ NoDup (map link_of out).
Proof.
  intros Hold Hseen.
  destruct (run_links_fresh w doc) as (st & reason & E & H1 & H2 & _).
  exists (merge_items (load_existing_items doc) (included_jobs st)).
  split; [unfold scrape_jobs; rewrite E; reflexivity|].
  unfold merge_items. apply NoDup_map_filter. rewrite map_app.
  apply NoDup_app; [exact Hold | exact H1 |].
  intros l Hl Hl'. apply in_map_iff in Hl. destruct Hl as (item & <- & Hitem).
  apply (proj1 (H2 _ Hl')). now apply Hseen.
Qed.

(** X11. When the links of the prior items are pairwise different and
    every one of them is among the loaded links, the links of the items
    handed to the feed are pairwise different: a run adds no link twice and
    none that the prior feed holds. *)
Theorem output_links_distinct (w : world) (doc : feed_document) :
  NoDup (map link_of (load_existing_items doc)) ->
  (forall item, In item (load_existing_items doc) ->
                In (link_of item) (load_existing_links doc)) ->
  exists out, scrape_jobs w doc = Some out /\ NoDup (map link_of out).
Proof. exact (output_links_NoDup w doc). Qed.

Lemma output_links_distinct_witness :
  let url := txt "https://example.org/job/1" in
  let doc := feed_with (txt "Protection Officer P-3") url in
  let w := one_page_world
             (page_with (txt "Protection Officer P-3") url
              ++ page_with (txt "Legal Officer P-2") (txt "/job/2")
              ++ page_with (txt "Legal Officer P-2") (txt "/job/2")) None [] in
  exists out, scrape_jobs w doc = Some out /\ NoDup (map link_of out).
Proof.
  intros url doc w. apply (output_links_distinct w doc).
  - vm_compute. constructor; [intros [] | constructor].
  - intros item [<-|[]]. vm_compute. left. reflexivity.
Defined.

(** ** The listing requests *)

Lemma process_posting_listing_calls w p st :
  filter is_listing_call (calls (process_posting w p st))
    = filter is_listing_call (calls st)
  /\ offset (process_posting w p st) = offset st
  /\ pages_fetched (process_posting w p st) = pages_fetched st.
Proof.
  split.
  - rewrite process_posting_calls. cbv zeta.
    repeat match goal with |- context [if ?b then _ else _] => destruct b end;
      reflexivity.
  - destruct (process_posting_outcome w p st)
      as (st1 & (_ & _ & Ho & _ & Hp & _) & [E|[_ E]]);
      rewrite E; cbn [skipped accepted offset pages_fetched]; auto.
Qed.

Lemma process_postings_listing_calls w ps : forall st,
  filter is_listing_call (calls (process_postings w ps st))
    = filter is_listing_call (calls st)
  /\ offset (process_postings w ps st) = offset st
  /\ pages_fetched (process_postings w ps st) = pages_fetched st.
Proof.
  induction ps as [|p ps IH]; intro st; cbn [process_postings]; [auto|].
  destruct (MAX_INCLUDED_JOBS <=? length (included_jobs st)); [auto|].
  destruct (IH (process_posting w p st)) as (H1 & H2 & H3).
  destruct (process_posting_listing_calls w p st) as (G1 & G2 & G3).
  repeat apply conj; congruence.
Qed.

Lemma page_requests_S n :
  page_requests (S n) = FetchListings (PAGE_SIZE * Z.of_nat n) :: page_requests n.
Proof.
  unfold page_requests. rewrite seq_S, map_app, rev_app_distr. reflexivity.
Qed.

Lemma page_requests_length n : length (page_requests n) = n.
Proof. unfold page_requests. now rewrite length_rev, length_map, length_seq. Qed.

Lemma run_listing_requests (w : world) (doc : feed_document) :
  exists st reason,
    paginate (S MAX_PAGES) w (initial_state doc) = Some (st, reason)
    /\ filter is_listing_call (calls st) = page_requests (pages_requested st reason)
    /\ 1 <= pages_requested st reason <= MAX_PAGES
    /\ offset st = (PAGE_SIZE * Z.of_nat (pages_fetched st))%Z.
Proof.
  destruct (scrape_jobs_result w doc) as (st & reason & E & _ & Hcalls & _).
  exists st, reason. split; [exact E|].
  assert (H : offset st = (PAGE_SIZE * Z.of_nat (pages_fetched st))%Z
              /\ filter is_listing_call (calls st)
                 = page_requests (pages_requested st reason)
              /\ 1 <= pages_requested st reason).
  { apply (paginate_inv w
             (fun s => offset s = (PAGE_SIZE * Z.of_nat (pages_fetched s))%Z
                       /\ filter is_listing_call (calls s)
                          = page_requests (pages_fetched s)
                       /\ (pages_fetched s = 0 -> included_jobs s = []))
             (fun s r => offset s = (PAGE_SIZE * Z.of_nat (pages_fetched s))%Z
                         /\ filter is_listing_call (calls s)
                            = page_requests (pages_requested s r)
                         /\ 1 <= pages_requested s r))
      with (fuel := S MAX_PAGES) (st := initial_state doc).
    - intros s (H1 & H2 & H3) Hc. cbn [pages_requested].
      split; [exact H1|]. split; [exact H2|].
      destruct (pages_fetched s) as [|n]; [|lia].
      rewrite (H3 eq_refl) in Hc. discriminate.
    - intros s (H1 & H2 & H3) _.
      assert (Hreq : filter is_listing_call (calls (requested (FetchListings (offset s)) s))
                     = page_requests (S (pages_fetched s))).
      { cbn [requested calls filter is_listing_call].
        now rewrite page_requests_S, H2, H1. }
      split; [|split].
      + cbn [pages_requested]. split; [exact H1|]. split; [exact Hreq | lia].
      + cbn [pages_requested]. split; [exact H1|]. split; [exact Hreq | lia].
      + intros ps total. cbv zeta.
        destruct (process_postings_listing_calls w ps
                    (requested (FetchListings (offset s)) s)) as (G1 & G2 & G3).
        cbn [requested offset pages_fetched] in G2, G3.
        assert (Ho : offset (next_page (process_postings w ps
                                          (requested (FetchListings (offset s)) s)))
                     = (PAGE_SIZE * Z.of_nat (S (pages_fetched s)))%Z).
        { cbn [next_page offset]. rewrite G2, H1. unfold PAGE_SIZE. lia. }
        cbn [pages_requested]. cbn [next_page pages_fetched calls] in *.
        rewrite G3, G1, Hreq.
        repeat apply conj; auto; try lia; discriminate.
    - cbn [initial_state offset pages_fetched calls included_jobs].
      repeat apply conj; reflexivity.
    - exact E. }
  destruct H as (H1 & H2 & H3). repeat apply conj; auto.
  unfold listing_calls in Hcalls. rewrite H2, page_requests_length in Hcalls.
  exact Hcalls.
Qed.

(** X12. The listing pages of a run are requested at the offsets 0, 20,
    40, ... one after the other, each once, whatever the pages hold: at
    least one page and at most [MAX_PAGES] are requested, and the offset
    moves on by [PAGE_SIZE] with every page that held postings. *)
Theorem listing_requests_in_steps (w : world) (doc : feed_document) :
  exists st reason,
    paginate (S MAX_PAGES) w (initial_state doc) = Some (st, reason)
    /\ filter is_listing_call (calls st) = page_requests (pages_requested st reason)
    /\ 1 <= pages_requested st reason <= MAX_PAGES
    /\ offset st = (PAGE_SIZE * Z.of_nat (pages_fetched st))%Z.
Proof. exact (run_listing_requests w doc). Qed.

(** ** The links of the prior feed *)

Lemma set_add_In y x s : In y (set_add x s) <-> y = x \/ In y s.
Proof.
  unfold set_add. destruct (set_mem x s) eqn:E.
  - apply set_mem_In in E. split; [auto|]. intros [->|H]; auto.
  - rewrite in_app_iff. simpl. intuition.
Qed.

Lemma set_add_NoDup x s : NoDup s -> NoDup (set_add x s).
Proof.
  intro H. unfold set_add. destruct (set_mem x s) eqn:E; [exact H|].
  apply NoDup_snoc; [exact H|]. now apply set_mem_not_In.
Qed.

Lemma loaded_links (doc : feed_document) :
  NoDup (load_existing_links doc)
  /\ (forall l, In l (load_existing_links doc) <->
        exists item link_el,
          In item doc
          /\ find (fun ch => text_eqb (x_tag ch) (txt "link")) item = Some link_el
          /\ truthy (x_text link_el) = true
          /\ l = strip (text_or_empty (x_text link_el))).
Proof.
  unfold load_existing_links.
  induction doc as [|item doc IH] using rev_ind.
  - split; [constructor|]. intro l. split; [intros [] | intros (? & ? & [] & _)].
  - rewrite fold_left_app. cbn [fold_left]. destruct IH as [IH1 IH2].
    assert (Hold : forall l i e,
              In i doc ->
              find (fun ch => text_eqb (x_tag ch) (txt "link")) i = Some e ->
              truthy (x_text e) = true -> l = strip (text_or_empty (x_text e)) ->
              exists item0 link_el,
                In item0 (doc ++ [item])
                /\ find (fun ch => text_eqb (x_tag ch) (txt "link")) item0 = Some link_el
                /\ truthy (x_text link_el) = true
                /\ l = strip (text_or_empty (x_text link_el))).
    { intros l i e Hi Hfi Hti El. exists i, e. rewrite in_app_iff. auto. }
    destruct (find (fun ch => text_eqb (x_tag ch) (txt "link")) item)
      as [link_el|] eqn:Hf.
    + destruct (truthy (x_text link_el)) eqn:Ht.
      * split; [apply set_add_NoDup; exact IH1|].
        intro l. rewrite set_add_In. split.
        -- intros [->|H].
           ++ exists item, link_el. rewrite in_app_iff. simpl. auto.
           ++ apply IH2 in H. destruct H as (i & e & Hi & Hfi & Hti & El). eauto.
        -- intros (i & e & Hi & Hfi & Hti & ->).
           apply in_app_iff in Hi. destruct Hi as [Hi|[<-|[]]].
           ++ right. apply IH2. exists i, e. auto.
           ++ left. congruence.
      * split; [exact IH1|]. intro l. split.
        -- intro H. apply IH2 in H. destruct H as (i & e & Hi & Hfi & Hti & El). eauto.
        -- intros (i & e & Hi & Hfi & Hti & ->).
           apply in_app_iff in Hi. destruct Hi as [Hi|[<-|[]]].
           ++ apply IH2. exists i, e. auto.
           ++ congruence.
    + split; [exact IH1|]. intro l. split.
      * intro H. apply IH2 in H. destruct H as (i & e & Hi & Hfi & Hti & El). eauto.
      * intros (i & e & Hi & Hfi & Hti & ->).
        apply in_app_iff in Hi. destruct Hi as [Hi|[<-|[]]].
        -- apply IH2. exists i, e. auto.
        -- congruence.
Qed.

(** X13. The links loaded from the prior feed: a set (no link twice) that
    holds exactly the stripped texts of the first [<link>] child of the
    items whose text is not empty; so every loaded link is a stripped
    text. *)
Theorem load_existing_links_stripped (doc : feed_document) :
  NoDup (load_existing_links doc)
  /\ (forall l, In l (load_existing_links doc) <->
        exists item link_el,
          In item doc
          /\ find (fun ch => text_eqb (x_tag ch) (txt "link")) item = Some link_el
          /\ truthy (x_text link_el) = true
          /\ l = strip (text_or_empty (x_text link_el)))
  /\ (forall l, In l (load_existing_links doc) -> strip l = l).
Proof.
  destruct (loaded_links doc) as [H1 H2]. repeat apply conj; auto.
  intros l Hl. apply H2 in Hl. destruct Hl as (i & e & _ & _ & _ & ->).
  apply strip_idem.
Qed.

(** ** The grade line *)

(** X14. The grades of the "Grade:" piece in their order: the detected
    grades sorted are the grades D-1, D-2, P-1, ..., P-5 found in the
    normalized text, in this order, each once. *)
Theorem sorted_grades_order (t : text) :
  sorted (detect_grades t)
  = filter (fun g => contains g (normalize_text t))
      [txt "D-1"; txt "D-2"; txt "P-1"; txt "P-2"; txt "P-3"; txt "P-4"; txt "P-5"].
Proof.
  unfold detect_grades, INCLUDED_GRADES. cbv zeta. cbn [filter].
  set (n := normalize_text t).
  destruct (contains (txt "P-1") n), (contains (txt "P-2") n),
    (contains (txt "P-3") n), (contains (txt "P-4") n),
    (contains (txt "P-5") n), (contains (txt "D-1") n),
    (contains (txt "D-2") n); vm_compute; reflexivity.
Qed.

(** * Endpoint discovery and the address of the structured detail *)

(** ** [str.replace] *)

Lemma replace_skip old new x : forall t,
  replace_from old new (length x) (x ++ t) = replace_from old new 0 t.
Proof.
  induction x as [|c x IH]; intro t; [destruct t; reflexivity|].
  cbn [length app replace_from]. apply IH.
Qed.

Lemma starts_with_refl (p : text) : starts_with p p = true.
Proof.
  induction p as [|c p IH]; [reflexivity|].
  simpl. now rewrite Ascii.eqb_refl, IH.
Qed.

Lemma occurrences_suffix p e : 1 <= occurrences p (e ++ p).
Proof.
  induction e as [|c e IH].
  - cbn [app]. destruct p as [|a p]; [simpl; lia|].
    cbn [occurrences]. rewrite starts_with_refl. lia.
  - cbn [app occurrences]. lia.
Qed.

Lemma replace_last old new e :
  old <> [] -> occurrences old (e ++ old) = 1 ->
  replace old new (e ++ old) = e ++ new.
Proof.
  intros Hold. unfold replace. induction e as [|c e IH]; intro H.
  - cbn [app] in *. destruct old as [|a old]; [congruence|].
    cbn [replace_from].
    rewrite starts_with_refl.
    cbn [length pred].
    pose proof (replace_skip (a :: old) new old []) as Hs.
    rewrite app_nil_r in Hs. rewrite Hs. cbn [replace_from]. apply app_nil_r.
  - cbn [app occurrences] in H. pose proof (occurrences_suffix old e) as Hs.
    cbn [app replace_from].
    destruct (starts_with old (c :: e ++ old)); [simpl in H; lia|].
    f_equal. apply IH. simpl in H. lia.
Qed.

(** X15. The address of the structured detail.  When "/jobs" occurs in the
    endpoint at its end only, the address is the endpoint with this ending
    replaced by the path of the posting; for the known endpoint it is
    ".../wday/cxs/unhcr/External" followed by the path. *)
Theorem detail_url_of_endpoint (e external_path : text) :
  occurrences (txt "/jobs") (e ++ txt "/jobs") = 1 ->
  detail_url (e ++ txt "/jobs") external_path = e ++ external_path.
Proof.
  intro H. unfold detail_url. apply replace_last; [discriminate | exact H].
Qed.

Lemma detail_url_of_endpoint_witness :
  detail_url KNOWN_ENDPOINT (txt "/job/Geneva/Officer_JR1")
  = txt "https://unhcr.wd3.myworkdayjobs.com/wday/cxs/unhcr/External/job/Geneva/Officer_JR1".
Proof.
  apply (detail_url_of_endpoint
           (txt "https://unhcr.wd3.myworkdayjobs.com/wday/cxs/unhcr/External")
           (txt "/job/Geneva/Officer_JR1")).
  vm_compute. reflexivity.
Defined.

(** ** [discover_endpoint] *)

Lemma str_re_caps ic s : forall p q,
  In q (run ic (str_re s) p) -> m_caps q = m_caps p.
Proof.
  induction s as [|l s IH]; intros p q H.
  - destruct H as [<-|[]]. reflexivity.
  - assert (Hone : forall p q, In q (run ic (Chr (Lit l)) p) -> m_caps q = m_caps p).
    { clear. intros p q H. cbn [run] in H.
      destruct (m_rest p) as [|c t]; [contradiction|].
      destruct (accepts ic (Lit l) c); [|contradiction].
      destruct H as [<-|[]]. reflexivity. }
    destruct s as [|l' s]; [now apply Hone|].
    change (str_re (l :: l' :: s)) with (Seq (Chr (Lit l)) (str_re (l' :: s))) in H.
    cbn [run] in H. apply in_flat_map in H. destruct H as (m & Hm & Hq).
    apply Hone in Hm. apply IH in Hq. congruence.
Qed.

Lemma non_slash_accepts c : accepts false non_slash c = negb (Ascii.eqb c "/").
Proof. each_char c; vm_compute; reflexivity. Qed.

Lemma consumed_prefix p q x : m_rest p = x ++ m_rest q -> consumed p q = x.
Proof. intro H. unfold consumed. rewrite H. apply firstn_drop_suffix. Qed.

Lemma search_from_In ic r t : forall wb m,
  search_from ic r wb t = Some m -> exists wb' t', In m (run ic r (MPos wb' t' [])).
Proof.
  induction t as [|c t IH]; intros wb m H; cbn [search_from] in H.
  - destruct (match_at ic r wb []) as [q|] eqn:E; [|discriminate].
    injection H as <-. exists wb, []. now apply hd_error_In.
  - destruct (match_at ic r wb (c :: t)) as [q|] eqn:E.
    + injection H as <-. exists wb, (c :: t). now apply hd_error_In.
    + eapply IH. exact H.
Qed.

(** What the two groups of a match of [ENDPOINT_RE] hold. *)
Lemma endpoint_groups p m :
  m_caps p = [] -> In m (run false ENDPOINT_RE p) ->
  group 1 (m_caps m) <> [] /\ group 2 (m_caps m) <> []
  /\ forallb (fun c => negb (Ascii.eqb c "/")) (group 1 (m_caps m)) = true
  /\ forallb (fun c => negb (Ascii.eqb c "/")) (group 2 (m_caps m)) = true.
Proof.
  intros Hp H.
  change ENDPOINT_RE
    with (Seq (str "/wday/cxs/")
            (Seq (Grp 1 (Rep non_slash 1 None))
               (Seq (str "/") (Seq (Grp 2 (Rep non_slash 1 None)) (str "/jobs"))))) in H.
  cbn [run] in H.
  apply in_flat_map in H. destruct H as (m1 & H1 & H).
  apply in_flat_map in H. destruct H as (m2 & H2 & H).
  apply in_flat_map in H. destruct H as (m3 & H3 & H).
  apply in_flat_map in H. destruct H as (m4 & H4 & H).
  apply str_re_caps in H1. apply str_re_caps in H.
  assert (H3' : m_caps m3 = m_caps m2) by (apply (str_re_caps false (txt "/")); exact H3).
  apply in_map_iff in H2. destruct H2 as (q1 & <- & Hq1).
  apply in_map_iff in H4. destruct H4 as (q2 & <- & Hq2).
  apply rep_suffix in Hq1. destruct Hq1 as (x1 & E1 & A1 & L1 & C1 & _).
  apply rep_suffix in Hq2. destruct Hq2 as (x2 & E2 & A2 & L2 & C2 & _).
  rewrite H. cbn [capture m_caps group Nat.eqb].
  rewrite (consumed_prefix m3 q2 x2 E2), C2, H3'.
  cbn [capture m_caps group Nat.eqb].
  rewrite (consumed_prefix m1 q1 x1 E1).
  assert (Hns : forall x, forallb (accepts false non_slash) x = true ->
                  forallb (fun c => negb (Ascii.eqb c "/")) x = true).
  { intros x Hx. rewrite forallb_forall in *. intros c Hc.
    rewrite <- non_slash_accepts. auto. }
  repeat apply conj; auto.
  - destruct x1; [simpl in L1; lia | discriminate].
  - destruct x2; [simpl in L2; lia | discriminate].
Qed.

Lemma discovered_endpoint (get : text -> option (Z * text)) :
  discover_endpoint get = KNOWN_ENDPOINT
  \/ exists tenant site,
       discover_endpoint get
         = txt "https://unhcr.wd3.myworkdayjobs.com/wday/cxs/" ++ tenant
             ++ txt "/" ++ site ++ txt "/jobs"
       /\ tenant <> [] /\ site <> []
       /\ forallb (fun c => negb (Ascii.eqb c "/")) tenant = true
       /\ forallb (fun c => negb (Ascii.eqb c "/")) site = true.
Proof.
  unfold discover_endpoint.
  generalize [txt "en-GB"; txt "en-US"; txt "fr-FR"] as l.
  induction l as [|locale rest IH]; [left; reflexivity|].
  cbn [discover_from]. cbv zeta.
  destruct (get _) as [[status_code resp_text]|]; [|exact IH].
  destruct (status_code =? 200)%Z; [|exact IH].
  destruct (search_from false ENDPOINT_RE false resp_text) as [m|] eqn:E; [|exact IH].
  right. apply search_from_In in E. destruct E as (wb' & t' & E).
  apply endpoint_groups in E; [|reflexivity].
  exists (group 1 (m_caps m)), (group 2 (m_caps m)). tauto.
Qed.

Lemma discover_endpoint_fallback (get : text -> option (Z * text)) :
  (forall url, match get url with
               | Some (status_code, resp_text) =>
                   status_code <> 200%Z
                   \/ search_from false ENDPOINT_RE false resp_text = None
               | None => True
               end) ->
  discover_endpoint get = KNOWN_ENDPOINT.
Proof.
  intro H. unfold discover_endpoint.
  generalize [txt "en-GB"; txt "en-US"; txt "fr-FR"] as l.
  induction l as [|locale rest IH]; [reflexivity|].
  cbn [discover_from]. cbv zeta.
  match goal with |- context [get ?u] => specialize (H u); destruct (get u) as [[s b]|] end;
    [|exact IH].
  destruct (s =? 200)%Z eqn:Es; [|exact IH].
  destruct H as [H|H]; [apply Z.eqb_eq in Es; contradiction|].
  rewrite H. exact IH.
Qed.

(** X16. The endpoint of a run is the known endpoint, or the address
    ".../wday/cxs/TENANT/SITE/jobs" for a tenant and a site that are not
    empty and hold no "/".  It is the known endpoint whenever no career page
    answers with status 200 and a text in which the path of an endpoint is
    found. *)
Theorem discover_endpoint_form (get : text -> option (Z * text)) :
  (discover_endpoint get = KNOWN_ENDPOINT
   \/ exists tenant site,
        discover_endpoint get
          = txt "https://unhcr.wd3.myworkdayjobs.com/wday/cxs/" ++ tenant
              ++ txt "/" ++ site ++ txt "/jobs"
        /\ tenant <> [] /\ site <> []
        /\ forallb (fun c => negb (Ascii.eqb c "/")) tenant = true
        /\ forallb (fun c => negb (Ascii.eqb c "/")) site = true)
  /\ ((forall url, match get url with
                   | Some (status_code, resp_text) =>
                       status_code <> 200%Z
                       \/ search_from false ENDPOINT_RE false resp_text = None
                   | None => True
                   end) ->
      discover_endpoint get = KNOWN_ENDPOINT).
Proof.
  split; [apply discovered_endpoint | apply discover_endpoint_fallback].
Qed.

Lemma discover_endpoint_form_witness :
  discover_endpoint
    (fun url => if text_eqb url (txt "https://unhcr.wd3.myworkdayjobs.com/en-GB/External")
                then None
                else Some (404%Z, txt "/wday/cxs/unhcr/External/jobs"))
  = KNOWN_ENDPOINT.
Proof.
  apply (proj2 (discover_endpoint_form _)).
  intro url. destruct (text_eqb url _); [exact I|].
  left. discriminate.
Defined.

(** * The excluded-grade patterns *)

Lemma flat_map_assoc {A B C} (f : A -> list B) (g : B -> list C) l :
  flat_map g (flat_map f l) = flat_map (fun x => flat_map g (f x)) l.
Proof.
  induction l as [|x l IH]; [reflexivity|].
  simpl. now rewrite flat_map_app, IH.
Qed.

Lemma run_seq_assoc ic a b c p :
  run ic (Seq (Seq a b) c) p = run ic (Seq a (Seq b c)) p.
Proof. cbn [run]. apply flat_map_assoc. Qed.

Lemma run_bnd_seq ic r p :
  run ic (Seq Bnd r) p = if at_boundary p then run ic r p else [].
Proof.
  cbn [run]. destruct (at_boundary p); [|reflexivity].
  cbn [flat_map]. apply app_nil_r.
Qed.

Lemma run_chr_seq ic a r wb t caps :
  run ic (Seq (Chr a) r) (MPos wb t caps)
  = match t with
    | c :: t' => if accepts ic a c then run ic r (MPos (is_word c) t' caps) else []
    | [] => []
    end.
Proof.
  cbn [run m_rest m_caps]. destruct t as [|c t]; [reflexivity|].
  destruct (accepts ic a c); [|reflexivity].
  cbn [flat_map]. apply app_nil_r.
Qed.

Lemma run_chr_bnd ic a wb t caps :
  run ic (Seq (Chr a) Bnd) (MPos wb t caps)
  = match t with
    | c :: t' =>
        if accepts ic a c && xorb (is_word c) (word_after t')
        then [MPos (is_word c) t' caps] else []
    | [] => []
    end.
Proof.
  rewrite run_chr_seq. destruct t as [|c t]; [reflexivity|].
  destruct (accepts ic a c); [|reflexivity].
  cbn [run andb]. unfold at_boundary. cbn [m_wb m_rest]. reflexivity.
Qed.

(** Where "NO" and one of the letters A to D match as a word, so does
    "NO" and the class of these letters. *)
Lemma national_officer_letter x wb t :
  In x [txt "NOA"; txt "NOB"; txt "NOC"; txt "NOD"] ->
  is_some (match_at false (seq_re [Bnd; str_re x; Bnd]) wb t) = true ->
  is_some (match_at false (seq_re [Bnd; str "NO"; Chr (Range "A" "D"); Bnd]) wb t) = true.
Proof.
  intros Hx. unfold match_at.
  assert (E : exists l, x = [ "N"%char; "O"%char; l ]
                        /\ accepts false (Range "A" "D") l = true).
  { simpl in Hx.
    repeat (destruct Hx as [<-|Hx]; [eexists; split; reflexivity|]).
    contradiction. }
  destruct E as (l & -> & Hl).
  change (seq_re [Bnd; str_re ["N"%char; "O"%char; l]; Bnd])
    with (Seq Bnd (Seq (Seq (Chr (Lit "N")) (Seq (Chr (Lit "O")) (Chr (Lit l)))) Bnd)).
  change (seq_re [Bnd; str "NO"; Chr (Range "A" "D"); Bnd])
    with (Seq Bnd (Seq (Seq (Chr (Lit "N")) (Chr (Lit "O")))
                       (Seq (Chr (Range "A" "D")) Bnd))).
  rewrite !run_bnd_seq. destruct (at_boundary (MPos wb t [])); [|auto].
  rewrite !run_seq_assoc, !run_chr_seq.
  destruct t as [|c1 t]; [auto|].
  destruct (accepts false (Lit "N") c1); [|auto].
  rewrite !run_seq_assoc, !run_chr_seq.
  destruct t as [|c2 t]; [auto|].
  destruct (accepts false (Lit "O") c2); [|auto].
  rewrite !run_chr_bnd.
  destruct t as [|c3 t]; [auto|].
  destruct (accepts false (Lit l) c3) eqn:E3;
    [|cbn [andb hd_error is_some]; intro Hf; discriminate Hf].
  cbn [accepts] in E3. apply Ascii.eqb_eq in E3. subst c3. rewrite Hl. auto.
Qed.

Lemma search_from_mono ic r1 r2 :
  (forall wb t, is_some (match_at ic r1 wb t) = true ->
                is_some (match_at ic r2 wb t) = true) ->
  forall t wb, is_some (search_from ic r1 wb t) = true ->
               is_some (search_from ic r2 wb t) = true.
Proof.
  intros H t. induction t as [|c t IH]; intro wb; cbn [search_from];
    specialize (H wb).
  - specialize (H []). destruct (match_at ic r1 wb []); [|discriminate].
    intros _. destruct (match_at ic r2 wb []); [reflexivity|].
    now apply H.
  - specialize (H (c :: t)). destruct (match_at ic r1 wb (c :: t)).
    + intros _. destruct (match_at ic r2 wb (c :: t)); [reflexivity|].
      discriminate H. reflexivity.
    + intro Hs. destruct (match_at ic r2 wb (c :: t)); [reflexivity|].
      now apply IH.
Qed.

Lemma national_officer_search x n :
  In x [txt "NOA"; txt "NOB"; txt "NOC"; txt "NOD"] ->
  re_search false (seq_re [Bnd; str_re x; Bnd]) n = true ->
  re_search false (seq_re [Bnd; str "NO"; Chr (Range "A" "D"); Bnd]) n = true.
Proof.
  intro Hx. rewrite !re_search_is_some. apply search_from_mono.
  intros wb t. now apply national_officer_letter.
Qed.

(** X17. The four patterns NOA, NOB, NOC and NOD never decide: a text has
    an excluded grade exactly when one of the patterns G-[1-7], NO[A-D],
    SB-[1-4] and LSC-\d{1,2} is found in its normalized form. *)
Theorem national_officer_patterns_redundant (t : text) :
  is_excluded_grade t
  = existsb (fun pat => re_search false pat (normalize_text t)) EXCLUDED_GRADE_CLASSES.
Proof.
  unfold is_excluded_grade, EXCLUDED_GRADE_PATTERNS, EXCLUDED_GRADE_CLASSES. cbv zeta.
  set (n := normalize_text t). cbn [existsb].
  pose proof (national_officer_search (txt "NOA") n) as HA.
  pose proof (national_officer_search (txt "NOB") n) as HB.
  pose proof (national_officer_search (txt "NOC") n) as HC.
  pose proof (national_officer_search (txt "NOD") n) as HD.
  change (str_re (txt "NOA")) with (str "NOA") in HA.
  change (str_re (txt "NOB")) with (str "NOB") in HB.
  change (str_re (txt "NOC")) with (str "NOC") in HC.
  change (str_re (txt "NOD")) with (str "NOD") in HD.
  destruct (re_search false (seq_re [Bnd; str "NO"; Chr (Range "A" "D"); Bnd]) n).
  - rewrite !orb_true_r. reflexivity.
  - destruct (re_search false (seq_re [Bnd; str "NOA"; Bnd]) n);
      [discriminate HA; [simpl; tauto | reflexivity]|].
    destruct (re_search false (seq_re [Bnd; str "NOB"; Bnd]) n);
      [discriminate HB; [simpl; tauto | reflexivity]|].
    destruct (re_search false (seq_re [Bnd; str "NOC"; Bnd]) n);
      [discriminate HC; [simpl; tauto | reflexivity]|].
    destruct (re_search false (seq_re [Bnd; str "NOD"; Bnd]) n);
      [discriminate HD; [simpl; tauto | reflexivity]|].
    reflexivity.
Qed.
